(** * NUFEB reaction-diffusion core: a shallow embedding

    The development follows three source files of the repository:

    - [code/lammps5Nov16/src/fix_bio_kinetics_diffusion.cpp]
      (class [FixKineticsDiffusion]: the boundary kinds read by the
      constructor, [isEuqal], [compute_flux], [compute_bc],
      [compute_bulk], [update_grids], [getMaxHeight], [diffusion]);
    - [code/lammps5Nov16/src/fix_bio_kinetics.cpp]
      ([FixKinetics::init_keq], [init_activity], [integration]);
    - [src/KOKKOS/fix_monod_cyano_kokkos.cpp]
      ([FixMonodCyanoKokkos::compute], [update_cells] with the functor of
      the cells, [update_atoms]).

    Modelling conventions.

    - A C [double] is an exact rational number ([Qc], rationals in lowest
      terms, so that equality is Leibniz equality).  Rounding, infinities
      and NaN are not modelled: every arithmetic operator is the exact one.
    - A C [int] is a [Z]; overflow is not modelled.
    - A C array reached through a pointer ([double *], [double **],
      [bool *]) is a total function from indices; an assignment [a[i] = v]
      is the function update [upd a i v].  Reads outside the allocated
      extent, undefined in C, return whatever the function holds there.
    - A [for] loop over an index range is a left fold over that range.
      The OpenMP parallel region of [diffusion] is run by one thread
      ([ifrom = 0], [ito = nXYZ]).
    - MPI point-to-point traffic is not modelled: the receive buffer that
      [MPI_Waitall] leaves behind is an input of the local step; the
      [MPI_Allreduce] over the convergence flags is modelled on the list of
      all processes' local flags, and the [int] it delivers is stored in
      the [bool] array as its truth value. *)

From Stdlib Require Import ZArith QArith Qcanon Qcabs Qround.
From Stdlib Require Import List String Bool Lia.
Import ListNotations.

Local Open Scope Z_scope.

(** ** Numbers *)

Notation double := Qc (only parsing).

Definition d_of_Z (n : Z) : double := Q2Qc (inject_Z n).

(** The literals of the sources. *)
Definition d0 : double := d_of_Z 0.
Definition d1 : double := d_of_Z 1.
Definition d2 : double := d_of_Z 2.
Definition d1000 : double := d_of_Z 1000.
(** [1e-20], the floor given to a non-positive concentration. *)
Definition d1e_20 : double := Q2Qc (1 # 100000000000000000000).
(** [1e-10], the tolerance of [isEuqal]. *)
Definition d1e_10 : double := Q2Qc (1 # 10000000000).

(** Comparison operators of C on doubles, as booleans. *)
Definition dlt (x y : double) : bool :=
  match (x ?= y)%Qc with Lt => true | _ => false end.
Definition dle (x y : double) : bool :=
  match (x ?= y)%Qc with Gt => false | _ => true end.
Definition dgt (x y : double) : bool := dlt y x.
Definition dge (x y : double) : bool := dle y x.
Definition deq (x y : double) : bool :=
  match (x ?= y)%Qc with Eq => true | _ => false end.

Definition fabs (x : double) : double := Qcabs x.

(** [floor] of [math.h] followed by the conversion to [int]. *)
Definition floor (x : double) : Z := Qfloor (this x).

(** The macro [MAX(A,B)] of LAMMPS, [((A) > (B) ? (A) : (B))]. *)
Definition MAX (a b : double) : double := if dgt a b then a else b.

(** ** Arrays and loops *)

Definition upd {A : Type} (a : Z -> A) (i : Z) (v : A) : Z -> A :=
  fun j => if j =? i then v else a j.

Definition upd2 {A : Type} (a : Z -> Z -> A) (i j : Z) (v : A) : Z -> Z -> A :=
  fun i' => if i' =? i then upd (a i') j v else a i'.

(** The indices [lo, lo+1, ..., hi-1] visited by
    [for (int k = lo; k < hi; k++)]. *)
Definition range (lo hi : Z) : list Z :=
  map (fun k => lo + Z.of_nat k) (seq 0 (Z.to_nat (hi - lo))).

Definition for_loop {A : Type} (lo hi : Z) (body : Z -> A -> A) (s : A) : A :=
  fold_left (fun acc k => body k acc) (range lo hi) s.

(** ** The objects [diffusion] works on

    [Env] gathers what a call of [diffusion] only reads: the members of
    [FixKineticsDiffusion] set by the constructor and by [init], and the
    members of [comm], [bio], [update] and [kinetics] it consults.
    [State] gathers what a call assigns. *)

Record Env := {
  (* comm *)
  nprocs : Z;
  (* bio *)
  nuName : Z -> string;
  nuType : Z -> Z;
  (* update *)
  dt : double;
  (* kinetics *)
  bl : double;
  bnz : Z;
  k_nz : Z;                       (* kinetics->nz *)
  sublo : Z -> double;
  subhi : Z -> double;
  subn : Z -> Z;
  recvcells : Z -> Z;
  recvend : Z -> Z;
  sendcells : Z -> Z;
  sendend : Z -> Z;
  (* FixKineticsDiffusion *)
  nevery : Z;
  nnus : Z;
  iniS : Z -> Z -> double;
  diffD : Z -> double;
  nx : Z; ny : Z; nz : Z;
  nX : Z; nY : Z;
  stepx : double; stepy : double; stepz : double;
  xlo : double; xhi : double;
  ylo : double; yhi : double;
  zlo : double; zhi : double;
  xbcflag : Z; ybcflag : Z; zbcflag : Z;
  unit_flag : Z;                 (* the member unit: 1 for kg, 0 for mol *)
  rflag : Z;
  shearRate : double; tol : double;
  q : double; rvol : double; af : double;
  xGrid : Z -> Z -> double       (* [grid][axis] *)
}.

Record State := {
  nXYZ : Z;
  bzhi : double;
  ghost : Z -> bool;
  diffT : double;
  xbcm : double; xbcp : double;
  ybcm : double; ybcp : double;
  zbcm : double; zbcp : double;
  nuGrid : Z -> Z -> double;      (* [grid][nu] *)
  nuPrev : Z -> Z -> double;      (* [nu][grid] *)
  nuBS : Z -> double;
  nuS : Z -> Z -> double;         (* kinetics->nuS, [nu][ind] *)
  nuR : Z -> Z -> double;         (* kinetics->nuR, [nu][ind] *)
  sendbuff : Z -> double
}.

Definition set_grids (n : Z) (b : double) (g : Z -> bool) (s : State) : State :=
  {| nXYZ := n; bzhi := b; ghost := g; diffT := diffT s;
     xbcm := xbcm s; xbcp := xbcp s; ybcm := ybcm s; ybcp := ybcp s;
     zbcm := zbcm s; zbcp := zbcp s;
     nuGrid := nuGrid s; nuPrev := nuPrev s; nuBS := nuBS s;
     nuS := nuS s; nuR := nuR s; sendbuff := sendbuff s |}.

Definition set_diffT (t : double) (s : State) : State :=
  {| nXYZ := nXYZ s; bzhi := bzhi s; ghost := ghost s; diffT := t;
     xbcm := xbcm s; xbcp := xbcp s; ybcm := ybcm s; ybcp := ybcp s;
     zbcm := zbcm s; zbcp := zbcp s;
     nuGrid := nuGrid s; nuPrev := nuPrev s; nuBS := nuBS s;
     nuS := nuS s; nuR := nuR s; sendbuff := sendbuff s |}.

Definition set_bc (xm xp ym yp zm zp : double) (s : State) : State :=
  {| nXYZ := nXYZ s; bzhi := bzhi s; ghost := ghost s; diffT := diffT s;
     xbcm := xm; xbcp := xp; ybcm := ym; ybcp := yp; zbcm := zm; zbcp := zp;
     nuGrid := nuGrid s; nuPrev := nuPrev s; nuBS := nuBS s;
     nuS := nuS s; nuR := nuR s; sendbuff := sendbuff s |}.

Definition set_nuGrid (a : Z -> Z -> double) (s : State) : State :=
  {| nXYZ := nXYZ s; bzhi := bzhi s; ghost := ghost s; diffT := diffT s;
     xbcm := xbcm s; xbcp := xbcp s; ybcm := ybcm s; ybcp := ybcp s;
     zbcm := zbcm s; zbcp := zbcp s;
     nuGrid := a; nuPrev := nuPrev s; nuBS := nuBS s;
     nuS := nuS s; nuR := nuR s; sendbuff := sendbuff s |}.

Definition set_nuPrev (a : Z -> Z -> double) (s : State) : State :=
  {| nXYZ := nXYZ s; bzhi := bzhi s; ghost := ghost s; diffT := diffT s;
     xbcm := xbcm s; xbcp := xbcp s; ybcm := ybcm s; ybcp := ybcp s;
     zbcm := zbcm s; zbcp := zbcp s;
     nuGrid := nuGrid s; nuPrev := a; nuBS := nuBS s;
     nuS := nuS s; nuR := nuR s; sendbuff := sendbuff s |}.

Definition set_nuBS (a : Z -> double) (s : State) : State :=
  {| nXYZ := nXYZ s; bzhi := bzhi s; ghost := ghost s; diffT := diffT s;
     xbcm := xbcm s; xbcp := xbcp s; ybcm := ybcm s; ybcp := ybcp s;
     zbcm := zbcm s; zbcp := zbcp s;
     nuGrid := nuGrid s; nuPrev := nuPrev s; nuBS := a;
     nuS := nuS s; nuR := nuR s; sendbuff := sendbuff s |}.

Definition set_nuS (a : Z -> Z -> double) (s : State) : State :=
  {| nXYZ := nXYZ s; bzhi := bzhi s; ghost := ghost s; diffT := diffT s;
     xbcm := xbcm s; xbcp := xbcp s; ybcm := ybcm s; ybcp := ybcp s;
     zbcm := zbcm s; zbcp := zbcp s;
     nuGrid := nuGrid s; nuPrev := nuPrev s; nuBS := nuBS s;
     nuS := a; nuR := nuR s; sendbuff := sendbuff s |}.

Definition set_nuR (a : Z -> Z -> double) (s : State) : State :=
  {| nXYZ := nXYZ s; bzhi := bzhi s; ghost := ghost s; diffT := diffT s;
     xbcm := xbcm s; xbcp := xbcp s; ybcm := ybcm s; ybcp := ybcp s;
     zbcm := zbcm s; zbcp := zbcp s;
     nuGrid := nuGrid s; nuPrev := nuPrev s; nuBS := nuBS s;
     nuS := nuS s; nuR := a; sendbuff := sendbuff s |}.

Definition set_sendbuff (a : Z -> double) (s : State) : State :=
  {| nXYZ := nXYZ s; bzhi := bzhi s; ghost := ghost s; diffT := diffT s;
     xbcm := xbcm s; xbcp := xbcp s; ybcm := ybcm s; ybcp := ybcp s;
     zbcm := zbcm s; zbcp := zbcp s;
     nuGrid := nuGrid s; nuPrev := nuPrev s; nuBS := nuBS s;
     nuS := nuS s; nuR := nuR s; sendbuff := a |}.

(** ** [FixKineticsDiffusion::isEuqal] and the cell sizes of [init] *)

Definition isEuqal (a b c : double) : bool :=
  let epsilon := d1e_10 in
  if dgt (fabs (a - b)%Qc) epsilon || dgt (fabs (a - b)%Qc) epsilon
     || dgt (fabs (a - b)%Qc) epsilon
  then false
  else true.

(** Lines 209-214 of [init]: the three cell sizes and the test on them.
    [error->all] ends the run; it is the left injection. *)
Definition init_steps (xlo_ xhi_ ylo_ yhi_ zlo_ zhi_ : double) (nx_ ny_ nz_ : Z)
  : string + (double * double * double) :=
  let stepx_ := ((xhi_ - xlo_) / d_of_Z nx_)%Qc in
  let stepy_ := ((yhi_ - ylo_) / d_of_Z ny_)%Qc in
  let stepz_ := ((zhi_ - zlo_) / d_of_Z nz_)%Qc in
  if negb (isEuqal stepx_ stepy_ stepz_) then inl "Grid is not cubic"%string
  else inr (stepx_, stepy_, stepz_).

(** ** [FixKineticsDiffusion::compute_flux] *)

(** The loop [while (!ghost[hgrid]) { hgrid--; deep++; }].  It is run for
    at most [n] tests; started with [n = grid + 1] it visits
    [grid, grid-1, ..., 0] and is cut off before index [-1], whose read
    lies outside the array. *)
Fixpoint shear_walk (gh : Z -> bool) (n : nat) (hgrid deep : Z) : Z :=
  match n with
  | O => deep
  | S n' => if gh hgrid then deep else shear_walk gh n' (hgrid - 1) (deep + 1)
  end.

(** The local [shear] of [compute_flux]. *)
Definition shear_term (e : Env) (s : State) (nuPrev_i : Z -> double) (grid : Z)
  : double :=
  let lhs := grid - 1 in
  let rhs := grid + 1 in
  if negb (deq (shearRate e) d0) then
    let deep := shear_walk (ghost s) (Z.to_nat (grid + 1)) grid 0 in
    (shearRate e * (d_of_Z deep * stepz e - stepz e / d2)
       * (nuPrev_i rhs - nuPrev_i lhs) / (d2 * stepz e))%Qc
  else d0.

Definition compute_flux (e : Env) (s : State) (cellDNu : double)
    (nuPrev_i : Z -> double) (rateNu : double) (grid : Z) : double :=
  let lhs := grid - 1 in
  let rhs := grid + 1 in
  let bwd := grid - nX e in
  let fwd := grid + nX e in
  let down := grid - nX e * nY e in
  let up := grid + nX e * nY e in
  (let jRight := cellDNu * (nuPrev_i rhs - nuPrev_i grid) / stepx e in
   let jLeft := cellDNu * (nuPrev_i grid - nuPrev_i lhs) / stepx e in
   let jX := (jRight - jLeft) / stepx e in
   let jForward := cellDNu * (nuPrev_i fwd - nuPrev_i grid) / stepy e in
   let jBackward := cellDNu * (nuPrev_i grid - nuPrev_i bwd) / stepy e in
   let jY := (jForward - jBackward) / stepy e in
   let jUp := cellDNu * (nuPrev_i up - nuPrev_i grid) / stepz e in
   let jDown := cellDNu * (nuPrev_i grid - nuPrev_i down) / stepz e in
   let jZ := (jUp - jDown) / stepz e in
   let shear := shear_term e s nuPrev_i grid in
   let res := (jX + jY + jZ + rateNu - shear) * diffT s in
   nuPrev_i grid + res)%Qc.

(** ** [FixKineticsDiffusion::compute_bc]

    The reference parameter [nuCell] is an argument and the result. *)

Definition compute_bc (e : Env) (s : State) (nuCell : double)
    (nuPrev_i : Z -> double) (grid : Z) (bulk : double) : double :=
  let lhs := grid - 1 in
  let rhs := grid + 1 in
  let bwd := grid - nX e in
  let fwd := grid + nX e in
  let down := grid - nX e * nY e in
  let up := grid + nX e * nY e in
  let nuCell' :=
    (* low-z surface *)
    if dlt (xGrid e grid 2) (zlo e) && negb (ghost s up) then
      if zbcflag e =? 0 then
        if nprocs e <? 2 then
          let zhiGrid := grid + nX e * nY e * nz e in nuPrev_i zhiGrid
        else nuCell
      else if zbcflag e =? 1 then (d2 * zbcm s - nuPrev_i up)%Qc
      else if zbcflag e =? 2 then nuPrev_i up
      else if zbcflag e =? 3 then nuPrev_i up
      else if zbcflag e =? 4 then (d2 * zbcm s - nuPrev_i up)%Qc
      else nuCell
    (* high-z surface *)
    else if dgt (xGrid e grid 2) (zhi e) && negb (ghost s down) then
      if zbcflag e =? 0 then
        if nprocs e <? 2 then
          let zloGrid := grid - nX e * nY e * nz e in nuPrev_i zloGrid
        else nuCell
      else if zbcflag e =? 1 then (d2 * bulk - nuPrev_i down)%Qc
      else if zbcflag e =? 2 then (d2 * bulk - nuPrev_i down)%Qc
      else if zbcflag e =? 3 then nuPrev_i down
      else if zbcflag e =? 4 then nuPrev_i down
      else nuCell
    (* low-y surface *)
    else if dlt (xGrid e grid 1) (ylo e) && negb (ghost s fwd) then
      if ybcflag e =? 0 then
        if nprocs e <? 2 then
          let yhiGrid := grid + nX e * ny e in nuPrev_i yhiGrid
        else nuCell
      else if ybcflag e =? 1 then (d2 * ybcm s - nuPrev_i fwd)%Qc
      else if ybcflag e =? 2 then nuPrev_i fwd
      else if ybcflag e =? 3 then nuPrev_i fwd
      else if ybcflag e =? 4 then (d2 * ybcm s - nuPrev_i fwd)%Qc
      else nuCell
    (* high-y surface *)
    else if dgt (xGrid e grid 1) (yhi e) && negb (ghost s bwd) then
      if ybcflag e =? 0 then
        if nprocs e <? 2 then
          let yloGrid := grid - nX e * ny e in nuPrev_i yloGrid
        else nuCell
      else if ybcflag e =? 1 then (d2 * ybcp s - nuPrev_i bwd)%Qc
      else if ybcflag e =? 2 then (d2 * ybcp s - nuPrev_i bwd)%Qc
      else if ybcflag e =? 3 then nuPrev_i bwd
      else if ybcflag e =? 4 then nuPrev_i bwd
      else nuCell
    (* low-x surface *)
    else if dlt (xGrid e grid 0) (xlo e) && negb (ghost s rhs) then
      if xbcflag e =? 0 then
        if nprocs e <? 2 then
          let xhiGrid := grid + nx e in nuPrev_i xhiGrid
        else nuCell
      else if xbcflag e =? 1 then (d2 * xbcm s - nuPrev_i rhs)%Qc
      else if xbcflag e =? 2 then nuPrev_i rhs
      else if xbcflag e =? 3 then nuPrev_i rhs
      else if xbcflag e =? 4 then (d2 * xbcm s - nuPrev_i rhs)%Qc
      else nuCell
    (* high-x surface *)
    else if dgt (xGrid e grid 0) (xhi e) && negb (ghost s lhs) then
      if xbcflag e =? 0 then
        if nprocs e <? 2 then
          let xloGrid := grid - nx e in nuPrev_i xloGrid
        else nuCell
      else if xbcflag e =? 1 then (d2 * xbcp s - nuPrev_i lhs)%Qc
      else if xbcflag e =? 2 then (d2 * xbcp s - nuPrev_i lhs)%Qc
      else if xbcflag e =? 3 then nuPrev_i lhs
      else if xbcflag e =? 4 then nuPrev_i lhs
      else nuCell
    else nuCell in
  if dle nuCell' d0 then d1e_20 else nuCell'.

(** ** [FixKineticsDiffusion::update_grids] *)

Definition update_grids (e : Env) (s : State) : State :=
  let bzhi' := (d_of_Z (bnz e) * stepz e)%Qc in
  let nXYZ' := nX e * nY e * (bnz e + 2) in
  let ghost' :=
    for_loop 0 nXYZ'
      (fun grid gh =>
         if dlt (xGrid e grid 0) d0 || dlt (xGrid e grid 1) d0
            || dlt (xGrid e grid 2) d0
            || dgt (xGrid e grid 0) (subhi e 0)
            || dgt (xGrid e grid 1) (subhi e 1)
            || dgt (xGrid e grid 2) bzhi'
         then upd gh grid true
         else upd gh grid false)
      (ghost s) in
  set_grids nXYZ' bzhi' ghost' s.

(** ** [FixKineticsDiffusion::compute_bulk] *)

Definition compute_bulk (e : Env) (nu : Z) (s : State) : State :=
  let sumR :=
    for_loop 0 (nx e * ny e * k_nz e)
      (fun i sumR => (sumR + nuR s nu i)%Qc) d0 in
  set_nuBS
    (upd (nuBS s) nu
       (nuBS s nu
        + ((q e / rvol e) * (zbcp s - nuBS s nu)
           + (af e / (rvol e * yhi e * xhi e))
             * sumR * stepx e * stepy e * stepz e)
          * dt e * d_of_Z (nevery e))%Qc)
    s.

(** ** [FixKineticsDiffusion::diffusion] *)

(** Copy of the grid data to the send buffer:
    [copy(nuGrid[i] + 1, nuGrid[i] + 1 + nnus, sendbuff + c * nnus)]. *)
Definition pack_cells (e : Env) (nsendcells : Z) (s : State) : State :=
  for_loop 0 nsendcells
    (fun c s =>
       let i := sendcells e c in
       for_loop 0 (nnus e)
         (fun k s =>
            set_sendbuff (upd (sendbuff s) (c * nnus e + k) (nuGrid s i (1 + k))) s)
         s)
    s.

(** Copy of the received data to [nuGrid]:
    [copy(recvbuff + c * nnus, recvbuff + c * nnus + nnus,
          &nuGrid[recvcells[c]][1])]. *)
Definition unpack_cells (e : Env) (recvbuff : Z -> double) (nrecvcells : Z)
    (s : State) : State :=
  for_loop 0 nrecvcells
    (fun c s =>
       for_loop 0 (nnus e)
         (fun k s =>
            set_nuGrid
              (upd2 (nuGrid s) (recvcells e c) (1 + k) (recvbuff (c * nnus e + k)))
              s)
         s)
    s.

(** Body of the first loop over the species: the six boundary values of
    species [i] are stored in the members [xbcm] ... [zbcp], then the bulk
    concentration is advanced on the first iteration. *)
Definition set_boundary (e : Env) (iter : Z) (i : Z) (s : State) : State :=
  let s1 :=
    if unit_flag e =? 0 then
      set_bc (iniS e i 1 * d1000)%Qc (iniS e i 2 * d1000)%Qc
             (iniS e i 3 * d1000)%Qc (iniS e i 4 * d1000)%Qc
             (iniS e i 5 * d1000)%Qc (iniS e i 6 * d1000)%Qc s
    else
      set_bc (iniS e i 1) (iniS e i 2) (iniS e i 3) (iniS e i 4)
             (iniS e i 5) (iniS e i 6) s in
  if (iter =? 1) && negb (String.eqb (nuName e i) "o2")
     && dge (q e) d0 && dge (af e) d0
  then compute_bulk e i s1
  else s1.

(** Body of the loop "solve diffusion and reaction" for species [i] at
    cell [grid]; the second component is [p_maxS]. *)
Definition cell_update (e : Env) (i : Z) (grid : Z) (sp : State * double)
  : State * double :=
  let (s, p_maxS) := sp in
  let s' :=
    if negb (ghost s grid) then
      let ix := floor ((xGrid e grid 0 - sublo e 0) / stepx e)%Qc in
      let iy := floor ((xGrid e grid 1 - sublo e 1) / stepy e)%Qc in
      let iz := floor ((xGrid e grid 2 - sublo e 2) / stepz e)%Qc in
      let ind := iz * subn e 0 * subn e 1 + iy * subn e 0 + ix in
      let s1 :=
        set_nuGrid
          (upd2 (nuGrid s) grid i
             (compute_flux e s (diffD e i) (nuPrev s i) (nuR s i ind) grid))
          s in
      let s2 := set_nuR (upd2 (nuR s1) i ind d0) s1 in
      if dgt (nuGrid s2 grid i) d0 then
        if unit_flag e =? 0
        then set_nuS (upd2 (nuS s2) i ind (nuGrid s2 grid i / d1000)%Qc) s2
        else set_nuS (upd2 (nuS s2) i ind (nuGrid s2 grid i)) s2
      else
        let s3 := set_nuGrid (upd2 (nuGrid s2) grid i d1e_20) s2 in
        set_nuS (upd2 (nuS s3) i ind d1e_20) s3
    else
      set_nuGrid
        (upd2 (nuGrid s) grid i
           (compute_bc e s (nuGrid s grid i) (nuPrev s i) grid (nuBS s i)))
        s in
  (s', if dlt p_maxS (nuGrid s' grid i) then nuGrid s' grid i else p_maxS).

(** The convergence ratio of species [i] at cell [grid]. *)
Definition conv_ratio (e : Env) (s : State) (maxS : double) (i grid : Z)
  : double :=
  let ratio := d1000 in
  if rflag e =? 0 then
    let div := if deq maxS d0 then d1 else maxS in
    let rate := (nuGrid s grid i / div)%Qc in
    let prevRate := (nuPrev s i grid / div)%Qc in
    fabs (rate - prevRate)%Qc
  else ratio.

(** Loop "check convergence criteria" for species [i]; the result is
    [p_conv]. *)
Definition check_conv (e : Env) (s : State) (maxS : double) (i : Z) : bool :=
  for_loop 0 (nXYZ s)
    (fun grid p_conv =>
       if negb (ghost s grid)
       then p_conv && dlt (conv_ratio e s maxS i grid) (tol e)
       else p_conv)
    true.

(** The loop "copy current concentrations" for species [i]. *)
Definition snapshot (i : Z) (s : State) : State :=
  for_loop 0 (nXYZ s)
    (fun grid s => set_nuPrev (upd2 (nuPrev s) i grid (nuGrid s grid i)) s) s.

(** The loop "solve diffusion and reaction" for species [i], started with
    [p_maxS = 0]. *)
Definition cells (e : Env) (i : Z) (s : State) : State * double :=
  let p_maxS := d0 in
  for_loop 0 (nXYZ s) (cell_update e i) (s, p_maxS).

(** Body of the loop over the species inside the parallel region. *)
Definition species_step (e : Env) (nuConv : Z -> bool) (i : Z)
    (sc : State * (Z -> bool)) : State * (Z -> bool) :=
  let (s, conv) := sc in
  if (nuType e i =? 0) && negb (nuConv i) then
    let maxS := d0 in
    let s1 := snapshot i s in
    let (s2, p_maxS) := cells e i s1 in
    let maxS := MAX maxS p_maxS in
    let p_conv := check_conv e s2 maxS i in
    (s2, upd conv i (conv i && p_conv))
  else (s, conv).

(** [if (iter == 1 && kinetics->bl > 0) update_grids();] *)
Definition grids_stage (e : Env) (iter : Z) (s : State) : State :=
  if (iter =? 1) && dgt (bl e) d0 then update_grids e s else s.

(** The part of [diffusion] run by one process, up to the reduction: the
    result is the new state and the local array [conv].  [recvbuff] is the
    receive buffer as [MPI_Waitall] leaves it. *)
Definition diffusion (e : Env) (recvbuff : Z -> double) (nuConv : Z -> bool)
    (iter : Z) (diffT_ : double) (s : State) : State * (Z -> bool) :=
  let s := grids_stage e iter s in
  let s := set_diffT diffT_ s in
  let nrecvcells := recvend e (nprocs e - 1) in
  let nsendcells := sendend e (nprocs e - 1) in
  let conv := for_loop 0 (nnus e + 1) (fun i c => upd c i true) (fun _ => false) in
  let s := pack_cells e nsendcells s in
  let s := unpack_cells e recvbuff nrecvcells s in
  let s := for_loop 1 (nnus e + 1) (set_boundary e iter) s in
  for_loop 1 (nnus e + 1) (species_step e nuConv) (s, conv).

(** [MPI_Allreduce(&iconv, &nuConv[i], 1, MPI_INT, MPI_BAND, world)]: the
    bitwise and of the values [iconv] of all processes. *)
Definition allreduce_band (iconvs : list Z) : Z := fold_left Z.land iconvs (-1).

(** The last loop of [diffusion]: [convs] lists the arrays [conv] of all
    processes. *)
Definition reduce_flags (e : Env) (convs : list (Z -> bool)) (nuConv : Z -> bool)
  : Z -> bool :=
  for_loop 1 (nnus e + 1)
    (fun i nuConv =>
       upd nuConv i
         (negb (allreduce_band (map (fun conv => Z.b2z (conv i)) convs) =? 0)))
    nuConv.

(** One process at a call of [diffusion]: its objects, the data it
    receives and its copy of the flags. *)
Record Proc := {
  p_env : Env;
  p_recv : Z -> double;
  p_state : State;
  p_nuConv : Z -> bool
}.

(** A call of [diffusion] made by all processes. *)
Definition diffusion_all (iter : Z) (diffT_ : double) (ps : list Proc)
  : list Proc :=
  let locals :=
    map (fun p => diffusion (p_env p) (p_recv p) (p_nuConv p) iter diffT_
                    (p_state p)) ps in
  let convs := map snd locals in
  map (fun pl : Proc * (State * (Z -> bool)) =>
         let (p, l) := pl in
         {| p_env := p_env p; p_recv := p_recv p; p_state := fst l;
            p_nuConv := reduce_flags (p_env p) convs (p_nuConv p) |})
      (combine ps locals).

(** ** Vocabulary of the boundary conditions

    The six faces of the domain, in the order in which [compute_bc] tests
    them. *)
Inductive Face := ZLow | ZHigh | YLow | YHigh | XLow | XHigh.

(** The neighbour of [grid] across face [f], towards the inside. *)
Definition adjacent (e : Env) (grid : Z) (f : Face) : Z :=
  match f with
  | ZLow => grid + nX e * nY e
  | ZHigh => grid - nX e * nY e
  | YLow => grid + nX e
  | YHigh => grid - nX e
  | XLow => grid + 1
  | XHigh => grid - 1
  end.

(** The test [compute_bc] makes for face [f]: the cell centre lies beyond
    the domain on that side and the neighbour across the face is a true
    cell. *)
Definition face_test (e : Env) (s : State) (grid : Z) (f : Face) : bool :=
  match f with
  | ZLow => dlt (xGrid e grid 2) (zlo e)
  | ZHigh => dgt (xGrid e grid 2) (zhi e)
  | YLow => dlt (xGrid e grid 1) (ylo e)
  | YHigh => dgt (xGrid e grid 1) (yhi e)
  | XLow => dlt (xGrid e grid 0) (xlo e)
  | XHigh => dgt (xGrid e grid 0) (xhi e)
  end && negb (ghost s (adjacent e grid f)).

(** The face [compute_bc] treats the cell as lying on: the first one, in
    the order of the [if ... else if] chain, whose test succeeds. *)
Definition face_of (e : Env) (s : State) (grid : Z) : option Face :=
  find (face_test e s grid) [ZLow; ZHigh; YLow; YHigh; XLow; XHigh].

(** The boundary kind configured for the axis of face [f]:
    0 = pp, 1 = dd, 2 = nd, 3 = nn, 4 = dn, and 5 = db on z. *)
Definition bcflag (e : Env) (f : Face) : Z :=
  match f with
  | ZLow | ZHigh => zbcflag e
  | YLow | YHigh => ybcflag e
  | XLow | XHigh => xbcflag e
  end.

(** Kinds dd and dn prescribe a Dirichlet condition on the low face of
    their axis, kinds dd and nd on the high face. *)
Definition dirichlet (e : Env) (f : Face) : bool :=
  match f with
  | ZLow | YLow | XLow => (bcflag e f =? 1) || (bcflag e f =? 4)
  | ZHigh | YHigh | XHigh => (bcflag e f =? 1) || (bcflag e f =? 2)
  end.

(** The boundary value [compute_bc] refers to on face [f]: one of the
    members [xbcm] ... [zbcm], and the bulk concentration on the high-z
    face. *)
Definition face_value (s : State) (bulk : double) (f : Face) : double :=
  match f with
  | ZLow => zbcm s
  | ZHigh => bulk
  | YLow => ybcm s
  | YHigh => ybcp s
  | XLow => xbcm s
  | XHigh => xbcp s
  end.

(** The last statement of [compute_bc]. *)
Definition clamp (v : double) : double := if dle v d0 then d1e_20 else v.

(** * [FixKinetics::integration]

    The collaborators of the loop ([ph->solve_ph], [init_activity],
    [thermo->thermo], [monod->growth] and [diffusion->diffusion]) act on
    a state [World] that stays abstract.  Each of them may end the run
    through [error->all]; such a call is the left injection. *)

Module Kinetics.

Definition fallible (A : Type) : Type := (string + A)%type.

(** What [printf] writes. *)
Inductive Output :=
| PrintName (name : string)            (* printf("%s  ", bio->nuName[i]) *)
| PrintIterations (iteration : Z).     (* printf("number of iteration: %i \n", iteration) *)

Section Integration.

Variable World : Type.

Record Fix := {
  nnus : Z;
  nuName : Z -> string;
  diffT : double;
  dt : double;                          (* update->dt *)
  nevery : Z;
  ph : option (World -> fallible World);
  thermo : option (World -> fallible World);
  monod : option (double -> World -> fallible World);
  diffusion :
    option (World -> (Z -> bool) -> Z -> double
            -> fallible (World * (Z -> bool)));
  init_activity : World -> fallible World
}.

(** The variables of [integration]. *)
Record Run := {
  iteration : Z;
  isConv : bool;
  world : World;
  nuConv : Z -> bool;
  out : list Output
}.

(** The loop marked "initialization". *)
Definition init_flags (k : Fix) (nuConv0 : Z -> bool) : Z -> bool :=
  for_loop 1 (nnus k + 1)
    (fun i nuConv =>
       if String.eqb (nuName k i) "h2o" then upd nuConv i true
       else if String.eqb (nuName k i) "h" then upd nuConv i true
       else upd nuConv i false)
    nuConv0.

(** [for (i = 1; i <= nnus; i++) if (!nuConv[i]) { isConv = false; break; }]
    started with [isConv = true]. *)
Definition all_converged (k : Fix) (nuConv : Z -> bool) : bool :=
  for_loop 1 (nnus k + 1)
    (fun i isConv => if negb (nuConv i) then false else isConv)
    true.

(** The loop run once [iteration > 10000]. *)
Definition force_converged (k : Fix) (nuConv : Z -> bool) (out : list Output)
  : (Z -> bool) * list Output :=
  for_loop 1 (nnus k + 1)
    (fun i (acc : (Z -> bool) * list Output) =>
       let (nuConv, out) := acc in
       if negb (nuConv i)
       then (upd nuConv i true, out ++ [PrintName (nuName k i)])
       else (nuConv, out))
    (nuConv, out).

Definition call (f : option (World -> fallible World)) (w : World)
  : fallible World :=
  match f with
  | Some g => g w
  | None => inr w
  end.

(** One pass through the body of [while (!isConv)].  The boolean of the
    result tells whether the body was left through [break]. *)
Definition pass (k : Fix) (r : Run) : fallible (Run * bool) :=
  let iteration := iteration r + 1 in
  let isConv := true in
  match (match ph k with
         | Some solve_ph => solve_ph (world r)
         | None => init_activity k (world r)
         end) with
  | inl err => inl err
  | inr w1 =>
    match call (thermo k) w1 with
    | inl err => inl err
    | inr w2 =>
      match call (option_map (fun growth => growth (diffT k)) (monod k)) w2 with
      | inl err => inl err
      | inr w3 =>
        match diffusion k with
        | None =>
          inr ({| iteration := iteration; isConv := isConv; world := w3;
                  nuConv := nuConv r; out := out r |}, true)
        | Some diffusion_ =>
          match diffusion_ w3 (nuConv r) iteration (diffT k) with
          | inl err => inl err
          | inr (w4, nuConv1) =>
            let isConv := all_converged k nuConv1 in
            if iteration >? 10000 then
              let isConv := true in
              let (nuConv2, out2) := force_converged k nuConv1 (out r) in
              inr ({| iteration := iteration; isConv := isConv; world := w4;
                      nuConv := nuConv2; out := out2 |}, false)
            else
              inr ({| iteration := iteration; isConv := isConv; world := w4;
                      nuConv := nuConv1; out := out r |}, false)
          end
        end
      end
    end
  end.

(** [while (!isConv) { ... }], with [fuel] bounding the number of passes;
    [None] means that the bound was reached. *)
Fixpoint while_loop (fuel : nat) (k : Fix) (r : Run) : option (fallible Run) :=
  if isConv r then Some (inr r)
  else
    match fuel with
    | O => None
    | S fuel' =>
      match pass k r with
      | inl err => Some (inl err)
      | inr (r', true) => Some (inr r')
      | inr (r', false) => while_loop fuel' k r'
      end
    end.

Definition integration (fuel : nat) (k : Fix) (w : World) (nuConv0 : Z -> bool)
  : option (fallible Run) :=
  let r := {| iteration := 0; isConv := false; world := w;
              nuConv := init_flags k nuConv0; out := [] |} in
  match while_loop fuel k r with
  | None => None
  | Some (inl err) => Some (inl err)
  | Some (inr r1) =>
    let out1 := out r1 ++ [PrintIterations (iteration r1)] in
    match call (option_map (fun growth => growth (dt k * d_of_Z (nevery k))%Qc)
                           (monod k)) (world r1) with
    | inl err => Some (inl err)
    | inr w1 =>
      Some (inr {| iteration := iteration r1; isConv := isConv r1; world := w1;
                   nuConv := nuConv r1; out := out1 |})
    end
  end.

End Integration.

Arguments nnus {World}.
Arguments nuName {World}.
Arguments diffT {World}.
Arguments dt {World}.
Arguments nevery {World}.
Arguments ph {World}.
Arguments thermo {World}.
Arguments monod {World}.
Arguments diffusion {World}.
Arguments init_activity {World}.
Arguments iteration {World}.
Arguments isConv {World}.
Arguments world {World}.
Arguments nuConv {World}.
Arguments out {World}.
Arguments init_flags {World}.
Arguments all_converged {World}.
Arguments force_converged {World}.
Arguments call {World}.
Arguments pass {World}.
Arguments while_loop {World}.
Arguments integration {World}.

End Kinetics.

(** * [FixMonodCyanoKokkos::update_atoms] *)

Module MonodCyano.

Section UpdateAtoms.

(** [MY_PI] of [math_const.h], [pow] of [cmath] and [grid->cell] are not
    part of the sources at hand. *)
Variable MY_PI : double.
Variable pow : double -> double -> double.
Variable cell : (Z -> double) -> Z.

(** The per-atom arrays of [atom]. *)
Record Atom := {
  nlocal : Z;
  x : Z -> Z -> double;
  mask : Z -> Z;
  radius : Z -> double;
  rmass : Z -> double;
  outer_radius : Z -> double;
  outer_mass : Z -> double
}.

Record Fix := {
  groupbit : Z;
  igroup : Z;
  dt : double;
  growth : Z -> Z -> Z -> double       (* grid->growth *)
}.

Definition three_quarters_pi : double := (d_of_Z 3 / (d_of_Z 4 * MY_PI))%Qc.
Definition four_thirds_pi : double := (d_of_Z 4 * MY_PI / d_of_Z 3)%Qc.
Definition third : double := (d1 / d_of_Z 3)%Qc.

(** The local [density] of the loop body. *)
Definition density (a : Atom) (i : Z) : double :=
  (rmass a i / (four_thirds_pi * radius a i * radius a i * radius a i))%Qc.

Definition update_atom (f : Fix) (i : Z) (a : Atom) : Atom :=
  if negb (Z.land (mask a i) (groupbit f) =? 0) then
    let cell_ := cell (x a i) in
    let density_ := density a i in
    let rmass1 :=
      upd (rmass a) i (rmass a i * (d1 + growth f (igroup f) cell_ 0 * dt f))%Qc in
    let radius1 :=
      upd (radius a) i (pow (three_quarters_pi * (rmass1 i / density_))%Qc third) in
    {| nlocal := nlocal a; x := x a; mask := mask a;
       radius := radius1; rmass := rmass1;
       outer_radius := upd (outer_radius a) i (radius1 i);
       outer_mass := upd (outer_mass a) i d0 |}
  else a.

Definition update_atoms (f : Fix) (a : Atom) : Atom :=
  for_loop 0 (nlocal a) (update_atom f) a.

End UpdateAtoms.

End MonodCyano.

(** * The constructor's reading of the boundary kinds

    [arg[8]], [arg[9]] and [arg[10]] of the fix command. *)

Definition parse_xybc (arg : string) (msg : string) : string + Z :=
  if String.eqb arg "pp" then inr 0
  else if String.eqb arg "dd" then inr 1
  else if String.eqb arg "nd" then inr 2
  else if String.eqb arg "nn" then inr 3
  else if String.eqb arg "dn" then inr 4
  else inl msg.

Definition parse_xbc (arg : string) : string + Z :=
  parse_xybc arg "Illegal x-axis boundary condition command".

Definition parse_ybc (arg : string) : string + Z :=
  parse_xybc arg "Illegal y-axis boundary condition command".

Definition parse_zbc (arg : string) : string + Z :=
  if String.eqb arg "pp" then inr 0
  else if String.eqb arg "dd" then inr 1
  else if String.eqb arg "nd" then inr 2
  else if String.eqb arg "nn" then inr 3
  else if String.eqb arg "dn" then inr 4
  else if String.eqb arg "db" then inr 5
  else inl "Illegal z-axis boundary condition command"%string.

(** * Further vocabulary of the boundary conditions *)

(** The cell a periodic face copies from. *)
Definition opposite (e : Env) (grid : Z) (f : Face) : Z :=
  match f with
  | ZLow => grid + nX e * nY e * nz e
  | ZHigh => grid - nX e * nY e * nz e
  | YLow => grid + nX e * ny e
  | YHigh => grid - nX e * ny e
  | XLow => grid + nx e
  | XHigh => grid - nx e
  end.

(** Kinds nd and nn prescribe a zero-flux condition on the low face of
    their axis, kinds nn and dn on the high face. *)
Definition neumann (e : Env) (f : Face) : bool :=
  match f with
  | ZLow | YLow | XLow => (bcflag e f =? 2) || (bcflag e f =? 3)
  | ZHigh | YHigh | XHigh => (bcflag e f =? 3) || (bcflag e f =? 4)
  end.

(** The value [compute_bc] gives, before the final test, to a cell it
    treats as lying on face [f]. *)
Definition bc_value (e : Env) (s : State) (nuCell : double)
    (nuPrev_i : Z -> double) (grid : Z) (bulk : double) (f : Face) : double :=
  if bcflag e f =? 0 then
    if nprocs e <? 2 then nuPrev_i (opposite e grid f) else nuCell
  else if dirichlet e f then
    (d2 * face_value s bulk f - nuPrev_i (adjacent e grid f))%Qc
  else if neumann e f then nuPrev_i (adjacent e grid f)
  else nuCell.

(** The cell centre lies below or above the domain. *)
Definition z_face (e : Env) (grid : Z) : bool :=
  dlt (xGrid e grid 2) (zlo e) || dgt (xGrid e grid 2) (zhi e).

(** None of the tests of [compute_bc] for the y and x faces succeeds at
    the cell: no neighbour in its own z-layer is a true cell lying next to
    it across a face of the domain. *)
Definition in_plane_closed (e : Env) (s : State) (grid : Z) : bool :=
  forallb (fun f => negb (face_test e s grid f)) [YLow; YHigh; XLow; XHigh].

(** * Vocabulary of the convergence test *)

(** The running maximum kept in [p_maxS], over the cells [lo .. hi-1] of
    the column [c] of concentrations, started at [m0]. *)
Definition max_conc (c : Z -> double) (lo hi : Z) (m0 : double) : double :=
  for_loop lo hi (fun grid m => if dlt m (c grid) then c grid else m) m0.

(** The test [bio->nuType[i] == 0 && !nuConv[i]] of [diffusion]: species
    [i] is a liquid and has not converged. *)
Definition processed (e : Env) (nuConv : Z -> bool) (i : Z) : bool :=
  (nuType e i =? 0) && negb (nuConv i).

(** The maximum kept in [maxS] for species [i]: over all the cells of the
    local array, true and ghost, started at 0. *)
Definition max_all (s : State) (i : Z) : double :=
  max_conc (fun grid => nuGrid s grid i) 0 (nXYZ s) d0.

(** The maximum in the words of the specification: over the true cells
    only. *)
Definition max_true (s : State) (i : Z) : double :=
  for_loop 0 (nXYZ s)
    (fun grid m =>
       if negb (ghost s grid) && dlt m (nuGrid s grid i)
       then nuGrid s grid i else m)
    d0.

(** The convergence ratio in the words of the specification:
    [|c_new/maxC - c_prev/maxC|], with 1 in place of a zero [maxC]. *)
Definition ratio_spec (c_new c_prev maxC : double) : double :=
  let div := if deq maxC d0 then d1 else maxC in
  fabs (c_new / div - c_prev / div)%Qc.


(** * Invariants used in the proofs *)

(** The members that the loops over the cells leave alone. *)
Definition static_eq (a b : State) : Prop :=
  nXYZ a = nXYZ b /\ bzhi a = bzhi b /\ ghost a = ghost b
  /\ diffT a = diffT b /\ nuBS a = nuBS b
  /\ xbcm a = xbcm b /\ xbcp a = xbcp b /\ ybcm a = ybcm b
  /\ ybcp a = ybcp b /\ zbcm a = zbcm b /\ zbcp a = zbcp b.

(** The state on which [diffusion] starts its loop over the species:
    after [update_grids], the exchange of the halo and the first loop. *)
Definition prepared (e : Env) (recvbuff : Z -> double) (iter : Z)
    (diffT_ : double) (s : State) : State :=
  for_loop 1 (nnus e + 1) (set_boundary e iter)
    (unpack_cells e recvbuff (recvend e (nprocs e - 1))
       (pack_cells e (sendend e (nprocs e - 1))
          (set_diffT diffT_ (grids_stage e iter s)))).

(** The local flag computed with [maxC] as the maximum: every true cell
    has a ratio below [tol]. *)
Definition local_flag (e : Env) (s : State) (i : Z) (maxC : double) : bool :=
  forallb
    (fun grid =>
       ghost s grid
       || dlt (ratio_spec (nuGrid s grid i) (nuPrev s i grid) maxC) (tol e))
    (range 0 (nXYZ s)).

(** * Vocabulary of the bulk mass balance *)

(** The test [iter == 1 && strcmp(bio->nuName[i], "o2") != 0 && q >= 0
    && af >= 0] of [diffusion]. *)
Definition bulk_eligible (e : Env) (iter i : Z) : bool :=
  (iter =? 1) && negb (String.eqb (nuName e i) "o2")
  && dge (q e) d0 && dge (af e) d0.

(** The external feed concentration of species [i]: its boundary value on
    the high-z face, as [diffusion] stores it in [zbcp]. *)
Definition feed (e : Env) (i : Z) : double :=
  if unit_flag e =? 0 then (iniS e i 6 * d1000)%Qc else iniS e i 6.

(** The sum [sumR] of [compute_bulk]: the entries [0 .. nx*ny*nz - 1] of
    the row of species [i] in the array [nuR] of the calling process.  The
    rates of the other processes do not enter it: [compute_bulk] makes no
    reduction. *)
Definition local_sumR (e : Env) (s : State) (i : Z) : double :=
  for_loop 0 (nx e * ny e * k_nz e) (fun k sumR => (sumR + nuR s i k)%Qc) d0.

(** The value [compute_bulk] gives [nuBS[i]] on one process:
    [bulk + ((q/V)*(feed - bulk) + (af/(V*A))*sumR*cellVolume) * macro],
    with the sum [local_sumR] of that process, [A = yhi * xhi] (the
    cross-section of a box whose low corner is the origin),
    [cellVolume = stepx * stepy * stepz] and [macro = dt * nevery]. *)
Definition local_bulk_step (e : Env) (s : State) (i : Z) : double :=
  (nuBS s i
   + ((q e / rvol e) * (feed e i - nuBS s i)
      + (af e / (rvol e * (yhi e * xhi e))) * local_sumR e s i
        * (stepx e * stepy e * stepz e))
     * (dt e * d_of_Z (nevery e)))%Qc.

(** Two processes hold the same parameters of the reactor for species
    [i]: every number of the bulk step other than the reaction rates. *)
Definition same_reactor (e1 e2 : Env) (i : Z) : Prop :=
  q e1 = q e2 /\ rvol e1 = rvol e2 /\ af e1 = af e2
  /\ xhi e1 = xhi e2 /\ yhi e1 = yhi e2
  /\ stepx e1 = stepx e2 /\ stepy e1 = stepy e2 /\ stepz e1 = stepz e2
  /\ dt e1 = dt e2 /\ nevery e1 = nevery e2 /\ feed e1 i = feed e2 i.

(** * Sequences of calls of [diffusion] *)

(** What a call on one process is made with.  Between two calls the
    collaborators of the loop rewrite the arrays [nuR] and [nuS] of
    [kinetics]; [c_nuR] and [c_nuS] are their contents at the call. *)
Record Call := {
  c_recv : Z -> double;
  c_nuConv : Z -> bool;
  c_iter : Z;
  c_diffT : double;
  c_nuR : Z -> Z -> double;
  c_nuS : Z -> Z -> double
}.

Definition call_state (c : Call) (s : State) : State :=
  set_nuS (c_nuS c) (set_nuR (c_nuR c) s).

Definition call_diffusion (e : Env) (c : Call) (s : State) : State :=
  fst (diffusion e (c_recv c) (c_nuConv c) (c_iter c) (c_diffT c)
                 (call_state c s)).

Fixpoint run (e : Env) (calls : list Call) (s : State) : State :=
  match calls with
  | [] => s
  | c :: calls' => run e calls' (call_diffusion e c s)
  end.

(** At each call of the sequence, once [update_grids] has been run if it
    is due, the cell is flagged as a ghost cell and none of its in-plane
    tests succeeds. *)
Fixpoint ghost_along (e : Env) (grid : Z) (calls : list Call) (s : State)
  : Prop :=
  match calls with
  | [] => True
  | c :: calls' =>
    (ghost (grids_stage e (c_iter c) (call_state c s)) grid = true
     /\ in_plane_closed e (grids_stage e (c_iter c) (call_state c s)) grid
        = true)
    /\ ghost_along e grid calls' (call_diffusion e c s)
  end.

(** The cell is not one of those the halo exchange writes. *)
Definition not_received (e : Env) (grid : Z) : Prop :=
  forall c, 0 <= c < recvend e (nprocs e - 1) -> recvcells e c <> grid.

(** A call made by all processes, after the collaborators have acted on
    each of them through [a_between]. *)
Record CallAll := {
  a_iter : Z;
  a_diffT : double;
  a_between : Proc -> Proc
}.

Definition run_all (calls : list CallAll) (ps : list Proc) : list Proc :=
  fold_left
    (fun ps c => diffusion_all (a_iter c) (a_diffT c) (map (a_between c) ps))
    calls ps.

(** Between two calls the collaborators change neither the flags nor the
    number of species. *)
Definition keeps_flags (c : CallAll) : Prop :=
  forall p, p_nuConv (a_between c p) = p_nuConv p
            /\ nnus (p_env (a_between c p)) = nnus (p_env p).

(** * Vocabulary of the convergence loop *)

(** No collaborator of the loop ends the run. *)
Definition never_fail {World : Type} (k : Kinetics.Fix World) : Prop :=
  (forall w, exists w',
        match Kinetics.ph k with
        | Some solve_ph => solve_ph w
        | None => Kinetics.init_activity k w
        end = inr w')
  /\ (forall w, exists w', Kinetics.call (Kinetics.thermo k) w = inr w')
  /\ (forall t w, exists w',
           Kinetics.call (option_map (fun growth => growth t) (Kinetics.monod k)) w
           = inr w')
  /\ (forall d, Kinetics.diffusion k = Some d ->
                forall w c it t, exists r, d w c it t = inr r).

(** The species in [1 .. nnus] whose flag is false in [nuConv]. *)
Definition unconverged {World : Type} (k : Kinetics.Fix World)
    (nuConv : Z -> bool) : list Z :=
  filter (fun i => negb (nuConv i)) (range 1 (Kinetics.nnus k + 1)).

(** How [integration] ends when the last call of [diffusion] returned the
    flags [nuConv_last]: after at most 10000 passes these flags are all
    true and only the number of passes is printed; after pass 10001 the
    flags that are still false are set, and the names of their species
    are printed before the number of passes. *)
Definition loop_exit {World : Type} (k : Kinetics.Fix World)
    (nuConv_last : Z -> bool) (iteration : Z) (nuConv : Z -> bool)
    (out : list Kinetics.Output) : Prop :=
  (iteration <= 10000
   /\ (forall i, 1 <= i <= Kinetics.nnus k -> nuConv_last i = true)
   /\ (forall i, nuConv i = nuConv_last i)
   /\ out = [Kinetics.PrintIterations iteration])
  \/ (iteration = 10001
      /\ (forall i, nuConv i
                    = if (1 <=? i) && (i <=? Kinetics.nnus k) then true
                      else nuConv_last i)
      /\ out
         = map (fun i => Kinetics.PrintName (Kinetics.nuName k i))
               (unconverged k nuConv_last)
           ++ [Kinetics.PrintIterations 10001]).

(** The variables of [integration] after one pass in which [diffusion]
    returned the world [w] and the flags [c]. *)
Definition after_pass {World : Type} (k : Kinetics.Fix World)
    (r : Kinetics.Run World) (w : World) (c : Z -> bool) : Kinetics.Run World :=
  if Kinetics.iteration r + 1 >? 10000 then
    {| Kinetics.iteration := Kinetics.iteration r + 1;
       Kinetics.isConv := true; Kinetics.world := w;
       Kinetics.nuConv :=
         fst (Kinetics.force_converged k c (Kinetics.out r));
       Kinetics.out := snd (Kinetics.force_converged k c (Kinetics.out r)) |}
  else
    {| Kinetics.iteration := Kinetics.iteration r + 1;
       Kinetics.isConv := Kinetics.all_converged k c; Kinetics.world := w;
       Kinetics.nuConv := c; Kinetics.out := Kinetics.out r |}.

(** The variables of [integration] after [n] passes through the body of
    the loop, made one after the other whatever the test [!isConv] would
    say; the left injection is a pass that ended the run. *)
Fixpoint passes {World : Type} (n : nat) (k : Kinetics.Fix World)
    (r : Kinetics.Run World) : Kinetics.fallible (Kinetics.Run World) :=
  match n with
  | O => inr r
  | S n' =>
    match Kinetics.pass k r with
    | inl err => inl err
    | inr (r', _) => passes n' k r'
    end
  end.

(** The fix [k] with another diffusion stepper. *)
Definition with_diffusion {World : Type} (k : Kinetics.Fix World)
    (d : World -> (Z -> bool) -> Z -> double
         -> Kinetics.fallible (World * (Z -> bool))) : Kinetics.Fix World :=
  {| Kinetics.nnus := Kinetics.nnus k;
     Kinetics.nuName := Kinetics.nuName k;
     Kinetics.diffT := Kinetics.diffT k;
     Kinetics.dt := Kinetics.dt k;
     Kinetics.nevery := Kinetics.nevery k;
     Kinetics.ph := Kinetics.ph k;
     Kinetics.thermo := Kinetics.thermo k;
     Kinetics.monod := Kinetics.monod k;
     Kinetics.diffusion := Some d;
     Kinetics.init_activity := Kinetics.init_activity k |}.

(** The boundary value of species [i] on the face numbered [face] in
    [iniS] (1 .. 6), in the unit of the grid. *)
Definition boundary_value (e : Env) (i face : Z) : double :=
  if unit_flag e =? 0 then (iniS e i face * d1000)%Qc else iniS e i face.

(** * Concrete inputs

    A single process owning the whole domain [0,1]^3 with one cell per
    axis: the local array has 3 x 3 x 3 cells, cell 13 is the only true
    cell and the 26 others are ghost cells. *)

Definition ex_xGrid (grid axis : Z) : double :=
  let k :=
    if axis =? 0 then grid mod 3
    else if axis =? 1 then (grid / 3) mod 3
    else grid / 9 in
  (d_of_Z k - d1 / d2)%Qc.

Definition ex_ghost (grid : Z) : bool := negb (grid =? 13).

Definition ex_env (nnus_ : Z) (nuName_ : Z -> string) (nuType_ : Z -> Z)
    (iniS_ : Z -> Z -> double) (xf yf zf : Z) (diffD_ : Z -> double)
    (shearRate_ tol_ q_ af_ : double) : Env :=
  {| nprocs := 1; nuName := nuName_; nuType := nuType_; dt := d1;
     bl := d0; bnz := 1; k_nz := 1;
     sublo := fun _ => d0; subhi := fun _ => d1; subn := fun _ => 1;
     recvcells := fun _ => 0; recvend := fun _ => 0;
     sendcells := fun _ => 0; sendend := fun _ => 0;
     nevery := 1; nnus := nnus_; iniS := iniS_; diffD := diffD_;
     nx := 1; ny := 1; nz := 1; nX := 3; nY := 3;
     stepx := d1; stepy := d1; stepz := d1;
     xlo := d0; xhi := d1; ylo := d0; yhi := d1; zlo := d0; zhi := d1;
     xbcflag := xf; ybcflag := yf; zbcflag := zf;
     unit_flag := 1; rflag := 0;
     shearRate := shearRate_; tol := tol_; q := q_; rvol := d1; af := af_;
     xGrid := ex_xGrid |}.

Definition ex_state (nuGrid_ : Z -> Z -> double) (nuBS_ : Z -> double)
    (nuR_ : Z -> Z -> double) : State :=
  {| nXYZ := 27; bzhi := d1; ghost := ex_ghost; diffT := d0;
     xbcm := d0; xbcp := d0; ybcm := d0; ybcp := d0; zbcm := d0; zbcp := d0;
     nuGrid := nuGrid_; nuPrev := fun _ _ => d0; nuBS := nuBS_;
     nuS := fun _ _ => d0; nuR := nuR_; sendbuff := fun _ => d0 |}.

(** One liquid species, "sub", with every boundary value and the initial
    concentration equal to [c], all axes of kind [f]. *)
Definition one_species (f : Z) (c D rate : double) : Env * State :=
  (ex_env 1 (fun _ => "sub"%string) (fun _ => 0) (fun _ _ => c) f f f
          (fun _ => D) d0 (Q2Qc (1 # 100)) d0 d0,
   ex_state (fun _ _ => c) (fun _ => c) (fun _ _ => rate)).

(** One liquid species with concentration 1 in the true cell and 0
    elsewhere, every boundary value 0, all axes of kind [f]. *)
Definition sink_env (f : Z) : Env :=
  ex_env 1 (fun _ => "sub"%string) (fun _ => 0)
         (fun _ k => if k =? 0 then d1 else d0) f f f
         (fun _ => d1) d0 (Q2Qc (1 # 100)) d0 d0.

Definition sink_state : State :=
  ex_state (fun grid _ => if grid =? 13 then d1 else d0) (fun _ => d0)
           (fun _ _ => d0).

(** One liquid species at concentration 1 in the true cell, with boundary
    value 1000 on every face (kind dd on the three axes), diffusion
    coefficient 1/1000 and tolerance 1/100. *)
Definition rich_env : Env :=
  ex_env 1 (fun _ => "sub"%string) (fun _ => 0)
         (fun _ k => if k =? 0 then d1 else d1000) 1 1 1
         (fun _ => Q2Qc (1 # 1000)) d0 (Q2Qc (1 # 100)) d0 d0.

Definition rich_state : State :=
  ex_state (fun grid _ => if grid =? 13 then d1 else d1000) (fun _ => d1000)
           (fun _ _ => d0).

(** A process of a run on one process. *)
Definition single (e : Env) (s : State) (nuConv_ : Z -> bool) : Proc :=
  {| p_env := e; p_recv := fun _ => d0; p_state := s; p_nuConv := nuConv_ |}.

(** Two liquid species, "sub" and "o2", in a reactor with flow rate 1/2
    and surface-area scaling 1; feed concentration 3, bulk concentration
    1, reaction rate -1/4 in the cell of the domain. *)
Definition reactor_env : Env :=
  ex_env 2 (fun i => if i =? 2 then "o2"%string else "sub"%string)
         (fun _ => 0) (fun _ k => if k =? 6 then d_of_Z 3 else d1) 3 3 1
         (fun _ => d1) d0 (Q2Qc (1 # 100)) (Q2Qc (1 # 2)) d1.

Definition reactor_state : State :=
  ex_state (fun _ _ => d1) (fun _ => d1)
           (fun _ ind => if ind =? 0 then Q2Qc (-1 # 4) else d0).

(** A domain of 2 x 1 x 1 cells, the box [0,2] x [0,1] x [0,1], cut along
    x between two processes: process [rank] owns the cell
    [rank <= x <= rank + 1], sends its true cell 13 to the other process
    and receives that process's cell in its halo cell on the side of the
    cut.  One liquid species, "sub", with feed concentration 3; flow rate
    1/2, reactor volume 1 and surface-area scaling 1. *)
Definition half_env (rank : Z) : Env :=
  {| nprocs := 2; nuName := fun _ => "sub"%string; nuType := fun _ => 0;
     dt := d1; bl := d0; bnz := 1; k_nz := 1;
     sublo := fun axis => if axis =? 0 then d_of_Z rank else d0;
     subhi := fun axis => if axis =? 0 then d_of_Z (rank + 1) else d1;
     subn := fun _ => 1;
     recvcells := fun _ => if rank =? 0 then 14 else 12; recvend := fun _ => 1;
     sendcells := fun _ => 13; sendend := fun _ => 1;
     nevery := 1; nnus := 1;
     iniS := fun _ k => if k =? 6 then d_of_Z 3 else d1;
     diffD := fun _ => d1;
     nx := 2; ny := 1; nz := 1; nX := 3; nY := 3;
     stepx := d1; stepy := d1; stepz := d1;
     xlo := d0; xhi := d2; ylo := d0; yhi := d1; zlo := d0; zhi := d1;
     xbcflag := 3; ybcflag := 3; zbcflag := 1;
     unit_flag := 1; rflag := 0;
     shearRate := d0; tol := Q2Qc (1 # 100);
     q := Q2Qc (1 # 2); rvol := d1; af := d1;
     xGrid := fun grid axis =>
                if axis =? 0 then (ex_xGrid grid axis + d_of_Z rank)%Qc
                else ex_xGrid grid axis |}.

(** The process [rank] of that run, with bulk concentration 1 and the
    reaction rate [rate] in its cell; its array [nuR] has the two entries
    of the domain, the second one 0. *)
Definition half_proc (rank : Z) (rate : double) : Proc :=
  {| p_env := half_env rank;
     p_recv := fun _ => d1;
     p_state := ex_state (fun _ _ => d1) (fun _ => d1)
                         (fun _ ind => if ind =? 0 then rate else d0);
     p_nuConv := fun _ => false |}.

(** One liquid species on a grid whose z axis is of kind db, the x and y
    axes of kind nn; the ghost cells start at 0 below the domain and at 2
    above it. *)
Definition db_env : Env :=
  ex_env 1 (fun _ => "sub"%string) (fun _ => 0)
         (fun _ k => if k =? 5 then d0 else if k =? 6 then d2 else d1) 3 3 5
         (fun _ => d1) d0 (Q2Qc (1 # 100)) d0 d0.

Definition db_state : State :=
  ex_state (fun grid _ => if grid <? 9 then d0 else if 17 <? grid then d2 else d1)
           (fun _ => d2) (fun _ _ => d0).

Definition db_call (iter : Z) : Call :=
  {| c_recv := fun _ => d0; c_nuConv := fun _ => false; c_iter := iter;
     c_diffT := Q2Qc (1 # 10); c_nuR := fun _ _ => d1; c_nuS := fun _ _ => d1 |}.

(** A loop over two species, "x" and "h2o", whose diffusion stepper
    counts its calls in the world and returns the flags it is given. *)
Definition stuck_kinetics : Kinetics.Fix Z :=
  {| Kinetics.nnus := 2;
     Kinetics.nuName := fun i => if i =? 1 then "x"%string else "h2o"%string;
     Kinetics.diffT := Q2Qc (1 # 10);
     Kinetics.dt := d1;
     Kinetics.nevery := 1;
     Kinetics.ph := None;
     Kinetics.thermo := None;
     Kinetics.monod := None;
     Kinetics.diffusion := Some (fun w c _ _ => inr (w + 1, c));
     Kinetics.init_activity := fun w => inr w |}.

(** Two atoms of mask 1 and 2, of mass 8 and radius 2, and a fix of group
    bit 1 with growth rate 1/2 in every cell and time step 1. *)
Definition two_atoms : MonodCyano.Atom :=
  {| MonodCyano.nlocal := 2;
     MonodCyano.x := fun _ _ => d0;
     MonodCyano.mask := fun i => if i =? 0 then 1 else 2;
     MonodCyano.radius := fun _ => d2;
     MonodCyano.rmass := fun _ => d_of_Z 8;
     MonodCyano.outer_radius := fun _ => d2;
     MonodCyano.outer_mass := fun _ => d1 |}.

Definition growth_fix : MonodCyano.Fix :=
  {| MonodCyano.groupbit := 1;
     MonodCyano.igroup := 1;
     MonodCyano.dt := d1;
     MonodCyano.growth := fun _ _ _ => Q2Qc (1 # 2) |}.

(** Two liquid species on axes of kind dd: species 1 has boundary value 5
    on every face, species 2 has boundary value 7; both start at 1 in the
    true cell. *)
Definition two_species_env : Env :=
  ex_env 2 (fun _ => "sub"%string) (fun _ => 0)
         (fun i k => if k =? 0 then d1
                     else if i =? 1 then d_of_Z 5 else d_of_Z 7)
         1 1 1 (fun _ => d1) d0 (Q2Qc (1 # 100)) d0 d0.

Definition two_species_state : State :=
  ex_state (fun grid i => if grid =? 13 then d1
                          else if i =? 1 then d_of_Z 5 else d_of_Z 7)
           (fun i => if i =? 1 then d_of_Z 5 else d_of_Z 7)
           (fun _ _ => d0).

(** * Further vocabulary *)

(** The test of [update_grids] on the centre of a cell. *)
Definition outside_fill (e : Env) (grid : Z) : bool :=
  dlt (xGrid e grid 0) d0 || dlt (xGrid e grid 1) d0
  || dlt (xGrid e grid 2) d0
  || dgt (xGrid e grid 0) (subhi e 0)
  || dgt (xGrid e grid 1) (subhi e 1)
  || dgt (xGrid e grid 2) (d_of_Z (bnz e) * stepz e)%Qc.

(** The index into [nuR] and [nuS] that [diffusion] computes for a cell. *)
Definition rate_index (e : Env) (grid : Z) : Z :=
  floor ((xGrid e grid 2 - sublo e 2) / stepz e)%Qc * subn e 0 * subn e 1
  + floor ((xGrid e grid 1 - sublo e 1) / stepy e)%Qc * subn e 0
  + floor ((xGrid e grid 0 - sublo e 0) / stepx e)%Qc.

(** The value [diffusion] copies to [nuS] for a true cell whose flux
    update gave [c]. *)
Definition nuS_value (e : Env) (c : double) : double :=
  if dgt c d0 then (if unit_flag e =? 0 then (c / d1000)%Qc else c)
  else d1e_20.

(** An environment with other halo lists: [n] cells are sent and [n]
    cells are received. *)
Definition with_halo (e : Env) (recv send : Z -> Z) (n : Z) : Env :=
  {| nprocs := nprocs e; nuName := nuName e; nuType := nuType e; dt := dt e;
     bl := bl e; bnz := bnz e; k_nz := k_nz e;
     sublo := sublo e; subhi := subhi e; subn := subn e;
     recvcells := recv; recvend := fun _ => n;
     sendcells := send; sendend := fun _ => n;
     nevery := nevery e; nnus := nnus e; iniS := iniS e; diffD := diffD e;
     nx := nx e; ny := ny e; nz := nz e; nX := nX e; nY := nY e;
     stepx := stepx e; stepy := stepy e; stepz := stepz e;
     xlo := xlo e; xhi := xhi e; ylo := ylo e; yhi := yhi e;
     zlo := zlo e; zhi := zhi e;
     xbcflag := xbcflag e; ybcflag := ybcflag e; zbcflag := zbcflag e;
     unit_flag := unit_flag e; rflag := rflag e;
     shearRate := shearRate e; tol := tol e; q := q e; rvol := rvol e;
     af := af e; xGrid := xGrid e |}.

(** * [FixKineticsDiffusion::getMaxHeight]

    [x] and [r] are the arrays [atom->x] and [atom->radius]. *)
Definition getMaxHeight (nlocal_ : Z) (x_ : Z -> Z -> double) (r : Z -> double)
  : double :=
  let maxh := d0 in
  for_loop 0 nlocal_
    (fun i maxh =>
       if dgt (x_ i 2 + r i)%Qc maxh then (x_ i 2 + r i)%Qc else maxh)
    maxh.

(** A loop over two species, "x" and "h2o", without diffusion stepper;
    its growth kinetics adds 1 to the world. *)
Definition lone_kinetics : Kinetics.Fix Z :=
  {| Kinetics.nnus := 2;
     Kinetics.nuName := fun i => if i =? 1 then "x"%string else "h2o"%string;
     Kinetics.diffT := Q2Qc (1 # 10);
     Kinetics.dt := d1;
     Kinetics.nevery := 1;
     Kinetics.ph := None;
     Kinetics.thermo := None;
     Kinetics.monod := Some (fun _ w => inr (w + 1));
     Kinetics.diffusion := None;
     Kinetics.init_activity := fun w => inr w |}.

(** A loop whose diffusion stepper reports every species as converged. *)
Definition quick_kinetics : Kinetics.Fix Z :=
  with_diffusion stuck_kinetics (fun w _ _ _ => inr (w + 1, fun _ => true)).

(** * Loops that [error->all] can leave *)

Definition for_loop_err {A : Type} (lo hi : Z) (body : Z -> A -> string + A)
    (s : A) : string + A :=
  fold_left
    (fun acc k => match acc with inl err => inl err | inr a => body k a end)
    (range lo hi) (inr s).

Definition upd3 {A : Type} (a : Z -> Z -> Z -> A) (i j k : Z) (v : A)
  : Z -> Z -> Z -> A :=
  fun i' => if i' =? i then upd2 (a i') j k v else a i'.

(** * [FixKinetics::init_keq] and [FixKinetics::init_activity]

    [exp] and [pow] of [math.h] are parameters. *)

Module Chem.

Section Chem.

Variable exp : double -> double.
Variable pow : double -> double -> double.

Record Fix := {
  nnus : Z;
  ngrids : Z;
  nuName : Z -> string;
  rth : double;
  temp : double;
  iph : double;
  nuGCoeff : Z -> Z -> double;      (* bio->nuGCoeff *)
  nuS : Z -> Z -> double;
  kEq : Z -> Z -> double;
  Sh : Z -> double;
  activity : Z -> Z -> Z -> double
}.


Definition set_Sh (a : Z -> double) (c : Fix) : Fix :=
  {| nnus := nnus c; ngrids := ngrids c; nuName := nuName c; rth := rth c;
     temp := temp c; iph := iph c; nuGCoeff := nuGCoeff c; nuS := nuS c;
     kEq := kEq c; Sh := a; activity := activity c |}.

Definition set_activity (a : Z -> Z -> Z -> double) (c : Fix) : Fix :=
  {| nnus := nnus c; ngrids := ngrids c; nuName := nuName c; rth := rth c;
     temp := temp c; iph := iph c; nuGCoeff := nuGCoeff c; nuS := nuS c;
     kEq := kEq c; Sh := Sh c; activity := a |}.



(** The value given to [denm[k]]. *)
Definition denm (gSh : double) (c : Fix) (k : Z) : double :=
  ((d1 + kEq c k 0) * gSh * gSh * gSh + kEq c k 1 * gSh * gSh
   + kEq c k 2 * kEq c k 3 * gSh + kEq c k 3 * kEq c k 2 * kEq c k 1)%Qc.

(** The assignments to [activity[k][.][j]]. *)
Definition store_activity (gSh : double) (k j : Z) (denm_k : double) (c : Fix)
  : Fix :=
  let c :=
    set_activity
      (upd3 (activity c) k 0 j
         (kEq c k 0 * nuS c k j * gSh * gSh * gSh / denm_k)%Qc) c in
  let c :=
    set_activity
      (upd3 (activity c) k 1 j (nuS c k j * gSh * gSh * gSh / denm_k)%Qc) c in
  let c :=
    set_activity
      (upd3 (activity c) k 2 j
         (nuS c k j * gSh * gSh * kEq c k 1 / denm_k)%Qc) c in
  let c :=
    set_activity
      (upd3 (activity c) k 3 j
         (nuS c k j * gSh * kEq c k 1 * kEq c k 2 / denm_k)%Qc) c in
  let c :=
    set_activity
      (upd3 (activity c) k 4 j
         (nuS c k j * kEq c k 1 * kEq c k 2 * kEq c k 3 / denm_k)%Qc) c in
  if String.eqb (nuName c k) "h"
  then set_activity (upd3 (activity c) k 1 j gSh) c
  else c.

(** Body of the inner loop of [init_activity]. *)
Definition activity_cell (gSh : double) (k j : Z) (c : Fix) : string + Fix :=
  let c := set_Sh (upd (Sh c) j gSh) c in
  let denm_k := denm gSh c k in
  if deq denm_k d0 then inl "denm returns a zero value"%string
  else inr (store_activity gSh k j denm_k c).

Definition init_activity (c : Fix) : string + Fix :=
  let gSh := pow (d_of_Z 10) (- iph c)%Qc in
  for_loop_err 1 (nnus c + 1)
    (fun k c => for_loop_err 0 (ngrids c) (activity_cell gSh k) c)
    c.

End Chem.

End Chem.

(** * The cells of [FixMonodCyanoKokkos]

    [update_cells<Reaction, Growth>] runs the functor on the cells
    [0 .. ncells-1]; one thread runs them in turn.  [GHOST_MASK] of
    [grid_masks.h] is a parameter. *)

Module CyanoCells.

Record Grid := {
  ncells : Z;
  d_mask : Z -> Z;
  d_conc : Z -> Z -> double;        (* (species, cell) *)
  d_reac : Z -> Z -> double;        (* (species, cell) *)
  d_dens : Z -> Z -> double;        (* (group, cell) *)
  d_growth : Z -> Z -> Z -> double  (* (group, cell, 0) *)
}.

Record Functor := {
  GHOST_MASK : Z;
  igroup : Z;
  ilight : Z; ico2 : Z; igco2 : Z; isuc : Z; io2 : Z;
  suc_exp : double;
  gco2_flag : Z;
  light_affinity : double; co2_affinity : double;
  growth : double; yield : double;
  maintain : double; decay : double
}.

Definition set_reac (a : Z -> Z -> double) (g : Grid) : Grid :=
  {| ncells := ncells g; d_mask := d_mask g; d_conc := d_conc g;
     d_reac := a; d_dens := d_dens g; d_growth := d_growth g |}.

Definition set_growth (a : Z -> Z -> Z -> double) (g : Grid) : Grid :=
  {| ncells := ncells g; d_mask := d_mask g; d_conc := d_conc g;
     d_reac := d_reac g; d_dens := d_dens g; d_growth := a |}.

Definition tmp1 (f : Functor) (g : Grid) (i : Z) : double :=
  (growth f * d_conc g (ilight f) i / (light_affinity f + d_conc g (ilight f) i)
   * d_conc g (ico2 f) i / (co2_affinity f + d_conc g (ico2 f) i))%Qc.

(** [d_reac(sp, i) += v]. *)
Definition add_reac (sp i : Z) (v : double) (g : Grid) : Grid :=
  set_reac (upd2 (d_reac g) sp i (d_reac g sp i + v)%Qc) g.

(** [d_reac(sp, i) -= v]. *)
Definition sub_reac (sp i : Z) (v : double) (g : Grid) : Grid :=
  set_reac (upd2 (d_reac g) sp i (d_reac g sp i - v)%Qc) g.

(** [Functor::operator()] for the template arguments [Reaction] and
    [Growth]. *)
Definition functor (Reaction Growth : bool) (f : Functor) (i : Z) (g : Grid)
  : Grid :=
  let tmp1_ := tmp1 f g i in
  let tmp2 := (Q2Qc (2 # 10) * tmp1_ * suc_exp f)%Qc in
  let tmp3 := (d_of_Z 4 * tmp1_ * suc_exp f)%Qc in
  let g :=
    if Reaction && (Z.land (d_mask g i) (GHOST_MASK f) =? 0) then
      (* nutrient utilization *)
      let g := sub_reac (ilight f) i
                 (d1 / yield f * (tmp1_ + tmp3) * d_dens g (igroup f) i)%Qc g in
      let g := sub_reac (ico2 f) i
                 (d1 / yield f * (tmp1_ + tmp3) * d_dens g (igroup f) i)%Qc g in
      let g := sub_reac (io2 f) i
                 (Q2Qc (1 # 10) * maintain f * d_dens g (igroup f) i)%Qc g in
      (* oxygen evolution *)
      let g := add_reac (io2 f) i
                 ((Q2Qc (727 # 1000) / yield f) * (tmp1_ + tmp3)
                  * d_dens g (igroup f) i)%Qc g in
      (* sucrose export *)
      let g := add_reac (isuc f) i
                 ((Q2Qc (65 # 100) / yield f) * tmp3 * d_dens g (igroup f) i)%Qc
                 g in
      (* co2 dissolution *)
      if gco2_flag f =? 1 then
        add_reac (ico2 f) i
          (Q2Qc (44 # 10000000) * d_conc g (igco2 f) i
           - Q2Qc (44 # 10000000) * d_conc g (ico2 f) i)%Qc g
      else g
    else g in
  if Growth then
    set_growth
      (upd3 (d_growth g) (igroup f) i 0
         (tmp1_ - tmp2 - decay f - maintain f)%Qc) g
  else g.

Definition update_cells (Reaction Growth : bool) (f : Functor) (g : Grid)
  : Grid :=
  for_loop 0 (ncells g) (functor Reaction Growth f) g.

End CyanoCells.

(** The fix on the atoms reading its growth rates in the grid:
    [grid->growth] is the array [d_growth] of the cells. *)
Definition atoms_fix (groupbit_ igroup_ : Z) (dt_ : double)
    (g : CyanoCells.Grid) : MonodCyano.Fix :=
  {| MonodCyano.groupbit := groupbit_;
     MonodCyano.igroup := igroup_;
     MonodCyano.dt := dt_;
     MonodCyano.growth := CyanoCells.d_growth g |}.

(** [FixMonodCyanoKokkos::compute]: the grid and the atoms after the
    call. *)
Definition cyano_compute (MY_PI : double) (pow : double -> double -> double)
    (cell : (Z -> double) -> Z) (reaction_flag growth_flag : bool)
    (f : CyanoCells.Functor) (groupbit_ : Z) (dt_ : double)
    (ga : CyanoCells.Grid * MonodCyano.Atom)
  : CyanoCells.Grid * MonodCyano.Atom :=
  let (g, a) := ga in
  if reaction_flag && growth_flag then
    let g := CyanoCells.update_cells true true f g in
    (g, MonodCyano.update_atoms MY_PI pow cell
          (atoms_fix groupbit_ (CyanoCells.igroup f) dt_ g) a)
  else if reaction_flag && negb growth_flag then
    (CyanoCells.update_cells true false f g, a)
  else if negb reaction_flag && growth_flag then
    let g := CyanoCells.update_cells false true f g in
    (g, MonodCyano.update_atoms MY_PI pow cell
          (atoms_fix groupbit_ (CyanoCells.igroup f) dt_ g) a)
  else (g, a).

(** A grid of two cells, the second one a ghost cell, with species
    1 = light, 2 = co2, 3 = o2, 4 = sucrose and 5 = gaseous co2. *)
Definition cyano_functor : CyanoCells.Functor :=
  {| CyanoCells.GHOST_MASK := 1;
     CyanoCells.igroup := 1;
     CyanoCells.ilight := 1; CyanoCells.ico2 := 2; CyanoCells.igco2 := 5;
     CyanoCells.isuc := 4; CyanoCells.io2 := 3;
     CyanoCells.suc_exp := Q2Qc (1 # 2);
     CyanoCells.gco2_flag := 1;
     CyanoCells.light_affinity := d1; CyanoCells.co2_affinity := d1;
     CyanoCells.growth := d_of_Z 4; CyanoCells.yield := d2;
     CyanoCells.maintain := Q2Qc (1 # 10); CyanoCells.decay := Q2Qc (1 # 10) |}.

Definition cyano_grid : CyanoCells.Grid :=
  {| CyanoCells.ncells := 2;
     CyanoCells.d_mask := fun i => if i =? 1 then 1 else 0;
     CyanoCells.d_conc := fun _ _ => d1;
     CyanoCells.d_reac := fun _ _ => d0;
     CyanoCells.d_dens := fun _ _ => d2;
     CyanoCells.d_growth := fun _ _ _ => d0 |}.

(** A fix of group bit 1 with growth rate 19/8 and time step 1: an atom
    of mass 8 grows to mass 27. *)
Definition cube_fix : MonodCyano.Fix :=
  {| MonodCyano.groupbit := 1;
     MonodCyano.igroup := 1;
     MonodCyano.dt := d1;
     MonodCyano.growth := fun _ _ _ => Q2Qc (19 # 8) |}.

(** A stand-in for [pow] that knows the cube root of 27. *)
Definition root27 (b _ : double) : double :=
  if deq b (d_of_Z 27) then d_of_Z 3 else b.

(** * Vocabulary for [init_activity] *)

(** The members [init_activity] reads. *)
Definition same_inputs (c c0 : Chem.Fix) : Prop :=
  Chem.nnus c = Chem.nnus c0 /\ Chem.ngrids c = Chem.ngrids c0
  /\ Chem.nuName c = Chem.nuName c0 /\ Chem.nuS c = Chem.nuS c0
  /\ Chem.kEq c = Chem.kEq c0 /\ Chem.iph c = Chem.iph c0
  /\ Chem.nuGCoeff c = Chem.nuGCoeff c0 /\ Chem.rth c = Chem.rth c0
  /\ Chem.temp c = Chem.temp c0.

(** The values the five forms of species [k] get in cell [j]. *)
Definition forms (gSh : double) (c0 c : Chem.Fix) (k j : Z) : Prop :=
  Chem.Sh c j = gSh
  /\ Chem.activity c k 0 j
     = (Chem.kEq c0 k 0 * Chem.nuS c0 k j * gSh * gSh * gSh
        / Chem.denm gSh c0 k)%Qc
  /\ Chem.activity c k 1 j
     = (if String.eqb (Chem.nuName c0 k) "h" then gSh
        else (Chem.nuS c0 k j * gSh * gSh * gSh / Chem.denm gSh c0 k)%Qc)
  /\ Chem.activity c k 2 j
     = (Chem.nuS c0 k j * gSh * gSh * Chem.kEq c0 k 1
        / Chem.denm gSh c0 k)%Qc
  /\ Chem.activity c k 3 j
     = (Chem.nuS c0 k j * gSh * Chem.kEq c0 k 1 * Chem.kEq c0 k 2
        / Chem.denm gSh c0 k)%Qc
  /\ Chem.activity c k 4 j
     = (Chem.nuS c0 k j * Chem.kEq c0 k 1 * Chem.kEq c0 k 2 * Chem.kEq c0 k 3
        / Chem.denm gSh c0 k)%Qc.

(** Two species, "nh3" and "h", in two cells, with total concentration 2
    and equilibrium constants 1, 2, 1 and 1. *)
Definition acid : Chem.Fix :=
  {| Chem.nnus := 2;
     Chem.ngrids := 2;
     Chem.nuName := fun k => if k =? 1 then "nh3"%string else "h"%string;
     Chem.rth := d1;
     Chem.temp := d1;
     Chem.iph := d_of_Z 7;
     Chem.nuGCoeff := fun _ _ => d0;
     Chem.nuS := fun _ _ => d2;
     Chem.kEq := fun _ j => if j =? 1 then d2 else d1;
     Chem.Sh := fun _ => d0;
     Chem.activity := fun _ _ _ => d0 |}.

(** The same with constants -1, 0, 0 and 0 for the second species, whose
    denominator is then 0. *)
Definition acid_zero : Chem.Fix :=
  {| Chem.nnus := 2;
     Chem.ngrids := 2;
     Chem.nuName := fun k => if k =? 1 then "nh3"%string else "h"%string;
     Chem.rth := d1;
     Chem.temp := d1;
     Chem.iph := d_of_Z 7;
     Chem.nuGCoeff := fun _ _ => d0;
     Chem.nuS := fun _ _ => d2;
     Chem.kEq := fun k j => if k =? 1 then d1
                            else if j =? 0 then (- d1)%Qc else d0;
     Chem.Sh := fun _ => d0;
     Chem.activity := fun _ _ _ => d0 |}.

(** Stand-ins for [pow] and [exp]. *)
Definition pow_one (_ _ : double) : double := d1.


(** ** Comparisons *)

Lemma dlt_true (x y : double) : dlt x y = true <-> (x < y)%Qc.
Proof.
  unfold dlt. rewrite Qclt_alt.
  destruct (x ?= y)%Qc; split; congruence.
Qed.

Lemma dle_true (x y : double) : dle x y = true <-> (x <= y)%Qc.
Proof.
  unfold dle. rewrite Qcle_alt.
  destruct (x ?= y)%Qc; split; congruence.
Qed.

Lemma deq_true (x y : double) : deq x y = true <-> x = y.
Proof.
  unfold deq. rewrite Qceq_alt.
  destruct (x ?= y)%Qc; split; congruence.
Qed.

Lemma dle_false (x y : double) : dle x y = false <-> (y < x)%Qc.
Proof.
  split; intro H.
  - apply Qcnot_le_lt. intro L. apply dle_true in L. congruence.
  - destruct (dle x y) eqn:E; auto.
    apply dle_true in E. exfalso. exact (Qclt_not_le _ _ H E).
Qed.

Lemma d1e_20_pos : (d0 < d1e_20)%Qc.
Proof. reflexivity. Qed.

Lemma clamp_pos (v : double) : (d0 < clamp v)%Qc.
Proof.
  unfold clamp. destruct (dle v d0) eqn:E.
  - exact d1e_20_pos.
  - now apply dle_false.
Qed.

Lemma clamp_idem (v : double) : clamp (clamp v) = clamp v.
Proof.
  unfold clamp at 1.
  destruct (dle (clamp v) d0) eqn:E; auto.
  apply dle_true in E. exfalso.
  exact (Qclt_not_le _ _ (clamp_pos v) E).
Qed.

(** ** Loops *)

Lemma range_nil (lo hi : Z) : hi <= lo -> range lo hi = [].
Proof.
  intro H. unfold range.
  replace (Z.to_nat (hi - lo)) with O by lia. reflexivity.
Qed.

Lemma range_cons (lo hi : Z) : lo < hi -> range lo hi = lo :: range (lo + 1) hi.
Proof.
  intro H. unfold range.
  replace (Z.to_nat (hi - lo)) with (S (Z.to_nat (hi - (lo + 1)))) by lia.
  cbn [seq map]. f_equal.
  - lia.
  - rewrite <- seq_shift, map_map.
    apply map_ext. intro k. lia.
Qed.

Lemma range_split (lo i hi : Z) :
  lo <= i < hi -> range lo hi = range lo i ++ i :: range (i + 1) hi.
Proof.
  intro H.
  remember (Z.to_nat (i - lo)) as n eqn:En.
  revert lo H En. induction n as [|n IH]; intros lo H En.
  - assert (lo = i) by lia. subst lo.
    rewrite (range_nil i i) by lia. cbn [app].
    apply range_cons. lia.
  - rewrite (range_cons lo hi) by lia.
    rewrite (range_cons lo i) by lia.
    cbn [app]. f_equal. apply IH; lia.
Qed.

Lemma in_range (lo hi k : Z) : In k (range lo hi) <-> lo <= k < hi.
Proof.
  unfold range. rewrite in_map_iff. split.
  - intros [n [E I]]. apply in_seq in I. lia.
  - intro H. exists (Z.to_nat (k - lo)). split; [lia|].
    apply in_seq. lia.
Qed.

Lemma for_loop_nil {A : Type} (lo hi : Z) (body : Z -> A -> A) (s : A) :
  hi <= lo -> for_loop lo hi body s = s.
Proof. intro H. unfold for_loop. now rewrite range_nil. Qed.

Lemma for_loop_split {A : Type} (lo i hi : Z) (body : Z -> A -> A) (s : A) :
  lo <= i < hi ->
  for_loop lo hi body s
  = for_loop (i + 1) hi body (body i (for_loop lo i body s)).
Proof.
  intro H. unfold for_loop.
  rewrite (range_split lo i hi H), fold_left_app. reflexivity.
Qed.

(** An invariant of the body is an invariant of the loop. *)
Lemma for_loop_ind {A : Type} (P : A -> Prop) (lo hi : Z)
    (body : Z -> A -> A) (s : A) :
  P s ->
  (forall k a, lo <= k < hi -> P a -> P (body k a)) ->
  P (for_loop lo hi body s).
Proof.
  intros Hs Hstep. unfold for_loop.
  assert (Hin : forall k, In k (range lo hi) -> lo <= k < hi)
    by (intro k; apply in_range).
  revert s Hs. induction (range lo hi) as [|k l IH]; intros s Hs.
  - exact Hs.
  - cbn [fold_left]. apply IH.
    + intros j Hj. apply Hin. now right.
    + apply Hstep; [apply Hin; now left | exact Hs].
Qed.

(** What pass [i] of the loop establishes, later passes keeping it. *)
Lemma for_loop_at {A : Type} (P R : A -> Prop) (lo i hi : Z)
    (body : Z -> A -> A) (s : A) :
  lo <= i < hi ->
  P s ->
  (forall k a, lo <= k < i -> P a -> P (body k a)) ->
  (forall a, P a -> R (body i a)) ->
  (forall k a, i < k < hi -> R a -> R (body k a)) ->
  R (for_loop lo hi body s).
Proof.
  intros Hi Hs Hpre Hat Hpost.
  rewrite (for_loop_split lo i hi) by exact Hi.
  apply for_loop_ind.
  - apply Hat. apply for_loop_ind; [exact Hs|].
    intros k a Hk Ha. apply Hpre; [lia | exact Ha].
  - intros k a Hk Ha. apply Hpost; [lia | exact Ha].
Qed.

(** ** Arrays *)

Lemma upd_same {A : Type} (a : Z -> A) (i : Z) (v : A) : upd a i v i = v.
Proof. unfold upd. now rewrite Z.eqb_refl. Qed.

Lemma upd_other {A : Type} (a : Z -> A) (i j : Z) (v : A) :
  j <> i -> upd a i v j = a j.
Proof. intro H. unfold upd. apply Z.eqb_neq in H. now rewrite H. Qed.

Lemma upd2_same {A : Type} (a : Z -> Z -> A) (i j : Z) (v : A) :
  upd2 a i j v i j = v.
Proof. unfold upd2. rewrite Z.eqb_refl. apply upd_same. Qed.

Lemma upd2_other {A : Type} (a : Z -> Z -> A) (i j i' j' : Z) (v : A) :
  i' <> i \/ j' <> j -> upd2 a i j v i' j' = a i' j'.
Proof.
  intro H. unfold upd2. destruct (i' =? i) eqn:E; [|reflexivity].
  apply Z.eqb_eq in E. subst i'. apply upd_other. tauto.
Qed.

(** ** Evaluation of closed rationals *)

Ltac qc_eq := apply Qc_is_canon; vm_compute; reflexivity.
Ltac qc_neq :=
  let H := fresh in
  intro H; apply Qceq_alt in H; vm_compute in H; discriminate H.

(** * The flux update *)

(** Value stored at a true cell by one pass of the loop "solve diffusion
    and reaction". *)
Lemma cell_update_true (e : Env) (i grid : Z) (s : State) (m : double) :
  ghost s grid = false ->
  let ind :=
    floor ((xGrid e grid 2 - sublo e 2) / stepz e)%Qc * subn e 0 * subn e 1
    + floor ((xGrid e grid 1 - sublo e 1) / stepy e)%Qc * subn e 0
    + floor ((xGrid e grid 0 - sublo e 0) / stepx e)%Qc in
  let c := compute_flux e s (diffD e i) (nuPrev s i) (nuR s i ind) grid in
  nuGrid (fst (cell_update e i grid (s, m))) grid i
  = if dgt c d0 then c else d1e_20.
Proof.
  intros Hg ind c. unfold cell_update. rewrite Hg. cbn [negb].
  fold ind. fold c. cbn [fst].
  cbn [nuGrid set_nuR set_nuGrid]. rewrite upd2_same.
  destruct (dgt c d0) eqn:Ec.
  - destruct (unit_flag e =? 0); cbn [nuGrid set_nuS]; apply upd2_same.
  - cbn [nuGrid set_nuS set_nuGrid]. apply upd2_same.
Qed.

(** * The test on the cell sizes *)

Lemma isEuqal_true (a b c : double) :
  isEuqal a b c = true <-> (fabs (a - b) <= d1e_10)%Qc.
Proof.
  unfold isEuqal, dgt.
  destruct (dlt d1e_10 (fabs (a - b))) eqn:E; cbn [orb].
  - apply dlt_true in E. split; [discriminate|].
    intro H. exfalso. exact (Qclt_not_le _ _ E H).
  - split; [|reflexivity]. intros _.
    apply Qcnot_lt_le. intro H. apply dlt_true in H. congruence.
Qed.

(** The third argument of [isEuqal] has no effect on its result. *)
Lemma isEuqal_third (a b c c' : double) : isEuqal a b c = isEuqal a b c'.
Proof. reflexivity. Qed.

(** C7, on the code.  [init] reports "Grid is not cubic" exactly when
    [stepx] and [stepy] differ by more than [1e-10]; [stepz] is not
    looked at.  A box of size 1 x 1 x 2 cut into one cell per axis, whose
    cells have size 1 x 1 x 2, passes the test. *)
Theorem init_steps_ignores_stepz :
  (forall xlo_ xhi_ ylo_ yhi_ zlo_ zhi_ nx_ ny_ nz_,
      (exists msg, init_steps xlo_ xhi_ ylo_ yhi_ zlo_ zhi_ nx_ ny_ nz_ = inl msg)
      <-> (d1e_10 < fabs ((xhi_ - xlo_) / d_of_Z nx_
                          - (yhi_ - ylo_) / d_of_Z ny_))%Qc)
  /\ init_steps d0 d1 d0 d1 d0 d2 1 1 1
     = inr ((d1 - d0) / d_of_Z 1, (d1 - d0) / d_of_Z 1, (d2 - d0) / d_of_Z 1)%Qc
  /\ (d1e_10 < fabs ((d1 - d0) / d_of_Z 1 - (d2 - d0) / d_of_Z 1))%Qc.
Proof.
  split; [|split].
  - intros. unfold init_steps.
    set (sx := ((xhi_ - xlo_) / d_of_Z nx_)%Qc).
    set (sy := ((yhi_ - ylo_) / d_of_Z ny_)%Qc).
    set (sz := ((zhi_ - zlo_) / d_of_Z nz_)%Qc).
    destruct (isEuqal sx sy sz) eqn:E; cbn [negb].
    + apply isEuqal_true in E. split.
      * intros [msg H]. discriminate H.
      * intro H. exfalso. exact (Qclt_not_le _ _ H E).
    + split.
      * intros _. apply Qcnot_le_lt. intro H.
        apply (isEuqal_true sx sy sz) in H. congruence.
      * intros _. eexists. reflexivity.
  - reflexivity.
  - reflexivity.
Qed.

(** * The boundary conditions *)

(** [compute_bc] selects a face, applies the formula of the kind
    configured for it and ends with the test against zero. *)
Lemma compute_bc_face (e : Env) (s : State) (nuCell : double)
    (nuPrev_i : Z -> double) (grid : Z) (bulk : double) :
  compute_bc e s nuCell nuPrev_i grid bulk
  = clamp (match face_of e s grid with
           | Some f => bc_value e s nuCell nuPrev_i grid bulk f
           | None => nuCell
           end).
Proof.
  unfold compute_bc, clamp. cbv zeta.
  match goal with
  | |- (if dle ?X _ then _ else _) = (if dle ?Y _ then _ else _) =>
    assert (HXY : X = Y); [| rewrite HXY; reflexivity]
  end.
  unfold face_of, find, face_test, adjacent, bc_value, dirichlet, neumann,
    bcflag, opposite, face_value;
    repeat match goal with
           | |- context [if ?b then _ else _] =>
             destruct b eqn:?; cbn [orb andb negb]; try reflexivity;
             try discriminate
           end.
  all: exfalso;
    repeat match goal with
           | H : (_ =? _) = true |- _ => apply Z.eqb_eq in H
           end; lia.
Qed.

(** C4 as stated fails: with boundary value 0 on a Dirichlet low-z face
    and concentration 1 in the adjacent true cell, the ghost cell receives
    [1e-20], not [2*0 - 1]. *)
Lemma compute_bc_dirichlet_counterexample :
  let e := sink_env 1 in
  let s := sink_state in
  let prev := fun grid => nuGrid s grid 1 in
  ghost s 4 = true /\ face_of e s 4 = Some ZLow /\ dirichlet e ZLow = true /\
  compute_bc e s (nuGrid s 4 1) prev 4 (nuBS s 1) = d1e_20 /\
  compute_bc e s (nuGrid s 4 1) prev 4 (nuBS s 1)
  <> (d2 * face_value s (nuBS s 1) ZLow - prev (adjacent e 4 ZLow))%Qc.
Proof.
  intros e s prev.
  split; [reflexivity | split; [reflexivity | split; [reflexivity|]]].
  split; [qc_eq | qc_neq].
Qed.

(** C4, amended.  A cell that [compute_bc] treats as lying on a face
    with a Dirichlet condition receives twice the boundary value held for
    that face (the bulk concentration on the high-z face) minus the
    snapshot value of the adjacent true cell, and [1e-20] when that
    number is not positive. *)
Theorem compute_bc_dirichlet (e : Env) (s : State) (nuCell : double)
    (nuPrev_i : Z -> double) (grid : Z) (bulk : double) (f : Face) :
  face_of e s grid = Some f ->
  dirichlet e f = true ->
  compute_bc e s nuCell nuPrev_i grid bulk
  = clamp (d2 * face_value s bulk f - nuPrev_i (adjacent e grid f))%Qc.
Proof.
  intros Hf Hd. rewrite compute_bc_face, Hf. f_equal.
  unfold bc_value. rewrite Hd.
  destruct (bcflag e f =? 0) eqn:E0; [|reflexivity].
  apply Z.eqb_eq in E0. exfalso.
  unfold dirichlet in Hd. rewrite E0 in Hd.
  destruct f; discriminate Hd.
Qed.

Lemma compute_bc_dirichlet_witness :
  let e := sink_env 1 in
  let s := sink_state in
  let prev := fun grid => nuGrid s grid 1 in
  face_of e s 4 = Some ZLow /\ dirichlet e ZLow = true /\
  compute_bc e s (nuGrid s 4 1) prev 4 (nuBS s 1)
  = clamp (d2 * face_value s (nuBS s 1) ZLow - prev (adjacent e 4 ZLow))%Qc.
Proof.
  intros e s prev.
  split; [reflexivity | split; [reflexivity|]].
  apply (compute_bc_dirichlet e s (nuGrid s 4 1) prev 4 (nuBS s 1) ZLow);
    reflexivity.
Defined.

(** On a z-face cell none of whose in-plane tests succeeds, kind db
    selects no formula. *)
Lemma compute_bc_db (e : Env) (s : State) (nuCell : double)
    (nuPrev_i : Z -> double) (grid : Z) (bulk : double) :
  zbcflag e = 5 ->
  in_plane_closed e s grid = true ->
  compute_bc e s nuCell nuPrev_i grid bulk = clamp nuCell.
Proof.
  intros H5 Hp. rewrite compute_bc_face. f_equal.
  unfold in_plane_closed in Hp. cbn [forallb] in Hp.
  repeat (apply andb_prop in Hp; destruct Hp as [?H Hp]).
  repeat match goal with
         | H : negb _ = true |- _ => apply negb_true_iff in H
         end.
  unfold face_of. cbn [find].
  destruct (face_test e s grid ZLow);
    [unfold bc_value, dirichlet, neumann, bcflag; rewrite H5; reflexivity|].
  destruct (face_test e s grid ZHigh);
    [unfold bc_value, dirichlet, neumann, bcflag; rewrite H5; reflexivity|].
  repeat match goal with
         | H : face_test _ _ _ _ = false |- _ => rewrite H; clear H
         end.
  reflexivity.
Qed.

(** * The stages of [diffusion] *)


Lemma static_eq_refl (a : State) : static_eq a a.
Proof. unfold static_eq. tauto. Qed.

Lemma static_eq_trans (a b c : State) :
  static_eq a b -> static_eq b c -> static_eq a c.
Proof.
  unfold static_eq. intros H1 H2.
  repeat match goal with H : _ /\ _ |- _ => destruct H end.
  repeat split; congruence.
Qed.

Ltac static := unfold static_eq; cbn; repeat split; reflexivity.

(** ** One cell *)

Lemma cell_update_static (e : Env) (i grid : Z) (s : State) (m : double) :
  static_eq s (fst (cell_update e i grid (s, m)))
  /\ nuPrev (fst (cell_update e i grid (s, m))) = nuPrev s.
Proof.
  unfold cell_update.
  destruct (negb (ghost s grid)); cbn [fst].
  - match goal with
    | |- context [if dgt ?c d0 then _ else _] => destruct (dgt c d0)
    end; [destruct (unit_flag e =? 0)|]; split; try reflexivity; static.
  - split; [static | reflexivity].
Qed.

Lemma cell_update_other (e : Env) (i grid : Z) (s : State) (m : double)
    (grid' i' : Z) :
  grid' <> grid \/ i' <> i ->
  nuGrid (fst (cell_update e i grid (s, m))) grid' i' = nuGrid s grid' i'.
Proof.
  intro H. unfold cell_update.
  destruct (negb (ghost s grid)); cbn [fst].
  - match goal with
    | |- context [if dgt ?c d0 then _ else _] => destruct (dgt c d0)
    end; [destruct (unit_flag e =? 0)|];
      cbn [nuGrid set_nuS set_nuR set_nuGrid];
      rewrite ?upd2_other by exact H; reflexivity.
  - cbn [nuGrid set_nuGrid]. now rewrite upd2_other.
Qed.

Lemma cell_update_ghost (e : Env) (i grid : Z) (s : State) (m : double) :
  ghost s grid = true ->
  nuGrid (fst (cell_update e i grid (s, m))) grid i
  = compute_bc e s (nuGrid s grid i) (nuPrev s i) grid (nuBS s i).
Proof.
  intro Hg. unfold cell_update. rewrite Hg. cbn [negb fst nuGrid set_nuGrid].
  apply upd2_same.
Qed.

Lemma cell_update_max (e : Env) (i grid : Z) (s : State) (m : double) :
  snd (cell_update e i grid (s, m))
  = let c := nuGrid (fst (cell_update e i grid (s, m))) grid i in
    if dlt m c then c else m.
Proof. unfold cell_update. reflexivity. Qed.


(** ** The loops over the cells *)

Lemma for_loop_ext {A : Type} (lo hi : Z) (body body' : Z -> A -> A) (s : A) :
  (forall k a, lo <= k < hi -> body k a = body' k a) ->
  for_loop lo hi body s = for_loop lo hi body' s.
Proof.
  intro H. unfold for_loop.
  assert (Hin : forall k, In k (range lo hi) -> lo <= k < hi)
    by (intro k; apply in_range).
  revert s. induction (range lo hi) as [|k l IH]; intro s; [reflexivity|].
  cbn [fold_left]. rewrite H by (apply Hin; now left).
  apply IH. intros j Hj. apply Hin. now right.
Qed.

Lemma for_loop_snoc {A : Type} (lo hi : Z) (body : Z -> A -> A) (s : A) :
  lo <= hi ->
  for_loop lo (hi + 1) body s = body hi (for_loop lo hi body s).
Proof.
  intro H. rewrite (for_loop_split lo hi (hi + 1)) by lia.
  apply for_loop_nil. lia.
Qed.

Section Cells.

Variable e : Env.
Variable i : Z.

Lemma cells_loop_static (lo hi : Z) (s : State) (m : double) :
  static_eq s (fst (for_loop lo hi (cell_update e i) (s, m)))
  /\ nuPrev (fst (for_loop lo hi (cell_update e i) (s, m))) = nuPrev s.
Proof.
  apply (for_loop_ind
           (fun a => static_eq s (fst a) /\ nuPrev (fst a) = nuPrev s)).
  - split; [apply static_eq_refl | reflexivity].
  - intros k [a ma] _ [Hs Hp]. cbn [fst] in *.
    destruct (cell_update_static e i k a ma) as [Hs' Hp'].
    split; [eapply static_eq_trans; eassumption | congruence].
Qed.

Lemma cells_loop_other (lo hi : Z) (s : State) (m : double) (grid' i' : Z) :
  i' <> i \/ ~ lo <= grid' < hi ->
  nuGrid (fst (for_loop lo hi (cell_update e i) (s, m))) grid' i'
  = nuGrid s grid' i'.
Proof.
  intro H.
  apply (for_loop_ind (fun a => nuGrid (fst a) grid' i' = nuGrid s grid' i')).
  - reflexivity.
  - intros k [a ma] Hk Ha. cbn [fst] in Ha.
    rewrite cell_update_other; [exact Ha|].
    destruct H as [H|H]; [now right | left; lia].
Qed.


Lemma in_plane_closed_ghost (a b : State) (grid : Z) :
  ghost a = ghost b -> in_plane_closed e a grid = in_plane_closed e b grid.
Proof.
  intro H. unfold in_plane_closed, face_test. cbn [forallb]. now rewrite H.
Qed.

Lemma cells_loop_db (lo hi : Z) (s : State) (m : double) (grid : Z) :
  lo <= grid < hi ->
  zbcflag e = 5 ->
  ghost s grid = true ->
  in_plane_closed e s grid = true ->
  nuGrid (fst (for_loop lo hi (cell_update e i) (s, m))) grid i
  = clamp (nuGrid s grid i).
Proof.
  intros H H5 Hg Hp.
  apply (for_loop_at
           (fun a => static_eq s (fst a)
                     /\ nuGrid (fst a) grid i = nuGrid s grid i)
           (fun a => nuGrid (fst a) grid i = clamp (nuGrid s grid i))
           lo grid hi); auto.
  - split; [apply static_eq_refl | reflexivity].
  - intros k [a ma] Hk [Hs Ha]. cbn [fst] in *. split.
    + eapply static_eq_trans; [exact Hs | apply cell_update_static].
    + rewrite cell_update_other; [exact Ha | left; lia].
  - intros [a ma] [Hs Ha]. cbn [fst] in *.
    destruct Hs as (_ & _ & Hgh & _).
    rewrite cell_update_ghost by congruence.
    rewrite compute_bc_db; [congruence | exact H5 |].
    rewrite <- Hp. apply in_plane_closed_ghost. congruence.
  - intros k [a ma] Hk Ha. cbn [fst] in Ha.
    rewrite cell_update_other; [exact Ha | left; lia].
Qed.

(** [p_maxS] after the loop is the running maximum of the values the loop
    leaves in the cells it visited. *)
Lemma cells_loop_max (lo : Z) (n : nat) (s : State) (m : double) :
  let r := for_loop lo (lo + Z.of_nat n) (cell_update e i) (s, m) in
  snd r = max_conc (fun grid => nuGrid (fst r) grid i) lo (lo + Z.of_nat n) m.
Proof.
  induction n as [|n IH]; cbv zeta.
  - unfold max_conc. rewrite !for_loop_nil by lia. reflexivity.
  - replace (lo + Z.of_nat (S n)) with (lo + Z.of_nat n + 1) by lia.
    set (hi := lo + Z.of_nat n) in *. cbv zeta in IH.
    unfold max_conc. rewrite !for_loop_snoc by lia.
    set (r := for_loop lo hi (cell_update e i) (s, m)) in *.
    destruct r as [a ma] eqn:Er. cbn [fst snd] in IH.
    rewrite cell_update_max. cbv zeta.
    set (a' := fst (cell_update e i hi (a, ma))).
    assert (Hm : for_loop lo hi
                   (fun grid m0 =>
                      if dlt m0 (nuGrid a' grid i) then nuGrid a' grid i
                      else m0) m = ma).
    { rewrite IH. unfold max_conc. apply for_loop_ext.
      intros k m0 Hk. unfold a'.
      rewrite cell_update_other by (left; lia). reflexivity. }
    rewrite Hm. reflexivity.
Qed.

End Cells.

(** ** One species *)

Lemma snapshot_frame (i : Z) (s : State) :
  static_eq s (snapshot i s)
  /\ nuGrid (snapshot i s) = nuGrid s
  /\ forall i' grid, i' <> i -> nuPrev (snapshot i s) i' grid = nuPrev s i' grid.
Proof.
  unfold snapshot.
  apply (for_loop_ind
           (fun a => static_eq s a /\ nuGrid a = nuGrid s
                     /\ forall i' grid, i' <> i ->
                                        nuPrev a i' grid = nuPrev s i' grid)).
  - split; [apply static_eq_refl | split; [reflexivity | reflexivity]].
  - intros k a _ (Hs & Hg & Hp). split; [|split].
    + eapply static_eq_trans; [exact Hs | static].
    + exact Hg.
    + intros i' grid Hi. cbn [nuPrev set_nuPrev].
      rewrite upd2_other by (left; exact Hi). now apply Hp.
Qed.

Lemma cells_frame (e : Env) (i : Z) (s : State) :
  static_eq s (fst (cells e i s))
  /\ nuPrev (fst (cells e i s)) = nuPrev s
  /\ forall grid' i', i' <> i \/ ~ 0 <= grid' < nXYZ s ->
                      nuGrid (fst (cells e i s)) grid' i' = nuGrid s grid' i'.
Proof.
  unfold cells. cbv zeta.
  destruct (cells_loop_static e i 0 (nXYZ s) s d0) as [H1 H2].
  split; [exact H1 | split; [exact H2|]].
  intros grid' i' H. now apply cells_loop_other.
Qed.


Lemma species_step_skip (e : Env) (nuConv : Z -> bool) (i : Z)
    (sc : State * (Z -> bool)) :
  processed e nuConv i = false -> species_step e nuConv i sc = sc.
Proof.
  unfold processed, species_step. intro H. destruct sc as [s conv].
  now rewrite H.
Qed.

(** The state and the flag a processed species ends with. *)
Lemma species_step_run (e : Env) (nuConv : Z -> bool) (i : Z) (s : State)
    (conv : Z -> bool) :
  processed e nuConv i = true ->
  let s2 := fst (cells e i (snapshot i s)) in
  species_step e nuConv i (s, conv)
  = (s2, upd conv i
           (conv i
            && check_conv e s2
                 (MAX d0 (max_conc (fun grid => nuGrid s2 grid i) 0 (nXYZ s2) d0))
                 i)).
Proof.
  intro H. cbv zeta. set (s2 := fst (cells e i (snapshot i s))).
  unfold species_step. fold (processed e nuConv i). rewrite H. cbv zeta.
  assert (Hm : snd (cells e i (snapshot i s))
               = max_conc (fun grid => nuGrid s2 grid i) 0 (nXYZ s2) d0).
  { destruct (cells_frame e i (snapshot i s)) as ((Hn & _) & _).
    unfold s2. rewrite <- Hn. unfold cells. cbv zeta.
    pose proof (cells_loop_max e i 0 (Z.to_nat (nXYZ (snapshot i s)))
                               (snapshot i s) d0) as Hx.
    cbv zeta in Hx.
    destruct (Z_le_gt_dec 0 (nXYZ (snapshot i s))) as [Hle|Hgt].
    - replace (0 + Z.of_nat (Z.to_nat (nXYZ (snapshot i s))))
        with (nXYZ (snapshot i s)) in Hx by lia.
      exact Hx.
    - unfold max_conc. rewrite !for_loop_nil by lia. reflexivity. }
  fold s2 in Hm |- *.
  destruct (cells e i (snapshot i s)) as [a pm] eqn:E.
  cbn [fst snd] in *. subst s2. cbn [fst]. rewrite Hm. reflexivity.
Qed.

Lemma species_step_static (e : Env) (nuConv : Z -> bool) (i : Z)
    (sc : State * (Z -> bool)) :
  static_eq (fst sc) (fst (species_step e nuConv i sc)).
Proof.
  destruct (processed e nuConv i) eqn:H.
  - destruct sc as [s conv]. rewrite species_step_run by exact H.
    cbn [fst]. eapply static_eq_trans.
    + apply snapshot_frame.
    + apply cells_frame.
  - rewrite species_step_skip by exact H. apply static_eq_refl.
Qed.

(** A pass for species [i] leaves the data of every other species alone. *)
Lemma species_step_other (e : Env) (nuConv : Z -> bool) (i i' : Z)
    (sc : State * (Z -> bool)) :
  i' <> i ->
  (forall grid, nuGrid (fst (species_step e nuConv i sc)) grid i'
                = nuGrid (fst sc) grid i')
  /\ (forall grid, nuPrev (fst (species_step e nuConv i sc)) i' grid
                   = nuPrev (fst sc) i' grid)
  /\ snd (species_step e nuConv i sc) i' = snd sc i'.
Proof.
  intro Hi. destruct (processed e nuConv i) eqn:H.
  - destruct sc as [s conv]. rewrite species_step_run by exact H.
    cbn [fst snd].
    destruct (cells_frame e i (snapshot i s)) as (_ & Hp & Hg).
    destruct (snapshot_frame i s) as (_ & Hg' & Hp').
    split; [|split].
    + intro grid. rewrite Hg by (left; exact Hi). now rewrite Hg'.
    + intro grid. rewrite Hp. now apply Hp'.
    + now apply upd_other.
  - rewrite species_step_skip by exact H. auto.
Qed.


(** Under kind db, a pass changes a z-face ghost cell by the final test of
    [compute_bc] at most. *)
Lemma species_step_db (e : Env) (nuConv : Z -> bool) (i : Z) (s : State)
    (conv : Z -> bool) (grid : Z) :
  zbcflag e = 5 ->
  ghost s grid = true ->
  in_plane_closed e s grid = true ->
  nuGrid (fst (species_step e nuConv i (s, conv))) grid i
  = if processed e nuConv i && (0 <=? grid) && (grid <? nXYZ s)
    then clamp (nuGrid s grid i)
    else nuGrid s grid i.
Proof.
  intros H5 Hg Hp. destruct (processed e nuConv i) eqn:H.
  - rewrite species_step_run by exact H. cbn [fst andb].
    destruct (snapshot_frame i s) as ((Hn & _ & Hgh & _) & Hgr & _).
    destruct ((0 <=? grid) && (grid <? nXYZ s)) eqn:Hr.
    + apply andb_prop in Hr. destruct Hr as [Hr1 Hr2].
      apply Z.leb_le in Hr1. apply Z.ltb_lt in Hr2.
      unfold cells. cbv zeta. rewrite cells_loop_db.
      * now rewrite Hgr.
      * lia.
      * exact H5.
      * congruence.
      * rewrite <- Hp. apply in_plane_closed_ghost. congruence.
    + destruct (cells_frame e i (snapshot i s)) as (_ & _ & Hc).
      rewrite Hc; [now rewrite Hgr|]. right. rewrite <- Hn.
      apply andb_false_iff in Hr. destruct Hr as [Hr|Hr].
      * apply Z.leb_gt in Hr. lia.
      * apply Z.ltb_ge in Hr. lia.
  - rewrite species_step_skip by exact H. reflexivity.
Qed.

(** ** The loop over the species *)

Lemma check_conv_ext (e : Env) (a b : State) (m : double) (i : Z) :
  nXYZ a = nXYZ b -> ghost a = ghost b ->
  (forall grid, nuGrid a grid i = nuGrid b grid i) ->
  (forall grid, nuPrev a i grid = nuPrev b i grid) ->
  check_conv e a m i = check_conv e b m i.
Proof.
  intros Hn Hg Hc Hp. unfold check_conv. rewrite Hn, Hg.
  apply for_loop_ext. intros k p _. unfold conv_ratio.
  now rewrite Hc, Hp.
Qed.

Lemma max_all_ext (a b : State) (i : Z) :
  nXYZ a = nXYZ b ->
  (forall grid, nuGrid a grid i = nuGrid b grid i) ->
  max_all a i = max_all b i.
Proof.
  intros Hn Hc. unfold max_all, max_conc. rewrite Hn.
  apply for_loop_ext. intros k m _. now rewrite Hc.
Qed.

Section Species.

Variable e : Env.
Variable nuConv : Z -> bool.

Lemma species_loop_static (lo hi : Z) (sc : State * (Z -> bool)) :
  static_eq (fst sc) (fst (for_loop lo hi (species_step e nuConv) sc)).
Proof.
  apply (for_loop_ind (fun a => static_eq (fst sc) (fst a))).
  - apply static_eq_refl.
  - intros k a _ Ha. eapply static_eq_trans; [exact Ha|].
    apply species_step_static.
Qed.

(** The data of a species outside the range of the loop, or not
    processed, are left alone. *)
Lemma species_loop_other (lo hi : Z) (sc : State * (Z -> bool)) (i : Z) :
  ~ lo <= i < hi \/ processed e nuConv i = false ->
  (forall grid, nuGrid (fst (for_loop lo hi (species_step e nuConv) sc)) grid i
                = nuGrid (fst sc) grid i)
  /\ (forall grid, nuPrev (fst (for_loop lo hi (species_step e nuConv) sc)) i grid
                   = nuPrev (fst sc) i grid)
  /\ snd (for_loop lo hi (species_step e nuConv) sc) i = snd sc i.
Proof.
  intro H.
  apply (for_loop_ind
           (fun a => (forall grid, nuGrid (fst a) grid i = nuGrid (fst sc) grid i)
                     /\ (forall grid, nuPrev (fst a) i grid
                                      = nuPrev (fst sc) i grid)
                     /\ snd a i = snd sc i)).
  - auto.
  - intros k a Hk (H1 & H2 & H3).
    destruct (Z.eq_dec k i) as [->|Hne].
    + destruct H as [H|H]; [lia|].
      rewrite species_step_skip by exact H. auto.
    + destruct (species_step_other e nuConv k i a) as (G1 & G2 & G3);
        [congruence|].
      split; [|split].
      * intro grid. now rewrite G1.
      * intro grid. now rewrite G2.
      * now rewrite G3.
Qed.


(** The flag of a processed species after the loop: started from [true]
    it is the outcome of "check convergence criteria" on the final
    state. *)
Lemma species_loop_conv (lo hi : Z) (s : State) (conv : Z -> bool) (i : Z) :
  lo <= i < hi ->
  processed e nuConv i = true ->
  let r := for_loop lo hi (species_step e nuConv) (s, conv) in
  snd r i = conv i && check_conv e (fst r) (MAX d0 (max_all (fst r) i)) i.
Proof.
  intros Hi Hp. cbv zeta.
  apply (for_loop_at
           (fun a => snd a i = conv i)
           (fun a => snd a i
                     = conv i && check_conv e (fst a) (MAX d0 (max_all (fst a) i)) i)
           lo i hi); auto.
  - intros k a Hk Ha.
    destruct (species_step_other e nuConv k i a) as (_ & _ & G3); [lia|].
    now rewrite G3.
  - intros [a c] Ha. cbn [snd] in Ha.
    rewrite species_step_run by exact Hp. cbn [fst snd].
    rewrite upd_same, Ha. reflexivity.
  - intros k a Hk Ha.
    destruct (species_step_other e nuConv k i a) as (G1 & G2 & G3); [lia|].
    pose proof (species_step_static e nuConv k a) as (Hn & _ & Hg & _).
    rewrite G3, Ha. f_equal.
    rewrite (max_all_ext (fst (species_step e nuConv k a)) (fst a) i)
      by (auto; congruence).
    apply check_conv_ext; auto; congruence.
Qed.

Lemma species_loop_db (lo hi : Z) (s : State) (conv : Z -> bool) (i grid : Z) :
  zbcflag e = 5 ->
  ghost s grid = true ->
  in_plane_closed e s grid = true ->
  nuGrid (fst (for_loop lo hi (species_step e nuConv) (s, conv))) grid i
  = if (lo <=? i) && (i <? hi) && processed e nuConv i
       && (0 <=? grid) && (grid <? nXYZ s)
    then clamp (nuGrid s grid i)
    else nuGrid s grid i.
Proof.
  intros H5 Hg Hpl.
  destruct ((lo <=? i) && (i <? hi) && processed e nuConv i) eqn:Hc.
  - apply andb_prop in Hc. destruct Hc as [Hc Hp].
    apply andb_prop in Hc. destruct Hc as [Hc1 Hc2].
    apply Z.leb_le in Hc1. apply Z.ltb_lt in Hc2. cbn [andb].
    apply (for_loop_at
             (fun a => static_eq s (fst a)
                       /\ nuGrid (fst a) grid i = nuGrid s grid i)
             (fun a => nuGrid (fst a) grid i
                       = if (0 <=? grid) && (grid <? nXYZ s)
                         then clamp (nuGrid s grid i) else nuGrid s grid i)
             lo i hi); auto.
    + split; [apply static_eq_refl | reflexivity].
    + intros k a Hk [Ha1 Ha2]. split.
      * eapply static_eq_trans; [exact Ha1 | apply species_step_static].
      * destruct (species_step_other e nuConv k i a) as (G1 & _); [lia|].
        now rewrite G1.
    + intros [a c] [(Hn & _ & Hgh & _) Ha2]. cbn [fst] in *.
      rewrite species_step_db.
      * rewrite Hp, <- Hn, Ha2. reflexivity.
      * exact H5.
      * congruence.
      * rewrite <- Hpl. apply in_plane_closed_ghost. congruence.
    + intros k a Hk Ha.
      destruct (species_step_other e nuConv k i a) as (G1 & _); [lia|].
      now rewrite G1.
  - cbn [andb].
    destruct (species_loop_other lo hi (s, conv) i) as (G1 & _).
    + apply andb_false_iff in Hc. destruct Hc as [Hc|Hc]; [|now right].
      left. apply andb_false_iff in Hc. destruct Hc as [Hc|Hc].
      * apply Z.leb_gt in Hc. lia.
      * apply Z.ltb_ge in Hc. lia.
    + apply G1.
Qed.

End Species.

(** ** The stages before the loop over the species *)

Lemma pack_cells_frame (e : Env) (n : Z) (s : State) :
  static_eq s (pack_cells e n s) /\ nuGrid (pack_cells e n s) = nuGrid s
  /\ nuR (pack_cells e n s) = nuR s.
Proof.
  unfold pack_cells.
  apply (for_loop_ind
           (fun a => static_eq s a /\ nuGrid a = nuGrid s /\ nuR a = nuR s)).
  - split; [apply static_eq_refl | split; reflexivity].
  - intros c a _ Ha.
    apply (for_loop_ind
             (fun a => static_eq s a /\ nuGrid a = nuGrid s /\ nuR a = nuR s)).
    + exact Ha.
    + intros k b _ (H1 & H2 & H3). split; [|split; assumption].
      eapply static_eq_trans; [exact H1 | static].
Qed.

Lemma unpack_cells_frame (e : Env) (recvbuff : Z -> double) (n : Z) (s : State) :
  static_eq s (unpack_cells e recvbuff n s)
  /\ nuR (unpack_cells e recvbuff n s) = nuR s
  /\ forall grid i,
       (forall c, 0 <= c < n -> recvcells e c <> grid) ->
       nuGrid (unpack_cells e recvbuff n s) grid i = nuGrid s grid i.
Proof.
  unfold unpack_cells.
  apply (for_loop_ind
           (fun a => static_eq s a /\ nuR a = nuR s
                     /\ forall grid i,
                          (forall c, 0 <= c < n -> recvcells e c <> grid) ->
                          nuGrid a grid i = nuGrid s grid i)).
  - split; [apply static_eq_refl | split; reflexivity].
  - intros c a Hc Ha.
    apply (for_loop_ind
             (fun a => static_eq s a /\ nuR a = nuR s
                       /\ forall grid i,
                            (forall c, 0 <= c < n -> recvcells e c <> grid) ->
                            nuGrid a grid i = nuGrid s grid i)).
    + exact Ha.
    + intros k b _ (H1 & H2 & H3). split; [|split].
      * eapply static_eq_trans; [exact H1 | static].
      * exact H2.
      * intros grid i Hr. cbn [nuGrid set_nuGrid].
        rewrite upd2_other; [now apply H3|].
        left. intro E. apply (Hr c Hc). now symmetry.
Qed.

Lemma set_boundary_frame (e : Env) (iter i : Z) (s : State) :
  nXYZ (set_boundary e iter i s) = nXYZ s
  /\ ghost (set_boundary e iter i s) = ghost s
  /\ nuGrid (set_boundary e iter i s) = nuGrid s
  /\ nuR (set_boundary e iter i s) = nuR s
  /\ forall i', i' <> i -> nuBS (set_boundary e iter i s) i' = nuBS s i'.
Proof.
  unfold set_boundary, compute_bulk.
  destruct (unit_flag e =? 0);
    destruct ((iter =? 1) && negb (nuName e i =? "o2")%string
              && dge (q e) d0 && dge (af e) d0);
    cbn; repeat split; try reflexivity;
      intros i' Hi; now rewrite upd_other.
Qed.

Lemma boundary_loop_frame (e : Env) (iter lo hi : Z) (s : State) :
  let s' := for_loop lo hi (set_boundary e iter) s in
  nXYZ s' = nXYZ s /\ ghost s' = ghost s /\ nuGrid s' = nuGrid s
  /\ nuR s' = nuR s.
Proof.
  cbv zeta.
  apply (for_loop_ind
           (fun a => nXYZ a = nXYZ s /\ ghost a = ghost s
                     /\ nuGrid a = nuGrid s /\ nuR a = nuR s)).
  - auto.
  - intros k a _ (H1 & H2 & H3 & H4).
    destruct (set_boundary_frame e iter k a) as (G1 & G2 & G3 & G4 & _).
    repeat split; congruence.
Qed.

(** The array [conv] after its initialisation. *)
Lemma conv_init (n i : Z) :
  0 <= i <= n ->
  for_loop 0 (n + 1) (fun i c => upd c i true) (fun _ => false) i = true.
Proof.
  intro H.
  apply (for_loop_at (fun _ => True) (fun c : Z -> bool => c i = true)
                     0 i (n + 1)); auto; try lia.
  - intros a _. apply upd_same.
  - intros k a Hk Ha. rewrite upd_other by lia. exact Ha.
Qed.

(** [diffusion] is its loop over the species, run on the state the
    earlier stages prepare. *)
Lemma diffusion_unfold (e : Env) (recvbuff : Z -> double) (nuConv : Z -> bool)
    (iter : Z) (diffT_ : double) (s : State) :
  diffusion e recvbuff nuConv iter diffT_ s
  = for_loop 1 (nnus e + 1) (species_step e nuConv)
      (prepared e recvbuff iter diffT_ s,
       for_loop 0 (nnus e + 1) (fun i c => upd c i true) (fun _ => false)).
Proof. reflexivity. Qed.

Lemma prepared_frame (e : Env) (recvbuff : Z -> double) (iter : Z)
    (diffT_ : double) (s : State) :
  let s0 := grids_stage e iter s in
  let s4 := prepared e recvbuff iter diffT_ s in
  nXYZ s4 = nXYZ s0 /\ ghost s4 = ghost s0
  /\ forall grid i,
       (forall c, 0 <= c < recvend e (nprocs e - 1) -> recvcells e c <> grid) ->
       nuGrid s4 grid i = nuGrid s grid i.
Proof.
  cbv zeta. unfold prepared.
  set (s0 := grids_stage e iter s).
  set (s1 := set_diffT diffT_ s0).
  set (s2 := pack_cells e (sendend e (nprocs e - 1)) s1).
  set (s3 := unpack_cells e recvbuff (recvend e (nprocs e - 1)) s2).
  destruct (boundary_loop_frame e iter 1 (nnus e + 1) s3) as (A1 & A2 & A3 & _).
  destruct (unpack_cells_frame e recvbuff (recvend e (nprocs e - 1)) s2)
    as ((B1 & _ & B2 & _) & _ & B3).
  destruct (pack_cells_frame e (sendend e (nprocs e - 1)) s1)
    as ((C1 & _ & C2 & _) & C3 & _).
  fold s3 in B1, B2, B3. fold s2 in C1, C2, C3.
  assert (D1 : nuGrid s0 = nuGrid s).
  { unfold s0, grids_stage. destruct ((iter =? 1) && dgt (bl e) d0); reflexivity. }
  split; [|split].
  - rewrite A1, <- B1, <- C1. reflexivity.
  - rewrite A2, <- B2, <- C2. reflexivity.
  - intros grid i Hr. rewrite A3, B3 by exact Hr. rewrite C3.
    change (nuGrid s1) with (nuGrid s0). now rewrite D1.
Qed.

(** * Positivity of the concentrations *)



(** * The convergence test *)

Lemma check_fold (gh t : Z -> bool) (l : list Z) (b : bool) :
  fold_left (fun p grid => if negb (gh grid) then p && t grid else p) l b
  = b && forallb (fun grid => gh grid || t grid) l.
Proof.
  revert b. induction l as [|g l IH]; intro b; cbn [fold_left forallb].
  - now rewrite andb_true_r.
  - rewrite IH. destruct (gh g); cbn [negb orb andb].
    + reflexivity.
    + now rewrite andb_assoc.
Qed.

Lemma forallb_eq {A : Type} (f g : A -> bool) (l : list A) :
  (forall x, f x = g x) -> forallb f l = forallb g l.
Proof.
  intro H. induction l as [|x l IH]; cbn [forallb]; [reflexivity|].
  now rewrite H, IH.
Qed.

Lemma forallb_of_map {A B : Type} (f : A -> B) (g : B -> bool) (l : list A) :
  forallb g (map f l) = forallb (fun x => g (f x)) l.
Proof.
  induction l as [|x l IH]; cbn [map forallb]; [reflexivity|].
  now rewrite IH.
Qed.

Lemma check_conv_forallb (e : Env) (s : State) (m : double) (i : Z) :
  check_conv e s m i
  = forallb (fun grid => ghost s grid || dlt (conv_ratio e s m i grid) (tol e))
            (range 0 (nXYZ s)).
Proof. unfold check_conv, for_loop. now rewrite check_fold. Qed.

Lemma max_conc_ge (c : Z -> double) (lo hi : Z) (m0 : double) :
  (m0 <= max_conc c lo hi m0)%Qc.
Proof.
  unfold max_conc.
  apply (for_loop_ind (fun m => (m0 <= m)%Qc)).
  - apply Qcle_refl.
  - intros k m _ Hm. destruct (dlt m (c k)) eqn:E; [|exact Hm].
    apply dlt_true in E. apply Qclt_le_weak.
    eapply Qcle_lt_trans; eassumption.
Qed.

Lemma MAX_max_all (s : State) (i : Z) : MAX d0 (max_all s i) = max_all s i.
Proof.
  unfold MAX, dgt. destruct (dlt (max_all s i) d0) eqn:E; [|reflexivity].
  apply dlt_true in E. exfalso.
  exact (Qclt_not_le _ _ E (max_conc_ge _ 0 (nXYZ s) d0)).
Qed.

(** The flag [conv[i]] of a processed species is the outcome of the test
    with the maximum over all the cells. *)
Lemma diffusion_local_flag (e : Env) (recvbuff : Z -> double)
    (nuConv : Z -> bool) (iter : Z) (diffT_ : double) (s : State) (i : Z) :
  1 <= i <= nnus e ->
  processed e nuConv i = true ->
  rflag e = 0 ->
  let r := diffusion e recvbuff nuConv iter diffT_ s in
  snd r i = local_flag e (fst r) i (max_all (fst r) i).
Proof.
  intros Hi Hp Hr. cbv zeta. rewrite diffusion_unfold.
  pose proof (species_loop_conv e nuConv 1 (nnus e + 1)
                (prepared e recvbuff iter diffT_ s)
                (for_loop 0 (nnus e + 1) (fun i c => upd c i true)
                          (fun _ => false)) i) as H.
  cbv zeta in H. rewrite H by (auto; lia).
  rewrite conv_init by lia. cbn [andb].
  rewrite MAX_max_all, check_conv_forallb. unfold local_flag.
  apply forallb_eq. intro g. unfold conv_ratio, ratio_spec.
  rewrite Hr. reflexivity.
Qed.

(** The reduction. *)
Lemma allreduce_band_forallb (l : list bool) (acc : Z) :
  acc = -1 \/ acc = 1 \/ acc = 0 ->
  negb (fold_left Z.land (map Z.b2z l) acc =? 0)
  = negb (acc =? 0) && forallb (fun b => b) l.
Proof.
  revert acc. induction l as [|b l IH]; intros acc Ha; cbn [map fold_left forallb].
  - now rewrite andb_true_r.
  - rewrite IH.
    + destruct b; cbn [Z.b2z andb];
        destruct Ha as [ -> | [ -> | -> ] ]; reflexivity.
    + destruct b; cbn [Z.b2z];
        destruct Ha as [ -> | [ -> | -> ] ]; cbn; auto.
Qed.

Lemma reduce_flags_at (e : Env) (convs : list (Z -> bool)) (nuConv : Z -> bool)
    (i : Z) :
  reduce_flags e convs nuConv i
  = if (1 <=? i) && (i <=? nnus e)
    then forallb (fun conv : Z -> bool => conv i) convs
    else nuConv i.
Proof.
  unfold reduce_flags.
  destruct ((1 <=? i) && (i <=? nnus e)) eqn:Hr.
  - apply andb_prop in Hr. destruct Hr as [H1 H2].
    apply Z.leb_le in H1. apply Z.leb_le in H2.
    apply (for_loop_at (fun _ => True)
             (fun a : Z -> bool =>
                a i = forallb (fun conv : Z -> bool => conv i) convs)
             1 i (nnus e + 1)); auto; try lia.
    + intros a _. rewrite upd_same. unfold allreduce_band.
      rewrite <- (map_map (fun conv : Z -> bool => conv i) Z.b2z).
      rewrite allreduce_band_forallb by auto.
      cbn [Z.eqb negb andb]. now rewrite forallb_of_map.
    + intros k a Hk Ha. rewrite upd_other by lia. exact Ha.
  - apply (for_loop_ind (fun a : Z -> bool => a i = nuConv i)); auto.
    intros k a Hk Ha. rewrite upd_other; [exact Ha|].
    apply andb_false_iff in Hr. destruct Hr as [Hr|Hr].
    + apply Z.leb_gt in Hr. lia.
    + apply Z.leb_gt in Hr. lia.
Qed.

Lemma combine_map_r {A B : Type} (f : A -> B) (l : list A) :
  combine l (map f l) = map (fun x => (x, f x)) l.
Proof.
  induction l as [|x l IH]; cbn [map combine]; [reflexivity|].
  now rewrite IH.
Qed.

(** The processes after a call made by all of them. *)
Lemma diffusion_all_elim (iter : Z) (diffT_ : double) (ps : list Proc)
    (p' : Proc) :
  In p' (diffusion_all iter diffT_ ps) ->
  exists p,
    In p ps /\ p_env p' = p_env p
    /\ p_nuConv p'
       = reduce_flags (p_env p)
           (map (fun p0 => snd (diffusion (p_env p0) (p_recv p0) (p_nuConv p0)
                                          iter diffT_ (p_state p0))) ps)
           (p_nuConv p).
Proof.
  unfold diffusion_all. rewrite combine_map_r, !map_map.
  intro H. apply in_map_iff in H. destruct H as [p [E Hp]].
  exists p. subst p'. cbn. auto.
Qed.

Lemma diffusion_all_flag (iter : Z) (diffT_ : double) (ps : list Proc)
    (p' : Proc) (i : Z) :
  In p' (diffusion_all iter diffT_ ps) ->
  1 <= i <= nnus (p_env p') ->
  p_nuConv p' i
  = forallb (fun p => snd (diffusion (p_env p) (p_recv p) (p_nuConv p)
                                     iter diffT_ (p_state p)) i) ps.
Proof.
  intros H Hi. apply diffusion_all_elim in H.
  destruct H as [p (Hp & He & Hf)]. rewrite Hf, reduce_flags_at.
  rewrite He in Hi.
  replace ((1 <=? i) && (i <=? nnus (p_env p))) with true
    by (symmetry; apply andb_true_iff; split; apply Z.leb_le; lia).
  now rewrite forallb_of_map.
Qed.

(** C2 as stated fails: with boundary value 1000 around a true cell that
    goes from 1 to 7997/5000, the maximum over the true cells is 7997/5000
    and gives a ratio above the tolerance 1/100, whereas the code divides
    by 1999, the value of a ghost cell, and sets the flag. *)
Lemma diffusion_convergence_counterexample :
  let e := rich_env in
  let r := diffusion e (fun _ => d0) (fun _ => false) 1 (Q2Qc (1 # 10))
                     rich_state in
  (1 <= 1 <= nnus e /\ nuType e 1 = 0 /\ rflag e = 0)
  /\ max_true (fst r) 1 = Q2Qc (7997 # 5000)
  /\ max_all (fst r) 1 = Q2Qc (1999 # 1)
  /\ snd r 1 = true
  /\ local_flag e (fst r) 1 (max_true (fst r) 1) = false.
Proof.
  intros e r.
  split; [split; [vm_compute; split; discriminate | split; reflexivity]|].
  split; [qc_eq|]. split; [qc_eq|].
  split; vm_compute; reflexivity.
Qed.

(** C2, amended.  For a species the call processes, the local flag
    [conv[i]] is true exactly when every true cell has a ratio
    [|c_new/maxC - c_prev/maxC|] below [tol], where [maxC] is the maximum
    of 0 and of the concentrations the call leaves in all the cells of
    the local array, ghost cells included, and is replaced by 1 when it
    is 0; the flag every process ends with is the conjunction of the
    local flags of all the processes. *)
Theorem diffusion_convergence :
  (forall e recvbuff nuConv iter diffT_ s i,
      1 <= i <= nnus e ->
      nuType e i = 0 ->
      nuConv i = false ->
      rflag e = 0 ->
      let r := diffusion e recvbuff nuConv iter diffT_ s in
      snd r i = local_flag e (fst r) i (max_all (fst r) i))
  /\ (forall iter diffT_ ps p' i,
         In p' (diffusion_all iter diffT_ ps) ->
         1 <= i <= nnus (p_env p') ->
         p_nuConv p' i
         = forallb (fun p => snd (diffusion (p_env p) (p_recv p) (p_nuConv p)
                                            iter diffT_ (p_state p)) i) ps).
Proof.
  split.
  - intros e recvbuff nuConv iter diffT_ s i Hi Ht Hc Hr.
    apply diffusion_local_flag; auto.
    unfold processed. now rewrite Ht, Hc.
  - intros. now apply diffusion_all_flag.
Qed.

Lemma diffusion_convergence_witness :
  let e := rich_env in
  let nuConv := fun _ : Z => false in
  let r := diffusion e (fun _ => d0) nuConv 1 (Q2Qc (1 # 10)) rich_state in
  let ps := [single e rich_state nuConv] in
  let p' := {| p_env := e; p_recv := fun _ => d0; p_state := fst r;
               p_nuConv := reduce_flags e [snd r] nuConv |} in
  (1 <= 1 <= nnus e /\ nuType e 1 = 0 /\ nuConv 1 = false /\ rflag e = 0
   /\ snd r 1 = local_flag e (fst r) 1 (max_all (fst r) 1))
  /\ (In p' (diffusion_all 1 (Q2Qc (1 # 10)) ps)
      /\ 1 <= 1 <= nnus (p_env p')
      /\ p_nuConv p' 1 = snd r 1 && true).
Proof.
  intros e nuConv r ps p'.
  assert (H1 : 1 <= 1 <= nnus e) by (vm_compute; split; discriminate).
  split.
  - split; [exact H1|]. repeat (split; [reflexivity|]).
    apply (proj1 diffusion_convergence e (fun _ => d0) nuConv 1
                 (Q2Qc (1 # 10)) rich_state 1); auto.
  - assert (Hin : In p' (diffusion_all 1 (Q2Qc (1 # 10)) ps))
      by (left; reflexivity).
    split; [exact Hin|]. split; [exact H1|].
    apply (proj2 diffusion_convergence 1 (Q2Qc (1 # 10)) ps p' 1 Hin H1).
Defined.

(** * The bulk mass balance *)

Lemma set_boundary_bulk (e : Env) (iter i : Z) (s : State) :
  nuBS (set_boundary e iter i s) i
  = if bulk_eligible e iter i
    then (nuBS s i
          + ((q e / rvol e) * (feed e i - nuBS s i)
             + (af e / (rvol e * yhi e * xhi e))
               * local_sumR e s i * stepx e * stepy e * stepz e)
            * dt e * d_of_Z (nevery e))%Qc
    else nuBS s i.
Proof.
  unfold set_boundary. fold (bulk_eligible e iter i).
  destruct (bulk_eligible e iter i); unfold feed, local_sumR, compute_bulk;
    destruct (unit_flag e =? 0); cbn [nuBS set_nuBS set_bc zbcp nuR];
      rewrite ?upd_same; reflexivity.
Qed.

Lemma diffusion_bulk (e : Env) (recvbuff : Z -> double) (nuConv : Z -> bool)
    (iter : Z) (diffT_ : double) (s : State) (i : Z) :
  1 <= i <= nnus e ->
  nuBS (fst (diffusion e recvbuff nuConv iter diffT_ s)) i
  = if bulk_eligible e iter i then local_bulk_step e s i else nuBS s i.
Proof.
  intro Hi. rewrite diffusion_unfold.
  pose proof (species_loop_static e nuConv 1 (nnus e + 1)
                (prepared e recvbuff iter diffT_ s,
                 for_loop 0 (nnus e + 1) (fun i c => upd c i true)
                          (fun _ => false))) as (_ & _ & _ & _ & Hb & _).
  cbn [fst] in Hb. rewrite <- Hb. clear Hb.
  unfold prepared.
  set (s0 := grids_stage e iter s).
  set (s1 := set_diffT diffT_ s0).
  set (s2 := pack_cells e (sendend e (nprocs e - 1)) s1).
  set (s3 := unpack_cells e recvbuff (recvend e (nprocs e - 1)) s2).
  assert (H3 : nuBS s3 = nuBS s /\ nuR s3 = nuR s).
  { destruct (unpack_cells_frame e recvbuff (recvend e (nprocs e - 1)) s2)
      as ((_ & _ & _ & _ & B1 & _) & B2 & _).
    destruct (pack_cells_frame e (sendend e (nprocs e - 1)) s1)
      as ((_ & _ & _ & _ & C1 & _) & _ & C2).
    fold s3 in B1, B2. fold s2 in C1, C2.
    assert (D : nuBS s0 = nuBS s /\ nuR s0 = nuR s).
    { unfold s0, grids_stage.
      destruct ((iter =? 1) && dgt (bl e) d0); split; reflexivity. }
    destruct D as [D1 D2].
    split.
    - rewrite <- B1, <- C1. exact D1.
    - rewrite B2, C2. exact D2. }
  destruct H3 as [Hbs HR].
  apply (for_loop_at
           (fun a => nuBS a i = nuBS s i /\ nuR a = nuR s)
           (fun a => nuBS a i
                     = if bulk_eligible e iter i then local_bulk_step e s i
                       else nuBS s i)
           1 i (nnus e + 1)); try lia.
  - now rewrite Hbs, HR.
  - intros k a Hk [Ha1 Ha2].
    destruct (set_boundary_frame e iter k a) as (_ & _ & _ & G4 & G5).
    split; [rewrite G5 by lia; exact Ha1 | congruence].
  - intros a [Ha1 Ha2]. rewrite set_boundary_bulk.
    destruct (bulk_eligible e iter i); [|exact Ha1].
    unfold local_bulk_step, local_sumR. rewrite Ha1, Ha2.
    unfold Qcdiv. rewrite !Qcinv_mult_distr. ring.
  - intros k a Hk Ha.
    destruct (set_boundary_frame e iter k a) as (_ & _ & _ & _ & G5).
    rewrite G5 by lia. exact Ha.
Qed.

(** On one process: a call made with [iter = 1] advances the bulk
    concentration of an eligible species by the step made with the sum of
    the process's own rates; a call with another value of [iter], and a
    call for a species that is not eligible, leave it as it was. *)
Lemma diffusion_bulk_cases (e : Env) (recvbuff : Z -> double)
    (nuConv : Z -> bool) (iter : Z) (diffT_ : double) (s : State) (i : Z) :
  1 <= i <= nnus e ->
  let s' := fst (diffusion e recvbuff nuConv iter diffT_ s) in
  (nuName e i <> "o2"%string -> (d0 <= q e)%Qc -> (d0 <= af e)%Qc ->
   iter = 1 -> nuBS s' i = local_bulk_step e s i)
  /\ (nuName e i <> "o2"%string -> (d0 <= q e)%Qc -> (d0 <= af e)%Qc ->
      iter <> 1 -> nuBS s' i = nuBS s i)
  /\ (nuName e i = "o2"%string \/ (q e < d0)%Qc \/ (af e < d0)%Qc ->
      nuBS s' i = nuBS s i).
Proof.
  intros Hi s'. unfold s'. rewrite diffusion_bulk by exact Hi.
  unfold bulk_eligible, dge. split; [|split].
  - intros Hn Hq Ha ->. apply String.eqb_neq in Hn.
    apply dle_true in Hq. apply dle_true in Ha.
    now rewrite Hn, Hq, Ha.
  - intros _ _ _ Hit. apply Z.eqb_neq in Hit. now rewrite Hit.
  - intros [Hn|[Hq|Ha]].
    + apply String.eqb_eq in Hn. rewrite Hn.
      now rewrite andb_false_r.
    + apply dle_false in Hq. rewrite Hq.
      now rewrite andb_false_r.
    + apply dle_false in Ha. rewrite Ha.
      now rewrite andb_false_r.
Qed.

Lemma diffusion_all_pair (iter : Z) (diffT_ : double) (p1 p2 : Proc) :
  diffusion_all iter diffT_ [p1; p2]
  = let l1 := diffusion (p_env p1) (p_recv p1) (p_nuConv p1) iter diffT_
                        (p_state p1) in
    let l2 := diffusion (p_env p2) (p_recv p2) (p_nuConv p2) iter diffT_
                        (p_state p2) in
    [ {| p_env := p_env p1; p_recv := p_recv p1; p_state := fst l1;
         p_nuConv := reduce_flags (p_env p1) [snd l1; snd l2] (p_nuConv p1) |};
      {| p_env := p_env p2; p_recv := p_recv p2; p_state := fst l2;
         p_nuConv := reduce_flags (p_env p2) [snd l1; snd l2] (p_nuConv p2) |} ].
Proof. reflexivity. Qed.

Lemma bulk_eligible_true (e : Env) (i : Z) :
  nuName e i <> "o2"%string -> (d0 <= q e)%Qc -> (d0 <= af e)%Qc ->
  bulk_eligible e 1 i = true.
Proof.
  intros Hn Hq Ha. unfold bulk_eligible, dge.
  apply String.eqb_neq in Hn. apply dle_true in Hq. apply dle_true in Ha.
  now rewrite Hn, Hq, Ha.
Qed.

(** C6, on the code.  In a call of [diffusion] made with [iter = 1] by
    two processes, each process advances its copy of the bulk
    concentration of an eligible species by the explicit Euler step in
    which the total reaction rate is the sum over its own array [nuR]:
    the rates of the other process do not enter.  Two processes that
    hold the same reactor and the same bulk concentration, and whose own
    sums differ, end with different bulk concentrations, and a process
    ends with a value other than the step made with the sum of both
    whenever the sum of the other process is not zero. *)
Theorem diffusion_bulk_not_reduced (diffT_ : double) (p1 p2 : Proc) (i : Z) :
  let e := p_env p1 in
  let bulk := nuBS (p_state p1) i in
  let T1 := local_sumR e (p_state p1) i in
  let T2 := local_sumR (p_env p2) (p_state p2) i in
  let K :=
    (af e / (rvol e * (yhi e * xhi e)) * (stepx e * stepy e * stepz e)
     * (dt e * d_of_Z (nevery e)))%Qc in
  let step (T : double) :=
    (bulk
     + ((q e / rvol e) * (feed e i - bulk)
        + (af e / (rvol e * (yhi e * xhi e))) * T
          * (stepx e * stepy e * stepz e))
       * (dt e * d_of_Z (nevery e)))%Qc in
  same_reactor e (p_env p2) i ->
  nuName (p_env p2) i = nuName e i ->
  1 <= i <= nnus e -> 1 <= i <= nnus (p_env p2) ->
  nuName e i <> "o2"%string -> (d0 <= q e)%Qc -> (d0 <= af e)%Qc ->
  nuBS (p_state p2) i = bulk ->
  exists p1' p2',
    diffusion_all 1 diffT_ [p1; p2] = [p1'; p2']
    /\ nuBS (p_state p1') i = step T1
    /\ nuBS (p_state p2') i = step T2
    /\ (K <> d0 -> T1 <> T2 -> nuBS (p_state p1') i <> nuBS (p_state p2') i)
    /\ (K <> d0 -> T2 <> d0 -> nuBS (p_state p1') i <> step (T1 + T2)%Qc).
Proof.
  intros e bulk T1 T2 K step Hsame Hname Hi1 Hi2 Hn Hq Ha Hb.
  rewrite diffusion_all_pair. cbv zeta.
  eexists. eexists. split; [reflexivity|]. cbn [p_state].
  destruct Hsame as (S1 & S2 & S3 & S4 & S5 & S6 & S7 & S8 & S9 & S10 & S11).
  fold e in S1, S2, S3, S4, S5, S6, S7, S8, S9, S10, S11.
  assert (E1 : nuBS (fst (diffusion e (p_recv p1) (p_nuConv p1) 1 diffT_
                                    (p_state p1))) i = step T1).
  { rewrite diffusion_bulk by exact Hi1.
    rewrite (bulk_eligible_true e i Hn Hq Ha). reflexivity. }
  assert (E2 : nuBS (fst (diffusion (p_env p2) (p_recv p2) (p_nuConv p2) 1
                                    diffT_ (p_state p2))) i = step T2).
  { rewrite diffusion_bulk by exact Hi2.
    rewrite bulk_eligible_true;
      [| rewrite Hname; exact Hn | rewrite <- S1; exact Hq
       | rewrite <- S3; exact Ha].
    unfold local_bulk_step, step. fold T2.
    rewrite Hb, <- S1, <- S2, <- S3, <- S4, <- S5, <- S6, <- S7, <- S8, <- S9,
      <- S10, <- S11.
    reflexivity. }
  fold e. rewrite E1, E2.
  assert (Hdiff : forall a b, (step a - step b)%Qc = (K * (a - b))%Qc)
    by (intros a b; unfold step, K, Qcdiv; ring).
  assert (Hinj : forall a b, K <> d0 -> step a = step b -> a = b).
  { intros a b HK E.
    assert (Z0 : (K * (a - b))%Qc = 0%Qc)
      by (rewrite <- Hdiff, E; ring).
    apply Qcmult_integral in Z0. destruct Z0 as [Z0|Z0]; [contradiction|].
    replace a with ((a - b) + b)%Qc by ring. rewrite Z0. ring. }
  split; [reflexivity|]. split; [reflexivity|]. split.
  - intros HK Hne E. apply Hne. now apply Hinj.
  - intros HK Hne E. apply Hne.
    apply Hinj in E; [|exact HK].
    replace T2 with ((T1 + T2) - T1)%Qc by ring. rewrite <- E.
    change d0 with 0%Qc. ring.
Qed.

(** The domain of two cells cut between two processes, with the rates
    -1/4 and -3/4 in their cells: the step made with the total -1 gives
    3/2, the first process ends with 15/8 and the second with 13/8. *)
Lemma diffusion_bulk_not_reduced_witness :
  let p1 := half_proc 0 (Q2Qc (-1 # 4)) in
  let p2 := half_proc 1 (Q2Qc (-3 # 4)) in
  same_reactor (p_env p1) (p_env p2) 1
  /\ nuName (p_env p1) 1 <> "o2"%string
  /\ (d0 <= q (p_env p1))%Qc /\ (d0 <= af (p_env p1))%Qc
  /\ nuBS (p_state p2) 1 = nuBS (p_state p1) 1
  /\ exists p1' p2',
       diffusion_all 1 (Q2Qc (1 # 10)) [p1; p2] = [p1'; p2']
       /\ nuBS (p_state p1') 1 = Q2Qc (15 # 8)
       /\ nuBS (p_state p2') 1 = Q2Qc (13 # 8)
       /\ nuBS (p_state p1') 1 <> nuBS (p_state p2') 1
       /\ nuBS (p_state p1') 1 <> Q2Qc (3 # 2).
Proof.
  intros p1 p2.
  assert (H1 : same_reactor (p_env p1) (p_env p2) 1)
    by (repeat split; reflexivity).
  assert (H2 : nuName (p_env p1) 1 <> "o2"%string) by discriminate.
  assert (H3 : (d0 <= q (p_env p1))%Qc) by (vm_compute; discriminate).
  assert (H4 : (d0 <= af (p_env p1))%Qc) by (vm_compute; discriminate).
  assert (H5 : nuBS (p_state p2) 1 = nuBS (p_state p1) 1) by reflexivity.
  assert (Hi1 : 1 <= 1 <= nnus (p_env p1)) by (vm_compute; split; discriminate).
  assert (Hi2 : 1 <= 1 <= nnus (p_env p2)) by (vm_compute; split; discriminate).
  repeat match goal with |- _ /\ _ => split; [assumption|] end.
  destruct (diffusion_bulk_not_reduced (Q2Qc (1 # 10)) p1 p2 1 H1 eq_refl
              Hi1 Hi2 H2 H3 H4 H5) as (p1' & p2' & E & V1 & V2 & N1 & N2).
  exists p1', p2'. split; [exact E|].
  assert (HK : (af (p_env p1) / (rvol (p_env p1) * (yhi (p_env p1) * xhi (p_env p1)))
                * (stepx (p_env p1) * stepy (p_env p1) * stepz (p_env p1))
                * (dt (p_env p1) * d_of_Z (nevery (p_env p1))))%Qc <> d0)
    by qc_neq.
  split; [rewrite V1; qc_eq|]. split; [rewrite V2; qc_eq|].
  split.
  - apply N1; [exact HK | qc_neq].
  - intro E3. apply N2; [exact HK | qc_neq |].
    rewrite E3. qc_eq.
Defined.

(** The step of [reactor_env], run by one process:
    1 + ((1/2)*(3 - 1) - 1/4) = 7/4. *)
Lemma local_bulk_step_reactor :
  local_bulk_step reactor_env reactor_state 1 = Q2Qc (7 # 4).
Proof. qc_eq. Qed.

(** * Kind db on the z axis *)

(** One call: a ghost cell none of whose in-plane tests succeeds, and
    which the halo exchange does not write, keeps its value or has it
    replaced by [1e-20] when it is not positive. *)
Lemma diffusion_db (e : Env) (recvbuff : Z -> double) (nuConv : Z -> bool)
    (iter : Z) (diffT_ : double) (s : State) (i grid : Z) :
  zbcflag e = 5 ->
  not_received e grid ->
  ghost (grids_stage e iter s) grid = true ->
  in_plane_closed e (grids_stage e iter s) grid = true ->
  let v' := nuGrid (fst (diffusion e recvbuff nuConv iter diffT_ s)) grid i in
  v' = nuGrid s grid i \/ v' = clamp (nuGrid s grid i).
Proof.
  intros H5 Hr Hg Hp. cbv zeta. rewrite diffusion_unfold.
  destruct (prepared_frame e recvbuff iter diffT_ s) as (Hn & Hgh & Hv).
  rewrite species_loop_db.
  - rewrite (Hv grid i Hr).
    match goal with |- context [if ?b then _ else _] => destruct b end; auto.
  - exact H5.
  - congruence.
  - rewrite <- Hp. apply in_plane_closed_ghost. exact Hgh.
Qed.

Lemma run_db (e : Env) (i grid : Z) (calls : list Call) (s : State) :
  zbcflag e = 5 ->
  not_received e grid ->
  ghost_along e grid calls s ->
  forall v0,
    nuGrid s grid i = v0 \/ nuGrid s grid i = clamp v0 ->
    nuGrid (run e calls s) grid i = v0
    \/ nuGrid (run e calls s) grid i = clamp v0.
Proof.
  intros H5 Hr. revert s.
  induction calls as [|c calls IH]; intros s Hg v0 Hv; cbn [run]; [exact Hv|].
  cbn [ghost_along] in Hg. destruct Hg as [[Hg1 Hg2] Hg3].
  apply IH; [exact Hg3|].
  unfold call_diffusion.
  destruct (diffusion_db e (c_recv c) (c_nuConv c) (c_iter c) (c_diffT c)
                         (call_state c s) i grid H5 Hr Hg1 Hg2) as [E|E];
    rewrite E; change (nuGrid (call_state c s) grid i) with (nuGrid s grid i).
  - exact Hv.
  - destruct Hv as [->| ->]; [now right | right; apply clamp_idem].
Qed.

(** C9.  The constructor turns the kind "db" into [zbcflag = 5], for which
    [compute_bc] has no formula.  On a cell below or above the domain that
    is flagged as a ghost cell and whose z-layer holds no true cell next
    to it, [compute_bc] returns the stored value, or [1e-20] when that
    value is not positive; through any sequence of calls of [diffusion]
    such a cell, when the halo exchange does not write it, holds its
    initial value or [1e-20] in place of a non-positive initial value. *)
Theorem db_ghost_unchanged (e : Env) (i grid : Z) :
  parse_zbc "db" = inr 5
  /\ (zbcflag e = 5 ->
      z_face e grid = true ->
      (forall s nuCell nuPrev_i bulk,
          ghost s grid = true ->
          in_plane_closed e s grid = true ->
          compute_bc e s nuCell nuPrev_i grid bulk = clamp nuCell)
      /\ (forall calls s,
             not_received e grid ->
             ghost_along e grid calls s ->
             nuGrid (run e calls s) grid i = clamp (nuGrid s grid i)
             \/ nuGrid (run e calls s) grid i = nuGrid s grid i)).
Proof.
  split; [reflexivity|]. intros H5 Hz. split.
  - intros s nuCell nuPrev_i bulk _ Hp. now apply compute_bc_db.
  - intros calls s Hr Hg.
    destruct (run_db e i grid calls s H5 Hr Hg (nuGrid s grid i)); auto.
Qed.

Lemma db_ghost_unchanged_witness :
  let e := db_env in
  let calls := [db_call 1; db_call 2] in
  zbcflag e = 5 /\ z_face e 4 = true /\ not_received e 4
  /\ ghost_along e 4 calls db_state
  /\ ghost db_state 4 = true /\ in_plane_closed e db_state 4 = true
  /\ compute_bc e db_state d0 (fun _ => d1) 4 d2 = clamp d0
  /\ (nuGrid (run e calls db_state) 4 1 = clamp (nuGrid db_state 4 1)
      \/ nuGrid (run e calls db_state) 4 1 = nuGrid db_state 4 1).
Proof.
  intros e calls.
  assert (H5 : zbcflag e = 5) by reflexivity.
  assert (Hz : z_face e 4 = true) by reflexivity.
  assert (Hr : not_received e 4)
    by (intros c Hc; vm_compute in Hc; destruct Hc as [Hc1 Hc2];
        destruct c; [discriminate Hc2 | discriminate Hc2 | now elim Hc1]).
  assert (Hg : ghost_along e 4 calls db_state)
    by (vm_compute; repeat split; reflexivity).
  assert (Hgh : ghost db_state 4 = true) by reflexivity.
  assert (Hp : in_plane_closed e db_state 4 = true) by reflexivity.
  repeat (split; [assumption|]).
  destruct (proj2 (db_ghost_unchanged e 1 4) H5 Hz) as [A B].
  split.
  - apply A; assumption.
  - apply B; assumption.
Defined.

(** * Monotonicity of the convergence flags *)

(** A species that is not processed keeps the local flag [true]. *)
Lemma diffusion_skip_flag (e : Env) (recvbuff : Z -> double)
    (nuConv : Z -> bool) (iter : Z) (diffT_ : double) (s : State) (i : Z) :
  0 <= i <= nnus e ->
  processed e nuConv i = false ->
  snd (diffusion e recvbuff nuConv iter diffT_ s) i = true.
Proof.
  intros Hi Hp. rewrite diffusion_unfold.
  destruct (species_loop_other e nuConv 1 (nnus e + 1)
              (prepared e recvbuff iter diffT_ s,
               for_loop 0 (nnus e + 1) (fun i c => upd c i true)
                        (fun _ => false)) i) as (_ & _ & H); [now right|].
  rewrite H. cbn [snd]. now apply conv_init.
Qed.

Lemma diffusion_all_env (iter : Z) (diffT_ : double) (ps : list Proc)
    (p' : Proc) :
  In p' (diffusion_all iter diffT_ ps) -> exists p, In p ps /\ p_env p' = p_env p.
Proof.
  intro H. apply diffusion_all_elim in H. destruct H as [p (H1 & H2 & _)].
  eauto.
Qed.

(** A call in which every process skips species [i] leaves its flag
    true on every process. *)
Lemma diffusion_all_skip (iter : Z) (diffT_ : double) (ps : list Proc) (i : Z) :
  (forall p, In p ps ->
             1 <= i <= nnus (p_env p)
             /\ processed (p_env p) (p_nuConv p) i = false) ->
  forall p', In p' (diffusion_all iter diffT_ ps) -> p_nuConv p' i = true.
Proof.
  intros H p' Hp'.
  destruct (diffusion_all_env _ _ _ _ Hp') as [p [Hp He]].
  rewrite (diffusion_all_flag iter diffT_ ps p' i Hp')
    by (rewrite He; apply H; exact Hp).
  apply forallb_forall. intros p0 Hp0.
  destruct (H p0 Hp0) as [Hi Hs].
  apply diffusion_skip_flag; [lia | exact Hs].
Qed.

(** After a call the processes agree on the flag of every species. *)
Lemma diffusion_all_agree (iter : Z) (diffT_ : double) (ps : list Proc)
    (n i : Z) (p' p'' : Proc) :
  (forall p, In p ps -> nnus (p_env p) = n) ->
  1 <= i <= n ->
  In p' (diffusion_all iter diffT_ ps) ->
  In p'' (diffusion_all iter diffT_ ps) ->
  p_nuConv p' i = p_nuConv p'' i.
Proof.
  intros Hn Hi H' H''.
  destruct (diffusion_all_env _ _ _ _ H') as [p1 [Hp1 He1]].
  destruct (diffusion_all_env _ _ _ _ H'') as [p2 [Hp2 He2]].
  rewrite (diffusion_all_flag iter diffT_ ps p' i H')
    by (rewrite He1, (Hn p1 Hp1); exact Hi).
  rewrite (diffusion_all_flag iter diffT_ ps p'' i H'')
    by (rewrite He2, (Hn p2 Hp2); exact Hi).
  reflexivity.
Qed.

Lemma run_all_true (n i : Z) (calls : list CallAll) (ps : list Proc) :
  1 <= i <= n ->
  (forall c, In c calls -> keeps_flags c) ->
  (forall p, In p ps -> nnus (p_env p) = n /\ p_nuConv p i = true) ->
  forall p, In p (run_all calls ps) ->
            nnus (p_env p) = n /\ p_nuConv p i = true.
Proof.
  intros Hi. revert ps.
  induction calls as [|c calls IH]; intros ps Hk Hps; [exact Hps|].
  unfold run_all. cbn [fold_left]. apply IH.
  - intros c' Hc'. apply Hk. now right.
  - assert (Hb : forall p, In p (map (a_between c) ps) ->
                           nnus (p_env p) = n /\ p_nuConv p i = true).
    { intros p Hp. apply in_map_iff in Hp. destruct Hp as [p0 [<- Hp0]].
      destruct (Hk c (or_introl eq_refl) p0) as [K1 K2].
      destruct (Hps p0 Hp0) as [P1 P2]. split; congruence. }
    intros p' Hp'. split.
    + destruct (diffusion_all_env _ _ _ _ Hp') as [p [Hp He]].
      rewrite He. apply Hb. exact Hp.
    + apply (diffusion_all_skip (a_iter c) (a_diffT c)
                                (map (a_between c) ps) i); [|exact Hp'].
      intros p Hp. destruct (Hb p Hp) as [B1 B2]. split; [lia|].
      unfold processed. rewrite B2. apply andb_false_r.
Qed.

(** C10.  Once the flag of a species is true after a call of [diffusion],
    it is true on every process and every later call leaves it true, as
    long as nothing else writes the flags between the calls; and the flag
    of a species that is not a liquid is true after any call, whatever
    the fields hold. *)
Theorem flags_monotone (n i : Z) (iter : Z) (diffT_ : double)
    (ps : list Proc) :
  1 <= i <= n ->
  (forall p, In p ps -> nnus (p_env p) = n) ->
  (forall calls,
      (forall c, In c calls -> keeps_flags c) ->
      (exists p, In p (diffusion_all iter diffT_ ps) /\ p_nuConv p i = true) ->
      forall p, In p (run_all calls (diffusion_all iter diffT_ ps)) ->
                p_nuConv p i = true)
  /\ ((forall p, In p ps -> nuType (p_env p) i <> 0) ->
      forall p, In p (diffusion_all iter diffT_ ps) -> p_nuConv p i = true).
Proof.
  intros Hi Hn. split.
  - intros calls Hk [p1 [Hp1 Ht]] p Hp.
    apply (run_all_true n i calls (diffusion_all iter diffT_ ps) Hi Hk);
      [|exact Hp].
    intros p' Hp'. split.
    + destruct (diffusion_all_env _ _ _ _ Hp') as [p0 [Hp0 He]].
      rewrite He. now apply Hn.
    + rewrite (diffusion_all_agree iter diffT_ ps n i p' p1); auto.
  - intros Ht. apply diffusion_all_skip.
    intros p Hp. split; [rewrite (Hn p Hp); exact Hi|].
    unfold processed. specialize (Ht p Hp). apply Z.eqb_neq in Ht.
    now rewrite Ht.
Qed.

Lemma flags_monotone_witness :
  let e := ex_env 2 (fun _ => "sub"%string) (fun i => if i =? 2 then 1 else 0)
                  (fun _ _ => d1) 1 1 1 (fun _ => d1) d0 (Q2Qc (1 # 100)) d0 d0 in
  let s := ex_state (fun _ _ => d1) (fun _ => d1) (fun _ _ => d1) in
  let nuConv := fun _ : Z => false in
  let ps := [single e s nuConv] in
  let r := diffusion e (fun _ => d0) nuConv 1 (Q2Qc (1 # 10)) s in
  let p1 := {| p_env := e; p_recv := fun _ => d0; p_state := fst r;
               p_nuConv := reduce_flags e [snd r] nuConv |} in
  let calls := [{| a_iter := 2; a_diffT := Q2Qc (1 # 10);
                   a_between := fun p => p |}] in
  1 <= 2 <= 2
  /\ (forall p, In p ps -> nnus (p_env p) = 2)
  /\ (forall c, In c calls -> keeps_flags c)
  /\ (forall p, In p ps -> nuType (p_env p) 2 <> 0)
  /\ In p1 (diffusion_all 1 (Q2Qc (1 # 10)) ps)
  /\ p_nuConv p1 2 = true
  /\ (forall p, In p (run_all calls (diffusion_all 1 (Q2Qc (1 # 10)) ps)) ->
                p_nuConv p 2 = true).
Proof.
  intros e s nuConv ps r p1 calls.
  assert (Hi : 1 <= 2 <= 2) by lia.
  assert (Hn : forall p, In p ps -> nnus (p_env p) = 2)
    by (intros p [<-|[]]; reflexivity).
  assert (Hk : forall c, In c calls -> keeps_flags c)
    by (intros c [<-|[]] p; split; reflexivity).
  assert (Ht : forall p, In p ps -> nuType (p_env p) 2 <> 0)
    by (intros p [<-|[]]; discriminate).
  assert (Hin : In p1 (diffusion_all 1 (Q2Qc (1 # 10)) ps))
    by (left; reflexivity).
  destruct (flags_monotone 2 2 1 (Q2Qc (1 # 10)) ps Hi Hn) as [A B].
  pose proof (B Ht p1 Hin) as H1.
  repeat (split; [assumption|]).
  apply A; [exact Hk|]. exists p1. split; assumption.
Defined.

(** * The convergence loop *)

Section Loop.

Import Kinetics.

Context {World : Type}.
Variable k : Fix World.
Variable d :
  World -> (Z -> bool) -> Z -> double -> fallible (World * (Z -> bool)).
Hypothesis Hd : diffusion k = Some d.

Lemma all_converged_forallb (c : Z -> bool) :
  all_converged k c = forallb c (range 1 (nnus k + 1)).
Proof.
  unfold all_converged, for_loop.
  assert (G : forall l b,
             fold_left (fun (isConv : bool) (i : Z) =>
                          if negb (c i) then false else isConv) l b
             = b && forallb c l).
  { induction l as [|i l IH]; intro b; cbn [fold_left forallb].
    - now rewrite andb_true_r.
    - rewrite IH. destruct (c i), b; reflexivity. }
  now rewrite G.
Qed.

Lemma range_snoc (lo hi : Z) : lo <= hi -> range lo (hi + 1) = range lo hi ++ [hi].
Proof.
  intro H. rewrite (range_split lo hi (hi + 1)) by lia.
  now rewrite (range_nil (hi + 1) (hi + 1)) by lia.
Qed.

Lemma force_loop (lo : Z) (n : nat) (c : Z -> bool) (o : list Output) :
  let r :=
    for_loop lo (lo + Z.of_nat n)
      (fun i (acc : (Z -> bool) * list Output) =>
         let (nuConv, out) := acc in
         if negb (nuConv i)
         then (upd nuConv i true, out ++ [PrintName (nuName k i)])
         else (nuConv, out))
      (c, o) in
  (forall i, fst r i
             = if (lo <=? i) && (i <? lo + Z.of_nat n) then true else c i)
  /\ snd r
     = o ++ map (fun i => PrintName (nuName k i))
                (filter (fun i => negb (c i)) (range lo (lo + Z.of_nat n))).
Proof.
  induction n as [|n IH]; cbv zeta.
  - rewrite for_loop_nil by lia. rewrite range_nil by lia. cbn. split.
    + intro i.
      replace ((lo <=? i) && (i <? lo + 0)) with false; [reflexivity|].
      symmetry. apply andb_false_iff.
      destruct (Z.leb_spec lo i); [right; apply Z.ltb_ge; lia | now left].
    + now rewrite app_nil_r.
  - replace (lo + Z.of_nat (S n)) with (lo + Z.of_nat n + 1) by lia.
    set (hi := lo + Z.of_nat n) in *. cbv zeta in IH.
    rewrite for_loop_snoc by lia.
    match type of IH with
    | context [for_loop lo hi ?b ?s] => destruct (for_loop lo hi b s) as [a oa]
    end.
    cbn [fst snd] in IH. destruct IH as [IH1 IH2].
    assert (Ha : a hi = c hi).
    { rewrite IH1.
      replace (hi <? hi) with false by (symmetry; apply Z.ltb_irrefl).
      now rewrite andb_false_r. }
    rewrite range_snoc by lia. rewrite filter_app, map_app. cbn [filter].
    rewrite Ha. destruct (c hi) eqn:Ec; cbn [negb fst snd map].
    + split.
      * intro i. rewrite IH1.
        destruct (Z.eq_dec i hi) as [->|Hne].
        -- replace (hi <? hi) with false by (symmetry; apply Z.ltb_irrefl).
           replace (hi <? hi + 1) with true by (symmetry; apply Z.ltb_lt; lia).
           replace (lo <=? hi) with true by (symmetry; apply Z.leb_le; lia).
           now rewrite Ec.
        -- replace (i <? hi + 1) with (i <? hi); [reflexivity|].
           destruct (Z.ltb_spec i hi), (Z.ltb_spec i (hi + 1)); auto; lia.
      * now rewrite app_nil_r.
    + split.
      * intro i. destruct (Z.eq_dec i hi) as [->|Hne].
        -- rewrite upd_same.
           replace (hi <? hi + 1) with true by (symmetry; apply Z.ltb_lt; lia).
           replace (lo <=? hi) with true by (symmetry; apply Z.leb_le; lia).
           reflexivity.
        -- rewrite upd_other by exact Hne. rewrite IH1.
           replace (i <? hi + 1) with (i <? hi); [reflexivity|].
           destruct (Z.ltb_spec i hi), (Z.ltb_spec i (hi + 1)); auto; lia.
      * rewrite IH2. now rewrite <- app_assoc.
Qed.

Lemma force_converged_spec (c : Z -> bool) (o : list Output) :
  (forall i, fst (force_converged k c o) i
             = if (1 <=? i) && (i <=? nnus k) then true else c i)
  /\ snd (force_converged k c o)
     = o ++ map (fun i => PrintName (nuName k i)) (unconverged k c).
Proof.
  unfold force_converged, unconverged.
  destruct (Z_le_gt_dec 0 (nnus k)) as [Hn|Hn].
  - pose proof (force_loop 1 (Z.to_nat (nnus k)) c o) as H. cbv zeta in H.
    replace (1 + Z.of_nat (Z.to_nat (nnus k))) with (nnus k + 1) in H by lia.
    destruct H as [H1 H2]. split; [|exact H2].
    intro i. rewrite H1.
    replace (i <? nnus k + 1) with (i <=? nnus k); [reflexivity|].
    destruct (Z.leb_spec i (nnus k)), (Z.ltb_spec i (nnus k + 1)); auto; lia.
  - rewrite for_loop_nil by lia. rewrite range_nil by lia. cbn. split.
    + intro i.
      replace ((1 <=? i) && (i <=? nnus k)) with false; [reflexivity|].
      symmetry. apply andb_false_iff.
      destruct (Z.leb_spec 1 i); [right; apply Z.leb_gt; lia | now left].
    + now rewrite app_nil_r.
Qed.

(** With [diffusion] present a pass either ends the run or goes on to
    the test of the loop. *)
Lemma pass_cases (r : Run World) :
  (exists err, pass k r = inl err)
  \/ (exists w3 w4 c,
         d w3 (nuConv r) (iteration r + 1) (diffT k) = inr (w4, c)
         /\ pass k r = inr (after_pass k r w4 c, false)).
Proof.
  unfold pass. rewrite Hd.
  destruct (match ph k with
            | Some solve_ph => solve_ph (world r)
            | None => init_activity k (world r)
            end) as [err|w1]; [left; eauto|].
  destruct (call (thermo k) w1) as [err|w2]; [left; eauto|].
  destruct (call (option_map (fun growth => growth (diffT k)) (monod k)) w2)
    as [err|w3]; [left; eauto|].
  destruct (d w3 (nuConv r) (iteration r + 1) (diffT k)) as [err|[w4 c]] eqn:E;
    [left; eauto|].
  right. exists w3, w4, c. split; [exact E|].
  unfold after_pass.
  destruct (iteration r + 1 >? 10000); [|reflexivity].
  destruct (force_converged k c (out r)); reflexivity.
Qed.

Lemma pass_total (r : Run World) :
  never_fail k ->
  exists w3 w4 c,
    d w3 (nuConv r) (iteration r + 1) (diffT k) = inr (w4, c)
    /\ pass k r = inr (after_pass k r w4 c, false).
Proof.
  intros (N1 & N2 & N3 & N4).
  destruct (pass_cases r) as [[err E]|H]; [|exact H].
  exfalso. unfold pass in E. rewrite Hd in E.
  destruct (N1 (world r)) as [w1 E1]. rewrite E1 in E.
  destruct (N2 w1) as [w2 E2]. rewrite E2 in E.
  destruct (N3 (diffT k) w2) as [w3 E3]. rewrite E3 in E.
  destruct (N4 d Hd w3 (nuConv r) (iteration r + 1) (diffT k)) as [[w4 c] E4].
  rewrite E4 in E.
  destruct (iteration r + 1 >? 10000); [|discriminate E].
  destruct (force_converged k c (out r)); discriminate E.
Qed.

Lemma while_loop_done (fuel : nat) (r : Run World) :
  isConv r = true -> while_loop fuel k r = Some (inr r).
Proof. intro H. destruct fuel; cbn [while_loop]; now rewrite H. Qed.

Lemma while_loop_step (fuel : nat) (r : Run World) :
  isConv r = false ->
  while_loop (S fuel) k r
  = match pass k r with
    | inl err => Some (inl err)
    | inr (r', true) => Some (inr r')
    | inr (r', false) => while_loop fuel k r'
    end.
Proof. intro H. cbn [while_loop]. now rewrite H. Qed.

(** The loop returns within [10001 - iteration] passes. *)
Lemma while_loop_terminates (n m : nat) (r : Run World) :
  iteration r + Z.of_nat n = 10001 ->
  isConv r = true \/ (1 <= n)%nat ->
  exists res, while_loop (n + m) k r = Some res.
Proof.
  revert r. induction n as [|n IH]; intros r Hit Hc.
  - destruct Hc as [Hc|Hc]; [|lia].
    eexists. now apply while_loop_done.
  - destruct (isConv r) eqn:Ec.
    + eexists. now apply while_loop_done.
    + cbn [Nat.add]. rewrite while_loop_step by exact Ec.
      destruct (pass_cases r) as [[err E]|(w3 & w4 & c & _ & E)]; rewrite E.
      * eauto.
      * apply IH.
        -- unfold after_pass.
           destruct (iteration r + 1 >? 10000); cbn [iteration]; lia.
        -- destruct n as [|n']; [left | right; lia].
           unfold after_pass.
           replace (iteration r + 1 >? 10000) with true
             by (symmetry; apply Z.gtb_lt; lia).
           reflexivity.
Qed.

(** What the loop returns when no collaborator ends the run. *)
Lemma while_loop_exit (n m : nat) (r : Run World) :
  never_fail k ->
  isConv r = false ->
  out r = [] ->
  iteration r + Z.of_nat (S n) = 10001 ->
  exists r1 w3 c_in w4 c_last,
    while_loop (S n + m) k r = Some (inr r1)
    /\ iteration r < iteration r1 <= 10001
    /\ d w3 c_in (iteration r1) (diffT k) = inr (w4, c_last)
    /\ loop_exit k c_last (iteration r1) (nuConv r1)
                 (out r1 ++ [PrintIterations (iteration r1)]).
Proof.
  intro N. revert r. induction n as [|n IH]; intros r Ec Ho Hit;
    cbn [Nat.add]; rewrite while_loop_step by exact Ec;
      destruct (pass_total r N) as (w3 & w4 & c & Ed & E); rewrite E.
  - assert (Hgt : (iteration r + 1 >? 10000) = true) by (apply Z.gtb_lt; lia).
    assert (Ea : after_pass k r w4 c
                 = {| iteration := iteration r + 1; isConv := true; world := w4;
                      nuConv := fst (force_converged k c (out r));
                      out := snd (force_converged k c (out r)) |})
      by (unfold after_pass; now rewrite Hgt).
    rewrite Ea. rewrite while_loop_done by reflexivity.
    destruct (force_converged_spec c (out r)) as [F1 F2].
    do 5 eexists. split; [reflexivity|]. cbn [iteration nuConv out].
    split; [lia|]. split; [exact Ed|].
    right. split; [lia|]. split; [exact F1|].
    rewrite F2, Ho. cbn [app]. do 3 f_equal. lia.
  - assert (Hle : (iteration r + 1 >? 10000) = false)
      by (rewrite Z.gtb_ltb; apply Z.ltb_ge; lia).
    assert (Ea : after_pass k r w4 c
                 = {| iteration := iteration r + 1; isConv := all_converged k c;
                      world := w4; nuConv := c; out := out r |})
      by (unfold after_pass; now rewrite Hle).
    rewrite Ea. destruct (all_converged k c) eqn:Eall.
    + rewrite while_loop_done by reflexivity.
      do 5 eexists. split; [reflexivity|]. cbn [iteration nuConv out].
      split; [lia|]. split; [exact Ed|].
      left. split; [lia|]. split; [|split].
      * intros i Hi. rewrite all_converged_forallb in Eall.
        rewrite forallb_forall in Eall. apply Eall. apply in_range. lia.
      * reflexivity.
      * now rewrite Ho.
    + destruct (IH {| iteration := iteration r + 1;
                      isConv := false; world := w4;
                      nuConv := c; out := out r |})
        as (r1 & w3' & c_in & w4' & c_last & H1 & H2 & H3 & H4).
      * reflexivity.
      * exact Ho.
      * cbn [iteration]. lia.
      * exists r1, w3', c_in, w4', c_last.
        cbn [iteration] in H2. split; [exact H1|]. split; [lia|].
        split; assumption.
Qed.

Lemma forallb_false (c : Z -> bool) (l : list Z) :
  forallb c l = false -> exists i, In i l /\ c i = false.
Proof.
  induction l as [|i l IH]; cbn [forallb]; [discriminate|].
  destruct (c i) eqn:E; cbn [andb].
  - intro H. destruct (IH H) as (j & Hj & Ej). exists j. split; [now right | exact Ej].
  - intros _. exists i. split; [now left | exact E].
Qed.

(** The loop leaves at the first pass after which the test finds every
    flag true: after each earlier pass some flag was false. *)
Lemma while_loop_first (n m : nat) (r : Run World) :
  never_fail k ->
  isConv r = false ->
  iteration r + Z.of_nat (S n) = 10001 ->
  exists N r1,
    (1 <= N <= S n)%nat
    /\ while_loop (S n + m) k r = Some (inr r1)
    /\ passes N k r = inr r1
    /\ iteration r1 = iteration r + Z.of_nat N
    /\ forall j, (1 <= j < N)%nat ->
                 exists rj i, passes j k r = inr rj
                              /\ 1 <= i <= nnus k /\ nuConv rj i = false.
Proof.
  intro N0. revert r. induction n as [|n IH]; intros r Ec Hit;
    cbn [Nat.add]; rewrite while_loop_step by exact Ec;
      destruct (pass_total r N0) as (w3 & w4 & c & Ed & E); rewrite E.
  - assert (Hgt : (iteration r + 1 >? 10000) = true) by (apply Z.gtb_lt; lia).
    assert (Ea : isConv (after_pass k r w4 c) = true
                 /\ iteration (after_pass k r w4 c) = iteration r + 1)
      by (unfold after_pass; rewrite Hgt; split; reflexivity).
    destruct Ea as [Ea1 Ea2].
    rewrite while_loop_done by exact Ea1.
    exists 1%nat, (after_pass k r w4 c).
    split; [lia|]. split; [reflexivity|].
    split; [cbn [passes]; now rewrite E|].
    split; [rewrite Ea2; lia|]. intros j Hj. lia.
  - assert (Hle : (iteration r + 1 >? 10000) = false)
      by (rewrite Z.gtb_ltb; apply Z.ltb_ge; lia).
    assert (Ea : after_pass k r w4 c
                 = {| iteration := iteration r + 1; isConv := all_converged k c;
                      world := w4; nuConv := c; out := out r |})
      by (unfold after_pass; now rewrite Hle).
    destruct (all_converged k c) eqn:Eall.
    + rewrite while_loop_done by (rewrite Ea; reflexivity).
      exists 1%nat, (after_pass k r w4 c).
      split; [lia|]. split; [reflexivity|].
      split; [cbn [passes]; now rewrite E|].
      split; [rewrite Ea; cbn [iteration]; lia|]. intros j Hj. lia.
    + destruct (IH (after_pass k r w4 c)) as (N & r1 & H1 & H2 & H3 & H4 & H5).
      * rewrite Ea. reflexivity.
      * rewrite Ea. cbn [iteration]. lia.
      * exists (S N), r1.
        split; [lia|]. split; [exact H2|].
        split; [cbn [passes]; now rewrite E|].
        split; [rewrite H4, Ea; cbn [iteration]; lia|].
        intros j Hj. destruct j as [|j]; [lia|].
        destruct j as [|j].
        -- rewrite all_converged_forallb in Eall.
           destruct (forallb_false c _ Eall) as (i & Hi & Ei).
           apply in_range in Hi.
           exists (after_pass k r w4 c), i.
           split; [cbn [passes]; now rewrite E|].
           split; [lia|]. rewrite Ea. exact Ei.
        -- destruct (H5 (S j)) as (rj & i & G1 & G2 & G3); [lia|].
           exists rj, i. split; [|split; assumption].
           change (passes (S (S j)) k r)
             with (match pass k r with
                   | inl err => inl err
                   | inr (r', _) => passes (S j) k r'
                   end).
           now rewrite E.
Qed.

End Loop.

(** C5.  With a diffusion stepper present the loop of [integration]
    returns within 10001 passes, whatever the collaborators do.  When no
    collaborator ends the run it returns normally with every flag true,
    and it leaves at the first pass after which every flag is true: after
    each earlier pass the flag of some species was false.  That pass is
    one of the first 10000, its call of [diffusion] having returned flags
    that are all true, or it is pass 10001, where the flags still false
    are set and the names of their species are printed. *)
Theorem integration_terminates {World : Type} (k : Kinetics.Fix World)
    (d : World -> (Z -> bool) -> Z -> double
         -> Kinetics.fallible (World * (Z -> bool)))
    (w : World) (nuConv0 : Z -> bool) (m : nat) :
  Kinetics.diffusion k = Some d ->
  let r0 :=
    {| Kinetics.iteration := 0; Kinetics.isConv := false;
       Kinetics.world := w;
       Kinetics.nuConv := Kinetics.init_flags k nuConv0;
       Kinetics.out := [] |} in
  (exists res,
      Kinetics.integration (Z.to_nat 10001 + m) k w nuConv0 = Some res)
  /\ (never_fail k ->
      exists r n rn w3 c_in w4 c_last,
        Kinetics.integration (Z.to_nat 10001 + m) k w nuConv0 = Some (inr r)
        /\ 1 <= Kinetics.iteration r <= 10001
        /\ Kinetics.iteration r = Z.of_nat n
        /\ passes n k r0 = inr rn
        /\ Kinetics.nuConv r = Kinetics.nuConv rn
        /\ (forall j, (1 <= j < n)%nat ->
                      exists rj i,
                        passes j k r0 = inr rj
                        /\ 1 <= i <= Kinetics.nnus k
                        /\ Kinetics.nuConv rj i = false)
        /\ (forall i, 1 <= i <= Kinetics.nnus k -> Kinetics.nuConv r i = true)
        /\ d w3 c_in (Kinetics.iteration r) (Kinetics.diffT k)
           = inr (w4, c_last)
        /\ loop_exit k c_last (Kinetics.iteration r) (Kinetics.nuConv r)
                     (Kinetics.out r)).
Proof.
  intros Hd r0. unfold Kinetics.integration. fold r0.
  split.
  - destruct (while_loop_terminates k d Hd (Z.to_nat 10001) m r0) as [res E].
    + cbn [Kinetics.iteration r0]. lia.
    + right. lia.
    + rewrite E. destruct res as [err|r1]; [eauto|].
      destruct (Kinetics.call _ (Kinetics.world r1)); eauto.
  - intro N.
    replace (Z.to_nat 10001 + m)%nat with (S (Z.to_nat 10000) + m)%nat by lia.
    destruct (while_loop_exit k d Hd (Z.to_nat 10000) m r0 N)
      as (r1 & w3 & c_in & w4 & c_last & E & Hit & Ed & Hex);
      [reflexivity | reflexivity | cbn [Kinetics.iteration r0]; lia |].
    destruct (while_loop_first k d Hd (Z.to_nat 10000) m r0 N)
      as (n & r1' & Hn & E' & Hp & Hi & Hj);
      [reflexivity | cbn [Kinetics.iteration r0]; lia |].
    rewrite E in E'. injection E' as <-.
    rewrite E. cbn [Kinetics.iteration r0] in Hit, Hi.
    destruct N as (_ & _ & N3 & _).
    destruct (N3 (Kinetics.dt k * d_of_Z (Kinetics.nevery k))%Qc
                 (Kinetics.world r1)) as [w' Ew].
    rewrite Ew.
    exists {| Kinetics.iteration := Kinetics.iteration r1;
              Kinetics.isConv := Kinetics.isConv r1; Kinetics.world := w';
              Kinetics.nuConv := Kinetics.nuConv r1;
              Kinetics.out :=
                Kinetics.out r1
                ++ [Kinetics.PrintIterations (Kinetics.iteration r1)] |},
           n, r1, w3, c_in, w4, c_last.
    split; [reflexivity|].
    cbn [Kinetics.iteration Kinetics.nuConv Kinetics.out].
    split; [lia|]. split; [lia|]. split; [exact Hp|].
    split; [reflexivity|]. split; [exact Hj|].
    split; [|split; [exact Ed | exact Hex]].
    intros i Hi'. destruct Hex as [(_ & A & B & _)|(_ & B & _)]; rewrite B.
    + now apply A.
    + replace ((1 <=? i) && (i <=? Kinetics.nnus k)) with true; [reflexivity|].
      symmetry. apply andb_true_iff. split; apply Z.leb_le; lia.
Qed.

Lemma stuck_never_fail : never_fail stuck_kinetics.
Proof.
  repeat split.
  - intro w. eexists. reflexivity.
  - intro w. eexists. reflexivity.
  - intros t w. eexists. reflexivity.
  - intros d Hd w c it t. cbn in Hd. injection Hd as <-. eexists. reflexivity.
Qed.

Lemma integration_terminates_witness :
  let d := fun (w : Z) (c : Z -> bool) (_ : Z) (_ : double) =>
             inr (w + 1, c) : Kinetics.fallible (Z * (Z -> bool)) in
  let r0 :=
    {| Kinetics.iteration := 0; Kinetics.isConv := false; Kinetics.world := 0;
       Kinetics.nuConv := Kinetics.init_flags stuck_kinetics (fun _ => false);
       Kinetics.out := [] |} in
  Kinetics.diffusion stuck_kinetics = Some d
  /\ never_fail stuck_kinetics
  /\ exists r n,
       Kinetics.integration (Z.to_nat 10001 + 0) stuck_kinetics 0
                            (fun _ => false) = Some (inr r)
       /\ 1 <= Kinetics.iteration r <= 10001
       /\ Kinetics.iteration r = Z.of_nat n
       /\ (forall j, (1 <= j < n)%nat ->
                     exists rj i,
                       passes j stuck_kinetics r0 = inr rj
                       /\ 1 <= i <= Kinetics.nnus stuck_kinetics
                       /\ Kinetics.nuConv rj i = false)
       /\ (forall i, 1 <= i <= Kinetics.nnus stuck_kinetics ->
                     Kinetics.nuConv r i = true).
Proof.
  intros d r0.
  split; [reflexivity|]. split; [exact stuck_never_fail|].
  destruct (proj2 (integration_terminates stuck_kinetics d 0 (fun _ => false)
                     0%nat eq_refl) stuck_never_fail)
    as (r & n & _ & _ & _ & _ & _ & H1 & H2 & H3 & _ & _ & H4 & H5 & _).
  exists r, n. auto.
Defined.

(** A run in which species "x" never converges: the loop makes 10001
    passes, sets its flag and prints its name. *)
Lemma integration_forced_run :
  match Kinetics.integration (Z.to_nat 10001) stuck_kinetics 0 (fun _ => false)
  with
  | Some (inr r) =>
    Kinetics.iteration r = 10001
    /\ Kinetics.world r = 10001
    /\ Kinetics.nuConv r 1 = true
    /\ Kinetics.out r
       = [Kinetics.PrintName "x"; Kinetics.PrintIterations 10001]
  | _ => False
  end.
Proof. vm_compute. repeat split. Qed.

(** * The update of the atoms *)

Section Atoms.

Import MonodCyano.

Variable MY_PI : double.
Variable pow : double -> double -> double.
Variable cell : (Z -> double) -> Z.

Lemma update_atom_other (f : Fix) (j i : Z) (a : Atom) :
  i <> j ->
  rmass (update_atom MY_PI pow cell f j a) i = rmass a i
  /\ radius (update_atom MY_PI pow cell f j a) i = radius a i
  /\ x (update_atom MY_PI pow cell f j a) = x a
  /\ mask (update_atom MY_PI pow cell f j a) = mask a.
Proof.
  intro H. unfold update_atom.
  destruct (negb (Z.land (mask a j) (groupbit f) =? 0)); cbn; auto.
  rewrite !upd_other by exact H. auto.
Qed.

Lemma update_atom_same (f : Fix) (i : Z) (a : Atom) :
  Z.land (mask a i) (groupbit f) <> 0 ->
  let a' := update_atom MY_PI pow cell f i a in
  rmass a' i
  = (rmass a i * (d1 + growth f (igroup f) (cell (x a i)) 0 * dt f))%Qc
  /\ radius a' i
     = pow (d_of_Z 3 * rmass a' i / (d_of_Z 4 * MY_PI * density MY_PI a i))%Qc
           (d1 / d_of_Z 3)%Qc.
Proof.
  intro H. cbv zeta. unfold update_atom.
  apply Z.eqb_neq in H. rewrite H. cbn [negb rmass radius].
  rewrite !upd_same. split; [reflexivity|].
  unfold third. f_equal.
  unfold three_quarters_pi, Qcdiv. rewrite !Qcinv_mult_distr. ring.
Qed.

End Atoms.

(** C8.  For an atom of the group, [update_atoms] multiplies the mass by
    [1 + growthRate * dt], the growth rate being that of the cell
    [grid->cell] gives for the position of the atom, and sets the radius
    to [pow(3 * mass / (4 * pi * density), 1/3)], with the new mass and the
    density [rmass / (4 * pi / 3 * radius^3)] of the mass and the radius
    the atom had before the update. *)
Theorem update_atoms_growth (MY_PI : double) (pow : double -> double -> double)
    (cell : (Z -> double) -> Z) (f : MonodCyano.Fix) (a : MonodCyano.Atom)
    (i : Z) :
  0 <= i < MonodCyano.nlocal a ->
  Z.land (MonodCyano.mask a i) (MonodCyano.groupbit f) <> 0 ->
  let a' := MonodCyano.update_atoms MY_PI pow cell f a in
  let growthRate :=
    MonodCyano.growth f (MonodCyano.igroup f) (cell (MonodCyano.x a i)) 0 in
  let r := MonodCyano.radius a i in
  let density :=
    (MonodCyano.rmass a i / (d_of_Z 4 * MY_PI / d_of_Z 3 * r * r * r))%Qc in
  MonodCyano.rmass a' i
  = (MonodCyano.rmass a i * (d1 + growthRate * MonodCyano.dt f))%Qc
  /\ MonodCyano.radius a' i
     = pow (d_of_Z 3 * MonodCyano.rmass a' i / (d_of_Z 4 * MY_PI * density))%Qc
           (d1 / d_of_Z 3)%Qc.
Proof.
  intros Hi Hm. cbv zeta.
  change (MonodCyano.rmass a i
          / (d_of_Z 4 * MY_PI / d_of_Z 3 * MonodCyano.radius a i
             * MonodCyano.radius a i * MonodCyano.radius a i))%Qc
    with (MonodCyano.density MY_PI a i).
  unfold MonodCyano.update_atoms.
  apply (for_loop_at
           (fun a0 => MonodCyano.rmass a0 i = MonodCyano.rmass a i
                      /\ MonodCyano.radius a0 i = MonodCyano.radius a i
                      /\ MonodCyano.x a0 = MonodCyano.x a
                      /\ MonodCyano.mask a0 = MonodCyano.mask a)
           (fun a0 =>
              MonodCyano.rmass a0 i
              = (MonodCyano.rmass a i
                 * (d1 + MonodCyano.growth f (MonodCyano.igroup f)
                                           (cell (MonodCyano.x a i)) 0
                         * MonodCyano.dt f))%Qc
              /\ MonodCyano.radius a0 i
                 = pow (d_of_Z 3 * MonodCyano.rmass a0 i
                        / (d_of_Z 4 * MY_PI * MonodCyano.density MY_PI a i))%Qc
                       (d1 / d_of_Z 3)%Qc)
           0 i (MonodCyano.nlocal a)); auto.
  - intros j a0 Hj (H1 & H2 & H3 & H4).
    destruct (update_atom_other MY_PI pow cell f j i a0) as (G1 & G2 & G3 & G4);
      [lia|].
    repeat split; congruence.
  - intros a0 (H1 & H2 & H3 & H4).
    destruct (update_atom_same MY_PI pow cell f i a0) as [G1 G2];
      [now rewrite H4|].
    assert (Hd : MonodCyano.density MY_PI a0 i = MonodCyano.density MY_PI a i)
      by (unfold MonodCyano.density; now rewrite H1, H2).
    rewrite G2, Hd. split; [|reflexivity].
    rewrite G1, H1, H3. reflexivity.
  - intros j a0 Hj [H1 H2].
    destruct (update_atom_other MY_PI pow cell f j i a0) as (G1 & G2 & _);
      [lia|].
    now rewrite G1, G2.
Qed.

Lemma update_atoms_growth_witness :
  let pow := fun (b _ : double) => b in
  let cell := fun _ : Z -> double => 0 in
  let a' := MonodCyano.update_atoms (d_of_Z 3) pow cell growth_fix two_atoms in
  0 <= 0 < MonodCyano.nlocal two_atoms
  /\ Z.land (MonodCyano.mask two_atoms 0) (MonodCyano.groupbit growth_fix) <> 0
  /\ MonodCyano.rmass a' 0
     = (MonodCyano.rmass two_atoms 0
        * (d1 + Q2Qc (1 # 2) * MonodCyano.dt growth_fix))%Qc
  /\ MonodCyano.radius a' 0 = d_of_Z 12.
Proof.
  intros pow cell a'.
  assert (H1 : 0 <= 0 < MonodCyano.nlocal two_atoms)
    by (vm_compute; split; [discriminate | reflexivity]).
  assert (H2 : Z.land (MonodCyano.mask two_atoms 0)
                      (MonodCyano.groupbit growth_fix) <> 0)
    by discriminate.
  split; [exact H1 | split; [exact H2|]].
  destruct (update_atoms_growth (d_of_Z 3) pow cell growth_fix two_atoms 0
              H1 H2) as [G1 G2].
  split; [exact G1|].
  fold a' in G1, G2. rewrite G2, G1. qc_eq.
Defined.

(** The atom outside the group keeps its mass, the atom of the group goes
    from mass 8 to mass 12. *)
Lemma update_atoms_run :
  let a' := MonodCyano.update_atoms (d_of_Z 3) (fun b _ => b) (fun _ => 0)
                                    growth_fix two_atoms in
  MonodCyano.rmass a' 0 = d_of_Z 12 /\ MonodCyano.rmass a' 1 = d_of_Z 8.
Proof. split; qc_eq. Qed.

(** * Two remarks on the calls of [diffusion] *)

Lemma set_boundary_members (e : Env) (iter i : Z) (s : State) :
  let s' := set_boundary e iter i s in
  xbcm s' = boundary_value e i 1 /\ xbcp s' = boundary_value e i 2
  /\ ybcm s' = boundary_value e i 3 /\ ybcp s' = boundary_value e i 4
  /\ zbcm s' = boundary_value e i 5 /\ zbcp s' = boundary_value e i 6.
Proof.
  cbv zeta. unfold set_boundary, boundary_value, compute_bulk.
  destruct (unit_flag e =? 0);
    destruct ((iter =? 1) && negb (nuName e i =? "o2")%string
              && dge (q e) d0 && dge (af e) d0);
    cbn; repeat split; reflexivity.
Qed.

(** The loop over the species that fills the members [xbcm] ... [zbcp]
    ends before the loop that calls [compute_bc] starts: during the
    latter the members hold the boundary values of the last species. *)
Lemma boundary_members_last (e : Env) (recvbuff : Z -> double) (iter : Z)
    (diffT_ : double) (s : State) :
  1 <= nnus e ->
  let s4 := prepared e recvbuff iter diffT_ s in
  xbcm s4 = boundary_value e (nnus e) 1 /\ xbcp s4 = boundary_value e (nnus e) 2
  /\ ybcm s4 = boundary_value e (nnus e) 3
  /\ ybcp s4 = boundary_value e (nnus e) 4
  /\ zbcm s4 = boundary_value e (nnus e) 5
  /\ zbcp s4 = boundary_value e (nnus e) 6.
Proof.
  intro H. cbv zeta. unfold prepared. rewrite for_loop_snoc by lia.
  apply set_boundary_members.
Qed.

(** With boundary value 5 for species 1 and 7 for species 2, the ghost
    cell below the true cell receives [2*7 - 1 = 13] for both species. *)
Lemma boundary_members_run :
  let s' := fst (diffusion two_species_env (fun _ => d0) (fun _ => false) 1
                           (Q2Qc (1 # 10)) two_species_state) in
  boundary_value two_species_env 1 5 = d_of_Z 5
  /\ nuGrid s' 4 1 = d_of_Z 13 /\ nuGrid s' 4 2 = d_of_Z 13.
Proof. repeat split; qc_eq. Qed.

(** [integration] calls [diffusion] with an argument [iter] that is above
    the current count of passes: replacing the stepper by one that agrees
    with it on such calls does not change the loop.  The count starts at
    0, so that [iter = 1] is passed on the first pass and on no other. *)
Lemma while_loop_later_calls {World : Type} (fuel : nat)
    (k : Kinetics.Fix World)
    (d d' : World -> (Z -> bool) -> Z -> double
            -> Kinetics.fallible (World * (Z -> bool)))
    (r : Kinetics.Run World) :
  Kinetics.diffusion k = Some d ->
  (forall w c it t, Kinetics.iteration r < it -> d w c it t = d' w c it t) ->
  Kinetics.while_loop fuel k r = Kinetics.while_loop fuel (with_diffusion k d') r.
Proof.
  intro Hd. revert r. induction fuel as [|fuel IH]; intros r Hag.
  - reflexivity.
  - cbn [Kinetics.while_loop].
    destruct (Kinetics.isConv r); [reflexivity|].
    assert (Hp : Kinetics.pass (with_diffusion k d') r = Kinetics.pass k r).
    { unfold Kinetics.pass. rewrite Hd. cbn.
      destruct (match Kinetics.ph k with
                | Some solve_ph => solve_ph (Kinetics.world r)
                | None => Kinetics.init_activity k (Kinetics.world r)
                end); [reflexivity|].
      destruct (Kinetics.call (Kinetics.thermo k) w); [reflexivity|].
      destruct (Kinetics.call _ w0); [reflexivity|].
      rewrite <- Hag by lia. reflexivity. }
    rewrite Hp.
    destruct (pass_cases k d Hd r) as [[err E]|(w3 & w4 & c & _ & E)];
      rewrite E; [reflexivity|].
    apply IH. intros w c0 it t Hit. apply Hag.
    unfold after_pass in Hit.
    destruct (Kinetics.iteration r + 1 >? 10000);
      cbn [Kinetics.iteration] in Hit; lia.
Qed.

(** * Further properties of the boundary conditions *)

(** X1.  A cell that [compute_bc] treats as lying on a face with a
    zero-flux condition (kinds nd and nn on the low face, nn and dn on the
    high face) receives the snapshot value of the adjacent true cell, and
    [1e-20] when that value is not positive. *)
Theorem compute_bc_neumann (e : Env) (s : State) (nuCell : double)
    (nuPrev_i : Z -> double) (grid : Z) (bulk : double) (f : Face) :
  face_of e s grid = Some f ->
  neumann e f = true ->
  compute_bc e s nuCell nuPrev_i grid bulk
  = clamp (nuPrev_i (adjacent e grid f)).
Proof.
  intros Hf Hn. rewrite compute_bc_face, Hf. f_equal.
  unfold bc_value.
  assert (H0 : (bcflag e f =? 0) = false /\ dirichlet e f = false).
  { unfold neumann in Hn. unfold dirichlet.
    destruct f;
      destruct (bcflag e _ =? 0) eqn:E0, (bcflag e _ =? 1) eqn:E1,
               (bcflag e _ =? 2) eqn:E2, (bcflag e _ =? 3) eqn:E3,
               (bcflag e _ =? 4) eqn:E4;
      cbn in Hn |- *; try discriminate Hn; try (split; reflexivity);
        exfalso;
        repeat match goal with
               | H : (_ =? _) = true |- _ => apply Z.eqb_eq in H
               end; lia. }
  destruct H0 as [-> ->]. now rewrite Hn.
Qed.

Lemma compute_bc_neumann_witness :
  let e := sink_env 3 in
  let s := sink_state in
  let prev := fun grid => nuGrid s grid 1 in
  face_of e s 22 = Some ZHigh /\ neumann e ZHigh = true
  /\ compute_bc e s (nuGrid s 22 1) prev 22 (nuBS s 1)
     = clamp (prev (adjacent e 22 ZHigh)).
Proof.
  intros e s prev.
  split; [reflexivity | split; [reflexivity|]].
  apply (compute_bc_neumann e s (nuGrid s 22 1) prev 22 (nuBS s 1) ZHigh);
    reflexivity.
Defined.

(** X2.  On a face of a periodic axis a run on one process copies the
    snapshot value of the cell [nx], [ny] or [nz] layers away, on the
    opposite side of the domain; a run on several processes leaves the
    stored value to the halo exchange.  Either value is replaced by
    [1e-20] when it is not positive. *)
Theorem compute_bc_periodic (e : Env) (s : State) (nuCell : double)
    (nuPrev_i : Z -> double) (grid : Z) (bulk : double) (f : Face) :
  face_of e s grid = Some f ->
  bcflag e f = 0 ->
  compute_bc e s nuCell nuPrev_i grid bulk
  = clamp (if nprocs e <? 2 then nuPrev_i (opposite e grid f) else nuCell).
Proof.
  intros Hf H0. rewrite compute_bc_face, Hf. f_equal.
  unfold bc_value. now rewrite H0.
Qed.

Lemma compute_bc_periodic_witness :
  let e := sink_env 0 in
  let s := sink_state in
  let prev := fun grid => nuGrid s grid 1 in
  face_of e s 12 = Some XLow /\ bcflag e XLow = 0
  /\ opposite e 12 XLow = 13
  /\ compute_bc e s (nuGrid s 12 1) prev 12 (nuBS s 1) = clamp (prev 13).
Proof.
  intros e s prev.
  split; [reflexivity | split; [reflexivity | split; [reflexivity|]]].
  apply (compute_bc_periodic e s (nuGrid s 12 1) prev 12 (nuBS s 1) XLow);
    reflexivity.
Defined.

(** X3.  A cell at which no face test succeeds (a corner or an edge of
    the local array, a cell above the fill height inside the domain, a
    halo cell between two subdomains) keeps its value, or gets [1e-20]
    when that value is not positive, whatever the boundary kinds. *)
Theorem compute_bc_no_face (e : Env) (s : State) (nuCell : double)
    (nuPrev_i : Z -> double) (grid : Z) (bulk : double) :
  face_of e s grid = None ->
  compute_bc e s nuCell nuPrev_i grid bulk = clamp nuCell.
Proof. intro Hf. now rewrite compute_bc_face, Hf. Qed.

Lemma compute_bc_no_face_witness :
  let e := sink_env 1 in
  let s := sink_state in
  face_of e s 0 = None
  /\ compute_bc e s (d_of_Z 7) (fun _ => d1) 0 d2 = clamp (d_of_Z 7).
Proof.
  intros e s. split; [reflexivity|].
  apply (compute_bc_no_face e s (d_of_Z 7) (fun _ => d1) 0 d2). reflexivity.
Defined.

(** * [update_grids] *)

(** X4.  [update_grids] sets the extent of the local array to
    [nX * nY * (bnz + 2)] cells and the fill height to [bnz * stepz];
    inside that extent a cell is flagged as a ghost cell exactly when its
    centre has a negative coordinate, lies beyond [subhi] in x or y, or
    lies above the fill height; flags beyond the extent and all
    concentrations stay as they were. *)
Theorem update_grids_flags (e : Env) (s : State) :
  let s' := update_grids e s in
  nXYZ s' = nX e * nY e * (bnz e + 2)
  /\ bzhi s' = (d_of_Z (bnz e) * stepz e)%Qc
  /\ (forall grid, 0 <= grid < nXYZ s' -> ghost s' grid = outside_fill e grid)
  /\ (forall grid, ~ 0 <= grid < nXYZ s' -> ghost s' grid = ghost s grid)
  /\ nuGrid s' = nuGrid s /\ nuBS s' = nuBS s.
Proof.
  cbv zeta. unfold update_grids. cbn [nXYZ bzhi ghost nuGrid nuBS set_grids].
  split; [reflexivity | split; [reflexivity|]].
  split; [|split; [|split; reflexivity]].
  - intros grid Hg.
    apply (for_loop_at (fun _ => True)
             (fun gh : Z -> bool => gh grid = outside_fill e grid)
             0 grid (nX e * nY e * (bnz e + 2))); auto.
    + intros gh _. unfold outside_fill.
      match goal with
      | |- context [if ?b then _ else _] => destruct b
      end; now rewrite upd_same.
    + intros k gh Hk Hgh.
      match goal with
      | |- context [if ?b then _ else _] => destruct b
      end; rewrite upd_other by lia; exact Hgh.
  - intros grid Hg.
    apply (for_loop_ind (fun gh : Z -> bool => gh grid = ghost s grid)); auto.
    intros k gh Hk Hgh.
    match goal with
    | |- context [if ?b then _ else _] => destruct b
    end; rewrite upd_other by lia; exact Hgh.
Qed.

Lemma update_grids_flags_witness :
  let e := fst (one_species 1 d1 d1 d2) in
  let s := snd (one_species 1 d1 d1 d2) in
  0 <= 13 < nXYZ (update_grids e s)
  /\ ghost (update_grids e s) 13 = outside_fill e 13.
Proof.
  intros e s.
  assert (H : 0 <= 13 < nXYZ (update_grids e s))
    by (vm_compute; split; [discriminate | reflexivity]).
  split; [exact H|].
  destruct (update_grids_flags e s) as (_ & _ & G & _).
  exact (G 13 H).
Defined.


(** * The halo buffers *)

Lemma pack_cell_frame (e : Env) (c : Z) (s : State) (idx : Z) :
  let s' :=
    for_loop 0 (nnus e)
      (fun k s =>
         set_sendbuff
           (upd (sendbuff s) (c * nnus e + k) (nuGrid s (sendcells e c) (1 + k)))
           s) s in
  nuGrid s' = nuGrid s
  /\ (~ c * nnus e <= idx < c * nnus e + nnus e ->
      sendbuff s' idx = sendbuff s idx).
Proof.
  cbv zeta.
  apply (for_loop_ind
           (fun a => nuGrid a = nuGrid s
                     /\ (~ c * nnus e <= idx < c * nnus e + nnus e ->
                         sendbuff a idx = sendbuff s idx))).
  - auto.
  - intros k a Hk [H1 H2]. split; [exact H1|].
    intro Hn. cbn [sendbuff set_sendbuff].
    rewrite upd_other by lia. now apply H2.
Qed.

Lemma pack_cell_content (e : Env) (c k : Z) (s : State) :
  0 <= k < nnus e ->
  sendbuff
    (for_loop 0 (nnus e)
       (fun k s =>
          set_sendbuff
            (upd (sendbuff s) (c * nnus e + k) (nuGrid s (sendcells e c) (1 + k)))
            s) s)
    (c * nnus e + k)
  = nuGrid s (sendcells e c) (1 + k).
Proof.
  intro Hk.
  apply (for_loop_at
           (fun a => nuGrid a = nuGrid s)
           (fun a => sendbuff a (c * nnus e + k)
                     = nuGrid s (sendcells e c) (1 + k))
           0 k (nnus e)); auto.
  - intros a Ha. cbn [sendbuff set_sendbuff]. rewrite upd_same. now rewrite Ha.
  - intros j a Hj Ha. cbn [sendbuff set_sendbuff].
    rewrite upd_other by lia. exact Ha.
Qed.

(** What [pack_cells] leaves in the send buffer. *)
Lemma pack_cells_content (e : Env) (n c k : Z) (s : State) :
  0 <= c < n ->
  0 <= k < nnus e ->
  sendbuff (pack_cells e n s) (c * nnus e + k)
  = nuGrid s (sendcells e c) (1 + k).
Proof.
  intros Hc Hk. unfold pack_cells.
  apply (for_loop_at
           (fun a => nuGrid a = nuGrid s)
           (fun a => sendbuff a (c * nnus e + k)
                     = nuGrid s (sendcells e c) (1 + k))
           0 c n); auto.
  - intros j a Hj Ha.
    destruct (pack_cell_frame e j a 0) as [H1 _]. cbv zeta in H1. congruence.
  - intros a Ha. rewrite pack_cell_content by exact Hk. now rewrite Ha.
  - intros j a Hj Ha.
    destruct (pack_cell_frame e j a (c * nnus e + k)) as [_ H2].
    cbv zeta in H2. rewrite H2; [exact Ha | nia].
Qed.

Lemma unpack_cell_frame (e : Env) (recvbuff : Z -> double) (c : Z) (s : State)
    (grid i : Z) :
  grid <> recvcells e c \/ ~ 1 <= i <= nnus e ->
  nuGrid
    (for_loop 0 (nnus e)
       (fun k s =>
          set_nuGrid
            (upd2 (nuGrid s) (recvcells e c) (1 + k) (recvbuff (c * nnus e + k)))
            s) s) grid i
  = nuGrid s grid i.
Proof.
  intro H.
  apply (for_loop_ind (fun a => nuGrid a grid i = nuGrid s grid i)); auto.
  intros k a Hk Ha. cbn [nuGrid set_nuGrid].
  rewrite upd2_other; [exact Ha|].
  destruct H as [H|H]; [now left | right; lia].
Qed.

Lemma unpack_cell_content (e : Env) (recvbuff : Z -> double) (c k : Z)
    (s : State) :
  0 <= k < nnus e ->
  nuGrid
    (for_loop 0 (nnus e)
       (fun k s =>
          set_nuGrid
            (upd2 (nuGrid s) (recvcells e c) (1 + k) (recvbuff (c * nnus e + k)))
            s) s) (recvcells e c) (1 + k)
  = recvbuff (c * nnus e + k).
Proof.
  intro Hk.
  apply (for_loop_at (fun _ => True)
           (fun a => nuGrid a (recvcells e c) (1 + k)
                     = recvbuff (c * nnus e + k))
           0 k (nnus e)); auto.
  - intros a _. cbn [nuGrid set_nuGrid]. apply upd2_same.
  - intros j a Hj Ha. cbn [nuGrid set_nuGrid].
    rewrite upd2_other by (right; lia). exact Ha.
Qed.

(** What [unpack_cells] leaves in a received cell that no later entry of
    the list names again. *)
Lemma unpack_cells_content (e : Env) (recvbuff : Z -> double) (n c k : Z)
    (s : State) :
  0 <= c < n ->
  0 <= k < nnus e ->
  (forall c', c < c' < n -> recvcells e c' <> recvcells e c) ->
  nuGrid (unpack_cells e recvbuff n s) (recvcells e c) (1 + k)
  = recvbuff (c * nnus e + k).
Proof.
  intros Hc Hk Hinj. unfold unpack_cells.
  apply (for_loop_at (fun _ => True)
           (fun a => nuGrid a (recvcells e c) (1 + k)
                     = recvbuff (c * nnus e + k))
           0 c n); auto.
  - intros a _. now apply unpack_cell_content.
  - intros j a Hj Ha. rewrite unpack_cell_frame; [exact Ha|].
    left. intro E. apply (Hinj j); [lia | now symmetry].
Qed.

(** X5.  Round trip of the halo buffers.  When a process receives, as
    its receive buffer, the send buffer another process packed for the
    same number of species, each of its receive cells ends with the
    concentrations of all species of the matching send cell, provided the
    receive list does not name that cell again further on. *)
Theorem halo_round_trip (ea eb : Env) (sa sb : State) (n c k : Z) :
  nnus ea = nnus eb ->
  0 <= c < n ->
  0 <= k < nnus ea ->
  (forall c', c < c' < n -> recvcells eb c' <> recvcells eb c) ->
  nuGrid (unpack_cells eb (sendbuff (pack_cells ea n sa)) n sb)
         (recvcells eb c) (1 + k)
  = nuGrid sa (sendcells ea c) (1 + k).
Proof.
  intros Hn Hc Hk Hinj.
  rewrite unpack_cells_content by (auto; lia).
  rewrite <- Hn. now apply pack_cells_content.
Qed.

(** X6.  The halo receive writes the species columns [1 .. nnus] of the
    cells of the receive list and nothing else: column 0, the columns
    above [nnus] and the cells that are not listed keep their values, as
    do the ghost flags and the bulk concentrations. *)
Theorem unpack_cells_writes (e : Env) (recvbuff : Z -> double) (n : Z)
    (s : State) (grid i : Z) :
  (forall c, 0 <= c < n -> recvcells e c <> grid) \/ ~ 1 <= i <= nnus e ->
  let s' := unpack_cells e recvbuff n s in
  nuGrid s' grid i = nuGrid s grid i
  /\ ghost s' = ghost s /\ nuBS s' = nuBS s /\ nXYZ s' = nXYZ s.
Proof.
  intros H. cbv zeta.
  destruct (unpack_cells_frame e recvbuff n s)
    as ((H1 & _ & H2 & _ & H3 & _) & _ & _).
  split; [|auto].
  unfold unpack_cells.
  apply (for_loop_ind (fun a => nuGrid a grid i = nuGrid s grid i)); auto.
  intros c a Hc Ha. rewrite unpack_cell_frame; [exact Ha|].
  destruct H as [H|H]; [left | now right].
  intro E. apply (H c Hc). now symmetry.
Qed.

Lemma halo_round_trip_witness :
  let ea := with_halo two_species_env (fun c => 12 - c) (fun c => 13 + c) 2 in
  let eb := with_halo two_species_env (fun c => 12 - c) (fun c => 13 + c) 2 in
  nnus ea = nnus eb /\ 0 <= 0 < 2 /\ 0 <= 1 < nnus ea
  /\ (forall c', 0 < c' < 2 -> recvcells eb c' <> recvcells eb 0)
  /\ nuGrid (unpack_cells eb (sendbuff (pack_cells ea 2 two_species_state)) 2
                          sink_state)
            (recvcells eb 0) (1 + 1)
     = nuGrid two_species_state (sendcells ea 0) (1 + 1).
Proof.
  intros ea eb.
  assert (H1 : nnus ea = nnus eb) by reflexivity.
  assert (H2 : 0 <= 0 < 2) by lia.
  assert (H3 : 0 <= 1 < nnus ea) by (vm_compute; split; [discriminate | reflexivity]).
  assert (H4 : forall c', 0 < c' < 2 -> recvcells eb c' <> recvcells eb 0)
    by (intros c' Hc; change (12 - c' <> 12 - 0); lia).
  repeat match goal with |- _ /\ _ => split; [assumption|] end.
  apply (halo_round_trip ea eb two_species_state sink_state 2 0 1 H1 H2 H3 H4).
Defined.

Lemma unpack_cells_writes_witness :
  let e := with_halo two_species_env (fun c => 12 - c) (fun c => 13 + c) 2 in
  (forall c, 0 <= c < 2 -> recvcells e c <> 13)
  /\ nuGrid (unpack_cells e (fun _ => d0) 2 two_species_state) 13 1
     = nuGrid two_species_state 13 1.
Proof.
  intro e.
  assert (H : forall c, 0 <= c < 2 -> recvcells e c <> 13)
    by (intros c Hc; change (12 - c <> 13); lia).
  split; [exact H|].
  apply (proj1 (unpack_cells_writes e (fun _ => d0) 2 two_species_state 13 1
                  (or_introl H))).
Defined.

(** * The arrays of [kinetics] in [diffusion] *)

Lemma cell_update_rates (e : Env) (i grid : Z) (s : State) (m : double) :
  let s' := fst (cell_update e i grid (s, m)) in
  nuR s' = (if ghost s grid then nuR s
            else upd2 (nuR s) i (rate_index e grid) d0)
  /\ nuS s' = (if ghost s grid then nuS s
               else upd2 (nuS s) i (rate_index e grid)
                      (nuS_value e (compute_flux e s (diffD e i) (nuPrev s i)
                                      (nuR s i (rate_index e grid)) grid))).
Proof.
  cbv zeta. unfold cell_update, nuS_value.
  destruct (ghost s grid); cbn [negb fst]; [split; reflexivity|].
  fold (rate_index e grid).
  cbn [nuGrid set_nuR set_nuGrid]. rewrite upd2_same.
  match goal with
  | |- context [if dgt ?c d0 then _ else _] => destruct (dgt c d0)
  end; [destruct (unit_flag e =? 0)|]; split; reflexivity.
Qed.


Section CellsRates.

Variable e : Env.
Variable i : Z.

Lemma cells_loop_rates_other (lo hi : Z) (s : State) (m : double) (i' x : Z) :
  i' <> i ->
  nuR (fst (for_loop lo hi (cell_update e i) (s, m))) i' x = nuR s i' x
  /\ nuS (fst (for_loop lo hi (cell_update e i) (s, m))) i' x = nuS s i' x.
Proof.
  intro Hi.
  apply (for_loop_ind
           (fun a => nuR (fst a) i' x = nuR s i' x
                     /\ nuS (fst a) i' x = nuS s i' x)); auto.
  intros k [a ma] _ [H1 H2]. cbn [fst] in *.
  destruct (cell_update_rates e i k a ma) as [G1 G2]. cbv zeta in G1, G2.
  rewrite G1, G2.
  destruct (ghost a k); [auto|].
  rewrite !upd2_other by (left; exact Hi). auto.
Qed.

(** An entry of the row of the species is reset or left alone. *)
Lemma cells_loop_rate_cases (lo hi : Z) (s : State) (m : double) (x : Z) :
  nuR (fst (for_loop lo hi (cell_update e i) (s, m))) i x = d0
  \/ nuR (fst (for_loop lo hi (cell_update e i) (s, m))) i x = nuR s i x.
Proof.
  apply (for_loop_ind
           (fun a => nuR (fst a) i x = d0 \/ nuR (fst a) i x = nuR s i x)); auto.
  intros k [a ma] _ H. cbn [fst] in *.
  destruct (cell_update_rates e i k a ma) as [G1 _]. cbv zeta in G1.
  rewrite G1. destruct (ghost a k); [exact H|].
  destruct (Z.eq_dec x (rate_index e k)) as [->|Hne].
  - left. apply upd2_same.
  - rewrite upd2_other by (right; exact Hne). exact H.
Qed.

Lemma cells_loop_rate_reset (lo hi : Z) (s : State) (m : double) (grid : Z) :
  lo <= grid < hi ->
  ghost s grid = false ->
  nuR (fst (for_loop lo hi (cell_update e i) (s, m))) i (rate_index e grid) = d0.
Proof.
  intros Hg Hgh.
  apply (for_loop_at
           (fun a => static_eq s (fst a))
           (fun a => nuR (fst a) i (rate_index e grid) = d0) lo grid hi); auto.
  - apply static_eq_refl.
  - intros k [a ma] _ Ha. cbn [fst] in *.
    eapply static_eq_trans; [exact Ha | apply cell_update_static].
  - intros [a ma] (_ & _ & Ha & _). cbn [fst] in *.
    destruct (cell_update_rates e i grid a ma) as [G1 _]. cbv zeta in G1.
    rewrite G1, <- Ha, Hgh. apply upd2_same.
  - intros k [a ma] _ Ha. cbn [fst] in *.
    destruct (cell_update_rates e i k a ma) as [G1 _]. cbv zeta in G1.
    rewrite G1. destruct (ghost a k); [exact Ha|].
    destruct (Z.eq_dec (rate_index e grid) (rate_index e k)) as [E|Hne].
    + rewrite E. apply upd2_same.
    + rewrite upd2_other by (right; exact Hne). exact Ha.
Qed.


End CellsRates.

Lemma snapshot_arrays (i : Z) (s : State) :
  nuR (snapshot i s) = nuR s /\ nuS (snapshot i s) = nuS s
  /\ forall grid, 0 <= grid < nXYZ s ->
                  nuPrev (snapshot i s) i grid = nuGrid s grid i.
Proof.
  unfold snapshot. split; [|split].
  - apply (for_loop_ind (fun a => nuR a = nuR s)); auto.
  - apply (for_loop_ind (fun a => nuS a = nuS s)); auto.
  - intros grid Hg.
    apply (for_loop_at
             (fun a => nuGrid a = nuGrid s)
             (fun a => nuPrev a i grid = nuGrid s grid i) 0 grid (nXYZ s));
      auto.
    + intros a Ha. cbn [nuPrev set_nuPrev]. rewrite upd2_same. now rewrite Ha.
    + intros k a Hk Ha. cbn [nuPrev set_nuPrev].
      rewrite upd2_other by (right; lia). exact Ha.
Qed.

Lemma species_step_rates_other (e : Env) (nuConv : Z -> bool) (i i' : Z)
    (sc : State * (Z -> bool)) (x : Z) :
  i' <> i ->
  nuR (fst (species_step e nuConv i sc)) i' x = nuR (fst sc) i' x
  /\ nuS (fst (species_step e nuConv i sc)) i' x = nuS (fst sc) i' x.
Proof.
  intro Hi. destruct (processed e nuConv i) eqn:H.
  - destruct sc as [s conv]. rewrite species_step_run by exact H.
    cbn [fst]. unfold cells. cbv zeta.
    destruct (cells_loop_rates_other e i 0 (nXYZ (snapshot i s)) (snapshot i s)
                                     d0 i' x Hi) as [G1 G2].
    destruct (snapshot_arrays i s) as (S1 & S2 & _).
    rewrite G1, G2, S1, S2. auto.
  - rewrite species_step_skip by exact H. auto.
Qed.

Lemma species_loop_rates_other (e : Env) (nuConv : Z -> bool) (lo hi : Z)
    (sc : State * (Z -> bool)) (i x : Z) :
  ~ lo <= i < hi \/ processed e nuConv i = false ->
  nuR (fst (for_loop lo hi (species_step e nuConv) sc)) i x = nuR (fst sc) i x
  /\ nuS (fst (for_loop lo hi (species_step e nuConv) sc)) i x
     = nuS (fst sc) i x.
Proof.
  intro H.
  apply (for_loop_ind
           (fun a => nuR (fst a) i x = nuR (fst sc) i x
                     /\ nuS (fst a) i x = nuS (fst sc) i x)); auto.
  intros k a Hk [H1 H2].
  destruct (Z.eq_dec k i) as [->|Hne].
  - destruct H as [H|H]; [lia|].
    rewrite species_step_skip by exact H. auto.
  - destruct (species_step_rates_other e nuConv k i a x) as [G1 G2];
      [congruence|].
    rewrite G1, G2. auto.
Qed.

Lemma prepared_arrays (e : Env) (recvbuff : Z -> double) (iter : Z)
    (diffT_ : double) (s : State) :
  let s4 := prepared e recvbuff iter diffT_ s in
  nuR s4 = nuR s /\ nuS s4 = nuS s /\ nuPrev s4 = nuPrev s.
Proof.
  cbv zeta. unfold prepared.
  apply (for_loop_ind
           (fun a => nuR a = nuR s /\ nuS a = nuS s /\ nuPrev a = nuPrev s)).
  - unfold unpack_cells.
    apply (for_loop_ind
             (fun a => nuR a = nuR s /\ nuS a = nuS s /\ nuPrev a = nuPrev s)).
    + unfold pack_cells.
      apply (for_loop_ind
               (fun a => nuR a = nuR s /\ nuS a = nuS s /\ nuPrev a = nuPrev s)).
      * unfold grids_stage.
        destruct ((iter =? 1) && dgt (bl e) d0); repeat split; reflexivity.
      * intros c a _ Ha.
        apply (for_loop_ind
                 (fun a => nuR a = nuR s /\ nuS a = nuS s
                           /\ nuPrev a = nuPrev s)); auto.
    + intros c a _ Ha.
      apply (for_loop_ind
               (fun a => nuR a = nuR s /\ nuS a = nuS s
                         /\ nuPrev a = nuPrev s)); auto.
  - intros k a _ (H1 & H2 & H3). unfold set_boundary, compute_bulk.
    destruct (unit_flag e =? 0);
      match goal with
      | |- context [if ?b then _ else _] => destruct b
      end; cbn; auto.
Qed.

Section DiffusionArrays.

Variable e : Env.
Variable recvbuff : Z -> double.
Variable nuConv : Z -> bool.
Variable iter : Z.
Variable diffT_ : double.
Variable s : State.

Let s4 := prepared e recvbuff iter diffT_ s.
Let conv0 :=
  for_loop 0 (nnus e + 1) (fun i c => upd c i true) (fun _ : Z => false).

Lemma final_static :
  static_eq s4 (fst (diffusion e recvbuff nuConv iter diffT_ s)).
Proof.
  rewrite diffusion_unfold.
  apply (species_loop_static e nuConv 1 (nnus e + 1) (s4, conv0)).
Qed.

Lemma diffusion_rate_reset_at (i grid : Z) :
  1 <= i <= nnus e ->
  processed e nuConv i = true ->
  0 <= grid < nXYZ s4 ->
  ghost s4 grid = false ->
  nuR (fst (diffusion e recvbuff nuConv iter diffT_ s)) i (rate_index e grid)
  = d0.
Proof.
  intros Hi Hp Hg Hgh. rewrite diffusion_unfold. fold s4 conv0.
  apply (for_loop_at
           (fun a => static_eq s4 (fst a))
           (fun a => nuR (fst a) i (rate_index e grid) = d0)
           1 i (nnus e + 1)); try lia.
  - apply static_eq_refl.
  - intros k a _ Ha. eapply static_eq_trans; [exact Ha|].
    apply species_step_static.
  - intros [a c] (Hn & _ & Hx & _). cbn [fst] in *.
    rewrite species_step_run by exact Hp. cbn [fst].
    destruct (snapshot_frame i a) as ((Sn & _ & Sg & _) & _).
    unfold cells. cbv zeta. apply cells_loop_rate_reset.
    + rewrite <- Sn, <- Hn. exact Hg.
    + rewrite <- Sg, <- Hx. exact Hgh.
  - intros k a Hk Ha.
    destruct (species_step_rates_other e nuConv k i a (rate_index e grid))
      as [G _]; [lia|].
    now rewrite G.
Qed.

Lemma diffusion_rate_cases (i x : Z) :
  let s' := fst (diffusion e recvbuff nuConv iter diffT_ s) in
  nuR s' i x = d0 \/ nuR s' i x = nuR s i x.
Proof.
  cbv zeta. rewrite diffusion_unfold. fold s4 conv0.
  destruct (prepared_arrays e recvbuff iter diffT_ s) as (HR & _). fold s4 in HR.
  apply (for_loop_ind
           (fun a => nuR (fst a) i x = d0 \/ nuR (fst a) i x = nuR s i x)).
  - right. cbn [fst]. now rewrite HR.
  - intros k [a c] _ Ha. cbn [fst] in Ha.
    destruct (Z.eq_dec k i) as [->|Hne].
    + destruct (processed e nuConv i) eqn:Hp.
      * rewrite species_step_run by exact Hp. cbn [fst]. unfold cells. cbv zeta.
        destruct (cells_loop_rate_cases e i 0 (nXYZ (snapshot i a))
                                        (snapshot i a) d0 x) as [G|G].
        -- now left.
        -- rewrite G. destruct (snapshot_arrays i a) as (S1 & _).
           now rewrite S1.
      * rewrite species_step_skip by exact Hp. exact Ha.
    + destruct (species_step_rates_other e nuConv k i (a, c) x) as [G _];
        [congruence|].
      rewrite G. exact Ha.
Qed.


Lemma diffusion_snapshot_at (i grid : Z) :
  1 <= i <= nnus e ->
  processed e nuConv i = true ->
  0 <= grid < nXYZ s4 ->
  nuPrev (fst (diffusion e recvbuff nuConv iter diffT_ s)) i grid
  = nuGrid s4 grid i.
Proof.
  intros Hi Hp Hg. rewrite diffusion_unfold. fold s4 conv0.
  apply (for_loop_at
           (fun a => static_eq s4 (fst a)
                     /\ nuGrid (fst a) grid i = nuGrid s4 grid i)
           (fun a => nuPrev (fst a) i grid = nuGrid s4 grid i)
           1 i (nnus e + 1)); try lia.
  - split; [apply static_eq_refl | reflexivity].
  - intros k a Hk [Ha1 Ha2]. split.
    + eapply static_eq_trans; [exact Ha1 | apply species_step_static].
    + destruct (species_step_other e nuConv k i a) as (G1 & _); [lia|].
      now rewrite G1.
  - intros [a c] [(Hn & _) Ha]. cbn [fst] in *.
    rewrite species_step_run by exact Hp. cbn [fst].
    destruct (cells_frame e i (snapshot i a)) as (_ & Cp & _).
    rewrite Cp.
    destruct (snapshot_arrays i a) as (_ & _ & Sp).
    rewrite Sp by (rewrite <- Hn; exact Hg). exact Ha.
  - intros k a Hk Ha.
    destruct (species_step_other e nuConv k i a) as (_ & G2 & _); [lia|].
    now rewrite G2.
Qed.

Lemma diffusion_frozen_at (i : Z) :
  processed e nuConv i = false ->
  let s' := fst (diffusion e recvbuff nuConv iter diffT_ s) in
  (forall grid, nuPrev s' i grid = nuPrev s i grid)
  /\ (forall x, nuR s' i x = nuR s i x /\ nuS s' i x = nuS s i x)
  /\ (forall grid, nuGrid s' grid i = nuGrid s4 grid i).
Proof.
  intro Hp. cbv zeta. rewrite diffusion_unfold. fold s4 conv0.
  destruct (prepared_arrays e recvbuff iter diffT_ s) as (HR & HS & HP).
  fold s4 in HR, HS, HP.
  destruct (species_loop_other e nuConv 1 (nnus e + 1) (s4, conv0) i)
    as (G1 & G2 & _); [now right|].
  cbn [fst] in G1, G2.
  split; [|split].
  - intro grid. now rewrite G2, HP.
  - intro x.
    destruct (species_loop_rates_other e nuConv 1 (nnus e + 1) (s4, conv0) i x)
      as [G3 G4]; [now right|].
    cbn [fst] in G3, G4. now rewrite G3, G4, HR, HS.
  - exact G1.
Qed.

End DiffusionArrays.

(** The ghost flags and the extent after a call are those
    [update_grids] left, or the earlier ones when it was not run. *)
Lemma diffusion_grids (e : Env) (recvbuff : Z -> double) (nuConv : Z -> bool)
    (iter : Z) (diffT_ : double) (s : State) :
  let s' := fst (diffusion e recvbuff nuConv iter diffT_ s) in
  nXYZ s' = nXYZ (grids_stage e iter s)
  /\ ghost s' = ghost (grids_stage e iter s)
  /\ nXYZ s' = nXYZ (prepared e recvbuff iter diffT_ s)
  /\ ghost s' = ghost (prepared e recvbuff iter diffT_ s).
Proof.
  cbv zeta.
  destruct (final_static e recvbuff nuConv iter diffT_ s) as (Hn & _ & Hg & _).
  destruct (prepared_frame e recvbuff iter diffT_ s) as (Pn & Pg & _).
  repeat split; congruence.
Qed.

(** X7.  For a species the call processes, the reaction rate of every
    true cell is zero after the call: [diffusion] consumes the rates it
    applies.  Any entry of the row of that species in [nuR] is either
    reset or left as it was. *)
Theorem diffusion_rate_reset (e : Env) (recvbuff : Z -> double)
    (nuConv : Z -> bool) (iter : Z) (diffT_ : double) (s : State) (i : Z) :
  1 <= i <= nnus e ->
  nuType e i = 0 ->
  nuConv i = false ->
  let s' := fst (diffusion e recvbuff nuConv iter diffT_ s) in
  (forall grid, 0 <= grid < nXYZ s' -> ghost s' grid = false ->
                nuR s' i (rate_index e grid) = d0)
  /\ (forall x, nuR s' i x = d0 \/ nuR s' i x = nuR s i x).
Proof.
  intros Hi Ht Hc. cbv zeta.
  assert (Hp : processed e nuConv i = true)
    by (unfold processed; now rewrite Ht, Hc).
  destruct (diffusion_grids e recvbuff nuConv iter diffT_ s)
    as (_ & _ & Hn & Hg).
  split.
  - intros grid H1 H2. apply diffusion_rate_reset_at; auto.
    + now rewrite <- Hn.
    + now rewrite <- Hg.
  - intro x. apply diffusion_rate_cases.
Qed.

Lemma diffusion_rate_reset_witness :
  let e := fst (one_species 1 d1 d1 d2) in
  let s := snd (one_species 1 d1 d1 d2) in
  let s' := fst (diffusion e (fun _ => d0) (fun _ => false) 1 (Q2Qc (1 # 10)) s) in
  1 <= 1 <= nnus e /\ nuType e 1 = 0
  /\ 0 <= 13 < nXYZ s' /\ ghost s' 13 = false
  /\ nuR s 1 (rate_index e 13) = d2
  /\ nuR s' 1 (rate_index e 13) = d0.
Proof.
  intros e s s'.
  assert (H1 : 1 <= 1 <= nnus e) by (vm_compute; split; discriminate).
  assert (H2 : nuType e 1 = 0) by reflexivity.
  assert (H3 : 0 <= 13 < nXYZ s')
    by (vm_compute; split; [discriminate | reflexivity]).
  assert (H4 : ghost s' 13 = false) by (vm_compute; reflexivity).
  repeat match goal with |- _ /\ _ => split; [assumption|] end.
  split; [reflexivity|].
  apply (proj1 (diffusion_rate_reset e (fun _ => d0) (fun _ => false) 1
                  (Q2Qc (1 # 10)) s 1 H1 H2 eq_refl) 13 H3 H4).
Defined.



(** X9.  A species the call does not process (one that is not a liquid,
    or whose flag is already true) is frozen: its snapshot, its reaction
    rates and its copy in [nuS] are untouched, and so is its
    concentration in every cell the halo exchange does not write. *)
Theorem diffusion_skips_species (e : Env) (recvbuff : Z -> double)
    (nuConv : Z -> bool) (iter : Z) (diffT_ : double) (s : State) (i : Z) :
  nuType e i <> 0 \/ nuConv i = true ->
  let s' := fst (diffusion e recvbuff nuConv iter diffT_ s) in
  (forall grid, nuPrev s' i grid = nuPrev s i grid)
  /\ (forall x, nuR s' i x = nuR s i x /\ nuS s' i x = nuS s i x)
  /\ (forall grid, not_received e grid -> nuGrid s' grid i = nuGrid s grid i).
Proof.
  intro H. cbv zeta.
  assert (Hp : processed e nuConv i = false).
  { unfold processed. destruct H as [H|H].
    - apply Z.eqb_neq in H. now rewrite H.
    - rewrite H. apply andb_false_r. }
  destruct (diffusion_frozen_at e recvbuff nuConv iter diffT_ s i Hp)
    as (A & B & C).
  split; [exact A | split; [exact B|]].
  intros grid Hr. rewrite C.
  destruct (prepared_frame e recvbuff iter diffT_ s) as (_ & _ & Hv).
  now apply Hv.
Qed.

Lemma diffusion_skips_species_witness :
  let e := fst (one_species 1 d1 d1 d2) in
  let s := snd (one_species 1 d1 d1 d2) in
  let nuConv := fun _ : Z => true in
  let s' := fst (diffusion e (fun _ => d0) nuConv 1 (Q2Qc (1 # 10)) s) in
  nuConv 1 = true /\ not_received e 13
  /\ nuGrid s' 13 1 = nuGrid s 13 1
  /\ nuR s' 1 0 = nuR s 1 0.
Proof.
  intros e s nuConv s'.
  assert (Hr : not_received e 13)
    by (intros c Hc; vm_compute in Hc; destruct Hc as [Hc1 Hc2];
        destruct c; [discriminate Hc2 | discriminate Hc2 | now elim Hc1]).
  split; [reflexivity | split; [exact Hr|]].
  destruct (diffusion_skips_species e (fun _ => d0) nuConv 1 (Q2Qc (1 # 10)) s 1
              (or_intror eq_refl)) as (_ & B & C).
  split; [now apply C | apply B].
Defined.

(** X10.  For a species the call processes, the snapshot [nuPrev] holds,
    for every cell of the local array, true or ghost, that the halo
    exchange does not write, the concentration the cell had when the call
    began. *)
Theorem diffusion_snapshot (e : Env) (recvbuff : Z -> double)
    (nuConv : Z -> bool) (iter : Z) (diffT_ : double) (s : State)
    (i grid : Z) :
  1 <= i <= nnus e ->
  nuType e i = 0 ->
  nuConv i = false ->
  not_received e grid ->
  let s' := fst (diffusion e recvbuff nuConv iter diffT_ s) in
  0 <= grid < nXYZ s' ->
  nuPrev s' i grid = nuGrid s grid i.
Proof.
  intros Hi Ht Hc Hr. cbv zeta. intro Hg.
  assert (Hp : processed e nuConv i = true)
    by (unfold processed; now rewrite Ht, Hc).
  destruct (diffusion_grids e recvbuff nuConv iter diffT_ s)
    as (_ & _ & Hn & _).
  rewrite diffusion_snapshot_at by (auto; now rewrite <- Hn).
  destruct (prepared_frame e recvbuff iter diffT_ s) as (_ & _ & Hv).
  now apply Hv.
Qed.

Lemma diffusion_snapshot_witness :
  let e := fst (one_species 1 d1 d1 d2) in
  let s := snd (one_species 1 d1 d1 d2) in
  let s' := fst (diffusion e (fun _ => d0) (fun _ => false) 1 (Q2Qc (1 # 10)) s) in
  1 <= 1 <= nnus e /\ nuType e 1 = 0 /\ not_received e 13
  /\ 0 <= 13 < nXYZ s'
  /\ nuPrev s' 1 13 = nuGrid s 13 1.
Proof.
  intros e s s'.
  assert (H1 : 1 <= 1 <= nnus e) by (vm_compute; split; discriminate).
  assert (H2 : nuType e 1 = 0) by reflexivity.
  assert (Hr : not_received e 13)
    by (intros c Hc; vm_compute in Hc; destruct Hc as [Hc1 Hc2];
        destruct c; [discriminate Hc2 | discriminate Hc2 | now elim Hc1]).
  assert (H3 : 0 <= 13 < nXYZ s')
    by (vm_compute; split; [discriminate | reflexivity]).
  repeat match goal with |- _ /\ _ => split; [assumption|] end.
  apply (diffusion_snapshot e (fun _ => d0) (fun _ => false) 1 (Q2Qc (1 # 10))
                            s 1 13 H1 H2 eq_refl Hr H3).
Defined.

(** X11.  During the loop that calls [compute_bc] the members [xbcm] ...
    [zbcp] hold the boundary values of the last species, number [nnus]:
    the loop over the species that fills them ends before that loop
    starts. *)
Theorem boundary_members_of_last_species (e : Env) (recvbuff : Z -> double)
    (iter : Z) (diffT_ : double) (s : State) :
  1 <= nnus e ->
  let s4 := prepared e recvbuff iter diffT_ s in
  xbcm s4 = boundary_value e (nnus e) 1 /\ xbcp s4 = boundary_value e (nnus e) 2
  /\ ybcm s4 = boundary_value e (nnus e) 3
  /\ ybcp s4 = boundary_value e (nnus e) 4
  /\ zbcm s4 = boundary_value e (nnus e) 5
  /\ zbcp s4 = boundary_value e (nnus e) 6.
Proof. intro H. now apply boundary_members_last. Qed.

Lemma boundary_members_of_last_species_witness :
  let e := two_species_env in
  let s4 := prepared e (fun _ => d0) 1 (Q2Qc (1 # 10)) two_species_state in
  1 <= nnus e /\ zbcm s4 = boundary_value e (nnus e) 5.
Proof.
  intros e s4.
  assert (H : 1 <= nnus e) by (vm_compute; discriminate).
  split; [exact H|].
  apply (boundary_members_of_last_species e (fun _ => d0) 1 (Q2Qc (1 # 10))
                                          two_species_state H).
Defined.

(** * The shear walk *)

Lemma shear_walk_run (gh : Z -> bool) (d : nat) (n : nat) (hgrid deep : Z) :
  (d < n)%nat ->
  gh (hgrid - Z.of_nat d) = true ->
  (forall j, 0 <= j < Z.of_nat d -> gh (hgrid - j) = false) ->
  shear_walk gh n hgrid deep = deep + Z.of_nat d.
Proof.
  revert n hgrid deep. induction d as [|d IH]; intros n hgrid deep Hn Hg Hf.
  - destruct n as [|n]; [lia|]. cbn [shear_walk].
    replace (hgrid - Z.of_nat 0) with hgrid in Hg by lia.
    rewrite Hg. lia.
  - destruct n as [|n]; [lia|]. cbn [shear_walk].
    assert (E0 : gh hgrid = false)
      by (replace hgrid with (hgrid - 0) by lia; apply Hf; lia).
    rewrite E0. rewrite IH.
    + lia.
    + lia.
    + replace (hgrid - 1 - Z.of_nat d) with (hgrid - Z.of_nat (S d)) by lia.
      exact Hg.
    + intros j Hj. replace (hgrid - 1 - j) with (hgrid - (j + 1)) by lia.
      apply Hf. lia.
Qed.

(** X12.  The depth used by the shear term of a cell is the number of
    steps down the flat index, one cell at a time, to the nearest ghost
    cell: when cell [grid - d] is a ghost cell and the [d] cells from
    [grid - d + 1] to [grid] are true cells, the shear term is
    [shearRate * (d * stepz - stepz / 2) * (c[+1] - c[-1]) / (2 * stepz)]. *)
Theorem shear_term_depth (e : Env) (s : State) (c : Z -> double) (grid d : Z) :
  shearRate e <> d0 ->
  0 <= d <= grid ->
  ghost s (grid - d) = true ->
  (forall j, 0 <= j < d -> ghost s (grid - j) = false) ->
  shear_term e s c grid
  = (shearRate e * (d_of_Z d * stepz e - stepz e / d2)
     * (c (grid + 1)%Z - c (grid - 1)%Z) / (d2 * stepz e))%Qc.
Proof.
  intros Hs Hd Hg Hf. unfold shear_term.
  destruct (deq (shearRate e) d0) eqn:E;
    [apply deq_true in E; contradiction|].
  cbn [negb].
  rewrite (shear_walk_run (ghost s) (Z.to_nat d)).
  - replace (0 + Z.of_nat (Z.to_nat d)) with d by lia. reflexivity.
  - lia.
  - replace (Z.of_nat (Z.to_nat d)) with d by lia. exact Hg.
  - intros j Hj. apply Hf. lia.
Qed.

Lemma shear_term_depth_witness :
  let e := ex_env 1 (fun _ => "sub"%string) (fun _ => 0) (fun _ _ => d1) 3 3 3
                  (fun _ => d1) d2 (Q2Qc (1 # 100)) d0 d0 in
  let s := sink_state in
  let c := fun grid => nuGrid s grid 1 in
  shearRate e <> d0 /\ 0 <= 1 <= 13 /\ ghost s (13 - 1) = true
  /\ (forall j, 0 <= j < 1 -> ghost s (13 - j) = false)
  /\ shear_term e s c 13
     = (shearRate e * (d_of_Z 1 * stepz e - stepz e / d2)
        * (c 14 - c 12) / (d2 * stepz e))%Qc.
Proof.
  intros e s c.
  assert (H1 : shearRate e <> d0) by qc_neq.
  assert (H2 : 0 <= 1 <= 13) by lia.
  assert (H3 : ghost s (13 - 1) = true) by reflexivity.
  assert (H4 : forall j, 0 <= j < 1 -> ghost s (13 - j) = false)
    by (intros j Hj; assert (j = 0) by lia; subst j; reflexivity).
  repeat match goal with |- _ /\ _ => split; [assumption|] end.
  apply (shear_term_depth e s c 13 1 H1 H2 H3 H4).
Defined.

(** * [getMaxHeight] *)

(** X13.  [getMaxHeight] returns a height that is at least 0 and at
    least the top [x[i][2] + r[i]] of every local atom, and that is 0 or
    the top of one of them. *)
Theorem getMaxHeight_bound (nlocal_ : Z) (x_ : Z -> Z -> double)
    (r : Z -> double) :
  (d0 <= getMaxHeight nlocal_ x_ r)%Qc
  /\ (forall i, 0 <= i < nlocal_ ->
                (x_ i 2 + r i <= getMaxHeight nlocal_ x_ r)%Qc)
  /\ (getMaxHeight nlocal_ x_ r = d0
      \/ exists i, 0 <= i < nlocal_
                   /\ getMaxHeight nlocal_ x_ r = (x_ i 2 + r i)%Qc).
Proof.
  unfold getMaxHeight. cbv zeta.
  set (body := fun (i : Z) (maxh : Qc) =>
                 if dgt (x_ i 2 + r i)%Qc maxh then (x_ i 2 + r i)%Qc else maxh).
  assert (Hmono : forall i m, (m <= body i m)%Qc /\ (x_ i 2 + r i <= body i m)%Qc).
  { intros i m. unfold body, dgt.
    destruct (dlt m (x_ i 2 + r i)) eqn:E.
    - apply dlt_true in E. split; [now apply Qclt_le_weak | apply Qcle_refl].
    - split; [apply Qcle_refl|].
      apply Qcnot_lt_le. intro H. apply dlt_true in H. congruence. }
  split; [|split].
  - apply (for_loop_ind (fun m => (d0 <= m)%Qc)); [apply Qcle_refl|].
    intros k m _ Hm. eapply Qcle_trans; [exact Hm | apply Hmono].
  - intros i Hi.
    apply (for_loop_at (fun _ => True)
                       (fun m => (x_ i 2 + r i <= m)%Qc) 0 i nlocal_); auto.
    + intros m _. apply Hmono.
    + intros k m _ Hm. eapply Qcle_trans; [exact Hm | apply Hmono].
  - apply (for_loop_ind
             (fun m => m = d0
                       \/ exists i, 0 <= i < nlocal_ /\ m = (x_ i 2 + r i)%Qc));
      [now left|].
    intros k m Hk Hm. unfold body.
    destruct (dgt (x_ k 2 + r k) m); [right; eauto | exact Hm].
Qed.

Lemma getMaxHeight_bound_witness :
  let x_ := fun i (_ : Z) => d_of_Z i in
  let r := fun _ : Z => d1 in
  0 <= 1 < 2 /\ (x_ 1%Z 2%Z + r 1%Z <= getMaxHeight 2 x_ r)%Qc.
Proof.
  intros x_ r.
  assert (H : 0 <= 1 < 2) by lia.
  split; [exact H|].
  destruct (getMaxHeight_bound 2 x_ r) as (_ & G & _).
  exact (G 1 H).
Defined.


(** * The constructor's reading of its arguments *)

(** X14.  The x and y axes accept exactly the kinds pp, dd, nd, nn and
    dn, read as 0, 1, 2, 3 and 4, and answer every other word with their
    error message; the z axis reads these five words in the same way,
    reads db as 5 and answers every other word with its error message, so
    that db is an error on x and on y. *)
Theorem parse_bc_codes (arg : string) :
  let five (n : Z) :=
    (arg = "pp"%string /\ n = 0) \/ (arg = "dd"%string /\ n = 1) \/ (arg = "nd"%string /\ n = 2)
    \/ (arg = "nn"%string /\ n = 3) \/ (arg = "dn"%string /\ n = 4) in
  (forall n, parse_xbc arg = inr n <-> five n)
  /\ (forall n, parse_ybc arg = inr n <-> five n)
  /\ (forall n, parse_zbc arg = inr n <-> five n \/ (arg = "db"%string /\ n = 5))
  /\ ((exists n, parse_xbc arg = inr n)
      \/ parse_xbc arg = inl "Illegal x-axis boundary condition command"%string)
  /\ ((exists n, parse_ybc arg = inr n)
      \/ parse_ybc arg = inl "Illegal y-axis boundary condition command"%string)
  /\ ((exists n, parse_zbc arg = inr n)
      \/ parse_zbc arg = inl "Illegal z-axis boundary condition command"%string).
Proof.
  cbv zeta. unfold parse_xbc, parse_ybc, parse_zbc, parse_xybc.
  destruct (String.eqb_spec arg "pp") as [->|N0];
    [repeat split; intros; eauto; intuition congruence|].
  destruct (String.eqb_spec arg "dd") as [->|N1];
    [repeat split; intros; eauto; intuition congruence|].
  destruct (String.eqb_spec arg "nd") as [->|N2];
    [repeat split; intros; eauto; intuition congruence|].
  destruct (String.eqb_spec arg "nn") as [->|N3];
    [repeat split; intros; eauto; intuition congruence|].
  destruct (String.eqb_spec arg "dn") as [->|N4];
    [repeat split; intros; eauto; intuition congruence|].
  destruct (String.eqb_spec arg "db") as [->|N5];
    repeat split; intros; eauto; intuition congruence.
Qed.

Lemma parse_bc_codes_witness :
  parse_xbc "nd" = inr 2 /\ parse_ybc "nd" = inr 2 /\ parse_zbc "db" = inr 5
  /\ parse_xbc "db" = inl "Illegal x-axis boundary condition command"%string.
Proof.
  destruct (parse_bc_codes "nd") as (X & Y & _).
  destruct (parse_bc_codes "db") as (Xb & _ & Z5 & [[n E]|E] & _).
  - apply Xb in E. exfalso.
    destruct E as [[E _]|[[E _]|[[E _]|[[E _]|[E _]]]]]; discriminate E.
  - split; [apply X; right; right; left; split; reflexivity|].
    split; [apply Y; right; right; left; split; reflexivity|].
    split; [apply Z5; right; split; reflexivity | exact E].
Defined.


(** * Further properties of [integration] *)

(** X15.  The initialisation of [integration] sets the flag of every
    species in [1 .. nnus]: to true for the species named "h2o" and "h",
    to false for every other one, whatever the flags held before; entries
    outside [1 .. nnus] are not written. *)
Theorem init_flags_exempt {World : Type} (k : Kinetics.Fix World)
    (nuConv0 : Z -> bool) (i : Z) :
  Kinetics.init_flags k nuConv0 i
  = if (1 <=? i) && (i <=? Kinetics.nnus k)
    then String.eqb (Kinetics.nuName k i) "h2o"
         || String.eqb (Kinetics.nuName k i) "h"
    else nuConv0 i.
Proof.
  unfold Kinetics.init_flags.
  destruct ((1 <=? i) && (i <=? Kinetics.nnus k)) eqn:Hr.
  - apply andb_prop in Hr. destruct Hr as [H1 H2].
    apply Z.leb_le in H1. apply Z.leb_le in H2.
    apply (for_loop_at (fun _ => True)
             (fun a : Z -> bool =>
                a i = String.eqb (Kinetics.nuName k i) "h2o"
                      || String.eqb (Kinetics.nuName k i) "h")
             1 i (Kinetics.nnus k + 1)); auto; try lia.
    + intros a _.
      destruct (String.eqb (Kinetics.nuName k i) "h2o");
        [now rewrite upd_same|].
      destruct (String.eqb (Kinetics.nuName k i) "h"); now rewrite upd_same.
    + intros j a Hj Ha.
      destruct (String.eqb (Kinetics.nuName k j) "h2o");
        [rewrite upd_other by lia; exact Ha|].
      destruct (String.eqb (Kinetics.nuName k j) "h");
        rewrite upd_other by lia; exact Ha.
  - apply (for_loop_ind (fun a : Z -> bool => a i = nuConv0 i)); auto.
    intros j a Hj Ha.
    assert (Hne : i <> j).
    { apply andb_false_iff in Hr. destruct Hr as [Hr|Hr].
      - apply Z.leb_gt in Hr. lia.
      - apply Z.leb_gt in Hr. lia. }
    destruct (String.eqb (Kinetics.nuName k j) "h2o");
      [rewrite upd_other by exact Hne; exact Ha|].
    destruct (String.eqb (Kinetics.nuName k j) "h");
      rewrite upd_other by exact Hne; exact Ha.
Qed.

(** X16.  Without a diffusion stepper, and when no collaborator ends the
    run, [integration] makes exactly one pass: it leaves the flags as the
    initialisation set them (the flags of the species other than "h2o"
    and "h" stay false), prints the count 1 and nothing else, and hands
    the world through pH or activities, thermodynamics, growth over
    [diffT] and growth over [dt * nevery], in that order. *)
Theorem integration_without_diffusion {World : Type} (k : Kinetics.Fix World)
    (w : World) (nuConv0 : Z -> bool) (fuel : nat) :
  Kinetics.diffusion k = None ->
  never_fail k ->
  exists r w1 w2 w3,
    Kinetics.integration (S fuel) k w nuConv0 = Some (inr r)
    /\ Kinetics.iteration r = 1
    /\ Kinetics.nuConv r = Kinetics.init_flags k nuConv0
    /\ Kinetics.out r = [Kinetics.PrintIterations 1]
    /\ match Kinetics.ph k with
       | Some solve_ph => solve_ph w
       | None => Kinetics.init_activity k w
       end = inr w1
    /\ Kinetics.call (Kinetics.thermo k) w1 = inr w2
    /\ Kinetics.call (option_map (fun growth => growth (Kinetics.diffT k))
                                 (Kinetics.monod k)) w2 = inr w3
    /\ Kinetics.call
         (option_map
            (fun growth =>
               growth (Kinetics.dt k * d_of_Z (Kinetics.nevery k))%Qc)
            (Kinetics.monod k)) w3
       = inr (Kinetics.world r).
Proof.
  intros Hd (N1 & N2 & N3 & _).
  destruct (N1 w) as [w1 E1]. destruct (N2 w1) as [w2 E2].
  destruct (N3 (Kinetics.diffT k) w2) as [w3 E3].
  destruct (N3 (Kinetics.dt k * d_of_Z (Kinetics.nevery k))%Qc w3) as [w4 E4].
  unfold Kinetics.integration. cbn [Kinetics.while_loop Kinetics.isConv].
  unfold Kinetics.pass. cbn [Kinetics.world Kinetics.iteration Kinetics.nuConv
                             Kinetics.out].
  rewrite E1, E2, E3, Hd. cbn [Kinetics.world]. rewrite E4.
  exists {| Kinetics.iteration := 1; Kinetics.isConv := true;
            Kinetics.world := w4;
            Kinetics.nuConv := Kinetics.init_flags k nuConv0;
            Kinetics.out := [Kinetics.PrintIterations 1] |}, w1, w2, w3.
  cbn. repeat match goal with |- _ /\ _ => split end; auto.
Qed.

Lemma lone_never_fail : never_fail lone_kinetics.
Proof.
  repeat split.
  - intro w. eexists. reflexivity.
  - intro w. eexists. reflexivity.
  - intros t w. eexists. reflexivity.
  - intros d Hd. discriminate Hd.
Qed.

Lemma integration_without_diffusion_witness :
  Kinetics.diffusion lone_kinetics = None
  /\ never_fail lone_kinetics
  /\ exists r,
       Kinetics.integration 1 lone_kinetics 0 (fun _ => true) = Some (inr r)
       /\ Kinetics.iteration r = 1
       /\ Kinetics.nuConv r = Kinetics.init_flags lone_kinetics (fun _ => true).
Proof.
  split; [reflexivity | split; [exact lone_never_fail|]].
  destruct (integration_without_diffusion lone_kinetics 0 (fun _ => true) 0%nat
              eq_refl lone_never_fail)
    as (r & _ & _ & _ & H1 & H2 & H3 & _).
  exists r. auto.
Defined.

(** The run above: species "x" is left unconverged, growth is applied
    twice. *)
Lemma integration_without_diffusion_run :
  match Kinetics.integration 1 lone_kinetics 0 (fun _ => true) with
  | Some (inr r) =>
    Kinetics.nuConv r 1 = false /\ Kinetics.nuConv r 2 = true
    /\ Kinetics.world r = 2
  | _ => False
  end.
Proof. vm_compute. repeat split. Qed.

Section LoopMore.

Import Kinetics.

Context {World : Type}.
Variable k : Fix World.
Variable d :
  World -> (Z -> bool) -> Z -> double -> fallible (World * (Z -> bool)).
Hypothesis Hd : diffusion k = Some d.
Hypothesis N : never_fail k.

(** The loop ends at the first pass whose call of [diffusion] returns
    flags that are all true. *)
Lemma while_loop_first_pass (fuel : nat) (r : Run World) :
  isConv r = false ->
  iteration r + 1 <= 10000 ->
  (forall w c w' c', d w c (iteration r + 1) (diffT k) = inr (w', c') ->
                     forall i, 1 <= i <= nnus k -> c' i = true) ->
  exists r1 w3 w4 c,
    while_loop (S fuel) k r = Some (inr r1)
    /\ d w3 (nuConv r) (iteration r + 1) (diffT k) = inr (w4, c)
    /\ iteration r1 = iteration r + 1 /\ nuConv r1 = c /\ out r1 = out r
    /\ world r1 = w4.
Proof.
  intros Ec Hit Hall. rewrite while_loop_step by exact Ec.
  destruct (pass_total k d Hd r N) as (w3 & w4 & c & Ed & E). rewrite E.
  assert (Ha : after_pass k r w4 c
               = {| iteration := iteration r + 1; isConv := true; world := w4;
                    nuConv := c; out := out r |}).
  { unfold after_pass.
    replace (iteration r + 1 >? 10000) with false
      by (symmetry; rewrite Z.gtb_ltb; apply Z.ltb_ge; lia).
    f_equal. rewrite all_converged_forallb. apply forallb_forall.
    intros i Hi. apply in_range in Hi. apply (Hall _ _ _ _ Ed). lia. }
  rewrite Ha, while_loop_done by reflexivity.
  do 4 eexists. split; [reflexivity|]. split; [exact Ed|].
  cbn. auto.
Qed.

(** A pass whose call of [diffusion] leaves a flag false is followed by
    another pass, up to the cap. *)
Lemma while_loop_stuck (n m : nat) (r : Run World) :
  (forall w c it w' c', d w c it (diffT k) = inr (w', c') ->
                        exists i, 1 <= i <= nnus k /\ c' i = false) ->
  isConv r = false ->
  iteration r + Z.of_nat (S n) = 10001 ->
  exists r1, while_loop (S n + m) k r = Some (inr r1) /\ iteration r1 = 10001.
Proof.
  intro Hst. revert r. induction n as [|n IH]; intros r Ec Hit;
    cbn [Nat.add]; rewrite while_loop_step by exact Ec;
      destruct (pass_total k d Hd r N) as (w3 & w4 & c & Ed & E); rewrite E.
  - assert (Ha : isConv (after_pass k r w4 c) = true
                 /\ iteration (after_pass k r w4 c) = 10001).
    { unfold after_pass.
      replace (iteration r + 1 >? 10000) with true
        by (symmetry; apply Z.gtb_lt; lia).
      cbn. split; [reflexivity | lia]. }
    destruct Ha as [Ha1 Ha2].
    rewrite while_loop_done by exact Ha1. eauto.
  - assert (Ha : after_pass k r w4 c
                 = {| iteration := iteration r + 1; isConv := false;
                      world := w4; nuConv := c; out := out r |}).
    { unfold after_pass.
      replace (iteration r + 1 >? 10000) with false
        by (symmetry; rewrite Z.gtb_ltb; apply Z.ltb_ge; lia).
      f_equal. rewrite all_converged_forallb.
      destruct (Hst _ _ _ _ _ Ed) as [i [Hi Hf]].
      destruct (forallb c (range 1 (nnus k + 1))) eqn:Ef; [|reflexivity].
      rewrite forallb_forall in Ef. rewrite Ef in Hf; [discriminate Hf|].
      apply in_range. lia. }
    rewrite Ha. apply IH; [reflexivity|]. cbn [iteration]. lia.
Qed.

End LoopMore.

(** X17.  When the first call of [diffusion] returns flags that are all
    true, [integration] makes exactly one pass and prints only the count
    1; the flags it ends with are those the call returned. *)
Theorem integration_one_pass {World : Type} (k : Kinetics.Fix World)
    (d : World -> (Z -> bool) -> Z -> double
         -> Kinetics.fallible (World * (Z -> bool)))
    (w : World) (nuConv0 : Z -> bool) (fuel : nat) :
  Kinetics.diffusion k = Some d ->
  never_fail k ->
  (forall w c w' c', d w c 1 (Kinetics.diffT k) = inr (w', c') ->
                     forall i, 1 <= i <= Kinetics.nnus k -> c' i = true) ->
  exists r w3 w4,
    Kinetics.integration (S fuel) k w nuConv0 = Some (inr r)
    /\ Kinetics.iteration r = 1
    /\ d w3 (Kinetics.init_flags k nuConv0) 1 (Kinetics.diffT k)
       = inr (w4, Kinetics.nuConv r)
    /\ Kinetics.out r = [Kinetics.PrintIterations 1].
Proof.
  intros Hd N Hall. unfold Kinetics.integration.
  set (r0 := {| Kinetics.iteration := 0; Kinetics.isConv := false;
                Kinetics.world := w;
                Kinetics.nuConv := Kinetics.init_flags k nuConv0;
                Kinetics.out := [] |}).
  destruct (while_loop_first_pass k d Hd N fuel r0)
    as (r1 & w3 & w4 & c & E & Ed & H1 & H2 & H3 & H4);
    [reflexivity | cbn; lia | exact Hall |].
  rewrite E. destruct N as (_ & _ & N3 & _).
  destruct (N3 (Kinetics.dt k * d_of_Z (Kinetics.nevery k))%Qc
               (Kinetics.world r1)) as [w' Ew].
  rewrite Ew. do 3 eexists. split; [reflexivity|].
  cbn [Kinetics.iteration Kinetics.nuConv Kinetics.out].
  rewrite H1, H2, H3. cbn. split; [reflexivity|]. split; [exact Ed|].
  reflexivity.
Qed.

Lemma quick_never_fail : never_fail quick_kinetics.
Proof.
  repeat split.
  - intro w. eexists. reflexivity.
  - intro w. eexists. reflexivity.
  - intros t w. eexists. reflexivity.
  - intros d Hd w c it t. cbn in Hd. injection Hd as <-. eexists. reflexivity.
Qed.

Lemma integration_one_pass_witness :
  let d := fun (w : Z) (_ : Z -> bool) (_ : Z) (_ : double) =>
             inr (w + 1, fun _ : Z => true)
             : Kinetics.fallible (Z * (Z -> bool)) in
  Kinetics.diffusion quick_kinetics = Some d
  /\ never_fail quick_kinetics
  /\ (forall w c w' c', d w c 1 (Kinetics.diffT quick_kinetics) = inr (w', c') ->
                        forall i, 1 <= i <= Kinetics.nnus quick_kinetics ->
                                  c' i = true)
  /\ exists r,
       Kinetics.integration 1 quick_kinetics 0 (fun _ => false) = Some (inr r)
       /\ Kinetics.iteration r = 1.
Proof.
  intro d.
  assert (Hall : forall w c w' c',
             d w c 1 (Kinetics.diffT quick_kinetics) = inr (w', c') ->
             forall i, 1 <= i <= Kinetics.nnus quick_kinetics -> c' i = true)
    by (intros w c w' c' E i _; injection E as _ <-; reflexivity).
  split; [reflexivity | split; [exact quick_never_fail | split; [exact Hall|]]].
  destruct (integration_one_pass quick_kinetics d 0 (fun _ => false) 0%nat
              eq_refl quick_never_fail Hall) as (r & _ & _ & H1 & H2 & _).
  exists r. auto.
Defined.

(** X18.  When every call of [diffusion] leaves the flag of some species
    false, [integration] makes exactly 10001 passes: the test
    [iteration > 10000] lets pass 10001 run before it ends the loop. *)
Theorem integration_cap {World : Type} (k : Kinetics.Fix World)
    (d : World -> (Z -> bool) -> Z -> double
         -> Kinetics.fallible (World * (Z -> bool)))
    (w : World) (nuConv0 : Z -> bool) (m : nat) :
  Kinetics.diffusion k = Some d ->
  never_fail k ->
  (forall w c it w' c', d w c it (Kinetics.diffT k) = inr (w', c') ->
                        exists i, 1 <= i <= Kinetics.nnus k /\ c' i = false) ->
  exists r,
    Kinetics.integration (Z.to_nat 10001 + m) k w nuConv0 = Some (inr r)
    /\ Kinetics.iteration r = 10001.
Proof.
  intros Hd N Hst. unfold Kinetics.integration.
  set (r0 := {| Kinetics.iteration := 0; Kinetics.isConv := false;
                Kinetics.world := w;
                Kinetics.nuConv := Kinetics.init_flags k nuConv0;
                Kinetics.out := [] |}).
  replace (Z.to_nat 10001 + m)%nat with (S (Z.to_nat 10000) + m)%nat by lia.
  destruct (while_loop_stuck k d Hd N (Z.to_nat 10000) m r0 Hst)
    as (r1 & E & H1); [reflexivity | cbn [Kinetics.iteration r0]; lia |].
  rewrite E. destruct N as (_ & _ & N3 & _).
  destruct (N3 (Kinetics.dt k * d_of_Z (Kinetics.nevery k))%Qc
               (Kinetics.world r1)) as [w' Ew].
  rewrite Ew. eexists. split; [reflexivity | exact H1].
Qed.

Lemma integration_cap_witness :
  let k := with_diffusion stuck_kinetics
             (fun w _ _ _ => inr (w + 1, fun _ : Z => false)) in
  let d := fun (w : Z) (_ : Z -> bool) (_ : Z) (_ : double) =>
             inr (w + 1, fun _ : Z => false)
             : Kinetics.fallible (Z * (Z -> bool)) in
  Kinetics.diffusion k = Some d
  /\ never_fail k
  /\ (forall w c it w' c', d w c it (Kinetics.diffT k) = inr (w', c') ->
                           exists i, 1 <= i <= Kinetics.nnus k /\ c' i = false)
  /\ exists r,
       Kinetics.integration (Z.to_nat 10001 + 0) k 0 (fun _ => false)
       = Some (inr r)
       /\ Kinetics.iteration r = 10001.
Proof.
  intros k d.
  assert (Hn : never_fail k).
  { repeat split.
    - intro w. eexists. reflexivity.
    - intro w. eexists. reflexivity.
    - intros t w. eexists. reflexivity.
    - intros d0 Hd w c it t. cbn in Hd. injection Hd as <-.
      eexists. reflexivity. }
  assert (Hst : forall w c it w' c',
             d w c it (Kinetics.diffT k) = inr (w', c') ->
             exists i, 1 <= i <= Kinetics.nnus k /\ c' i = false)
    by (intros w c it w' c' E; injection E as _ <-; exists 1;
        split; [cbn; lia | reflexivity]).
  split; [reflexivity | split; [exact Hn | split; [exact Hst|]]].
  apply (integration_cap k d 0 (fun _ => false) 0%nat eq_refl Hn Hst).
Defined.

(** * The cells of the cyanobacteria kinetics *)

Section Cyano.

Import CyanoCells.

Lemma functor_frame (R G : bool) (f : Functor) (i : Z) (g : Grid) :
  let g' := functor R G f i g in
  ncells g' = ncells g /\ d_mask g' = d_mask g /\ d_conc g' = d_conc g
  /\ d_dens g' = d_dens g
  /\ (R = false -> d_reac g' = d_reac g)
  /\ (G = false -> d_growth g' = d_growth g)
  /\ (Z.land (d_mask g i) (GHOST_MASK f) <> 0 -> d_reac g' = d_reac g)
  /\ (forall sp i', i' <> i -> d_reac g' sp i' = d_reac g sp i')
  /\ (forall gr i' z, i' <> i -> d_growth g' gr i' z = d_growth g gr i' z).
Proof.
  cbv zeta. unfold functor.
  destruct R, G, (Z.land (d_mask g i) (GHOST_MASK f) =? 0) eqn:Em,
    (gco2_flag f =? 1);
    cbn [andb ncells d_mask d_conc d_dens d_reac d_growth set_reac set_growth
         add_reac sub_reac];
    repeat match goal with |- _ /\ _ => split end;
    try reflexivity; try discriminate;
    try (intro Hm; apply Z.eqb_eq in Em; contradiction);
    try (intros _; reflexivity);
    try (intros sp i' Hi; rewrite ?upd2_other by (right; exact Hi); reflexivity);
    try (intros gr i' z Hi; unfold upd3;
         destruct (gr =? igroup f); [|reflexivity];
         rewrite upd2_other by (left; exact Hi); reflexivity).
Qed.

(** X19.  [update_cells] writes reaction rates and growth rates only:
    concentrations, densities, masks and the number of cells are left
    alone; with [Reaction = 0] no reaction rate changes, with [Growth = 0]
    no growth rate changes; and the reaction rates of a ghost cell, and of
    any index outside [0 .. ncells-1], never change. *)
Theorem update_cells_frame (R G : bool) (f : Functor) (g : Grid) :
  let g' := update_cells R G f g in
  (ncells g' = ncells g /\ d_mask g' = d_mask g /\ d_conc g' = d_conc g
   /\ d_dens g' = d_dens g)
  /\ (R = false -> d_reac g' = d_reac g)
  /\ (G = false -> d_growth g' = d_growth g)
  /\ (forall sp i,
         Z.land (d_mask g i) (GHOST_MASK f) <> 0 \/ ~ 0 <= i < ncells g ->
         d_reac g' sp i = d_reac g sp i).
Proof.
  cbv zeta. unfold update_cells.
  split; [|split; [|split]].
  - apply (for_loop_ind
             (fun a => ncells a = ncells g /\ d_mask a = d_mask g
                       /\ d_conc a = d_conc g /\ d_dens a = d_dens g)); auto.
    intros k a _ (H1 & H2 & H3 & H4).
    destruct (functor_frame R G f k a) as (F1 & F2 & F3 & F4 & _).
    repeat split; congruence.
  - intro HR.
    apply (for_loop_ind (fun a => d_reac a = d_reac g)); auto.
    intros k a _ Ha.
    destruct (functor_frame R G f k a) as (_ & _ & _ & _ & F5 & _).
    rewrite F5 by exact HR. exact Ha.
  - intro HG.
    apply (for_loop_ind (fun a => d_growth a = d_growth g)); auto.
    intros k a _ Ha.
    destruct (functor_frame R G f k a) as (_ & _ & _ & _ & _ & F6 & _).
    rewrite F6 by exact HG. exact Ha.
  - intros sp i Hi.
    apply (for_loop_ind
             (fun a => d_mask a = d_mask g /\ d_reac a sp i = d_reac g sp i));
      auto.
    intros k a Hk [Hm Ha].
    destruct (functor_frame R G f k a) as (_ & F2 & _ & _ & _ & _ & F7 & F8 & _).
    split; [congruence|].
    destruct (Z.eq_dec i k) as [->|Hne].
    + destruct Hi as [Hi|Hi]; [|lia].
      rewrite F7 by (rewrite Hm; exact Hi). exact Ha.
    + rewrite F8 by exact Hne. exact Ha.
Qed.

Lemma update_cells_frame_witness :
  let g' := update_cells true true cyano_functor cyano_grid in
  Z.land (d_mask cyano_grid 1) (GHOST_MASK cyano_functor) <> 0
  /\ d_reac g' 1 1 = d_reac cyano_grid 1 1.
Proof.
  intro g'.
  assert (H : Z.land (d_mask cyano_grid 1) (GHOST_MASK cyano_functor) <> 0)
    by discriminate.
  split; [exact H|].
  apply (proj2 (proj2 (proj2 (update_cells_frame true true cyano_functor
                                                 cyano_grid))) 1 1
               (or_introl H)).
Defined.

Lemma update_cells_at (R G : bool) (f : Functor) (g : Grid) (i : Z)
    (Q : Grid -> Prop) :
  0 <= i < ncells g ->
  (forall a, d_mask a = d_mask g -> d_conc a = d_conc g -> d_dens a = d_dens g ->
             (forall sp, d_reac a sp i = d_reac g sp i) ->
             Q (functor R G f i a)) ->
  (forall k a, k <> i -> Q a -> Q (functor R G f k a)) ->
  Q (update_cells R G f g).
Proof.
  intros Hi Hat Hpost. unfold update_cells.
  apply (for_loop_at
           (fun a => d_mask a = d_mask g /\ d_conc a = d_conc g
                     /\ d_dens a = d_dens g
                     /\ forall sp, d_reac a sp i = d_reac g sp i)
           Q 0 i (ncells g)); auto.
  - intros k a Hk (H1 & H2 & H3 & H4).
    destruct (functor_frame R G f k a) as (_ & F2 & F3 & F4 & _ & _ & _ & F8 & _).
    repeat split; try congruence.
    intro sp. rewrite F8 by lia. apply H4.
  - intros a (H1 & H2 & H3 & H4). now apply Hat.
  - intros k a Hk Ha. apply Hpost; [lia | exact Ha].
Qed.

Lemma cells_growth_value (R : bool) (f : Functor) (g : Grid) (i : Z) :
  0 <= i < ncells g ->
  d_growth (update_cells R true f g) (igroup f) i 0
  = (growth f * (d_conc g (ilight f) i / (light_affinity f + d_conc g (ilight f) i))
     * (d_conc g (ico2 f) i / (co2_affinity f + d_conc g (ico2 f) i))
     * (d1 - Q2Qc (2 # 10) * suc_exp f) - decay f - maintain f)%Qc.
Proof.
  intro Hi.
  apply (update_cells_at R true f g i
           (fun a => d_growth a (igroup f) i 0
                     = (growth f
                        * (d_conc g (ilight f) i
                           / (light_affinity f + d_conc g (ilight f) i))
                        * (d_conc g (ico2 f) i
                           / (co2_affinity f + d_conc g (ico2 f) i))
                        * (d1 - Q2Qc (2 # 10) * suc_exp f)
                        - decay f - maintain f)%Qc) Hi).
  - intros a Hm Hc Hd Hr.
    assert (Ht : tmp1 f a i = tmp1 f g i) by (unfold tmp1; now rewrite Hc).
    unfold functor. cbv zeta. rewrite Ht.
    match goal with
    | |- d_growth (set_growth _ ?x) _ _ _ = _ =>
      cbn [d_growth set_growth]
    end.
    unfold upd3. rewrite Z.eqb_refl, upd2_same.
    unfold tmp1, Qcdiv. change d1 with 1%Qc. ring.
  - intros k a Hk Ha.
    destruct (functor_frame R true f k a) as (_ & _ & _ & _ & _ & _ & _ & _ & F9).
    rewrite F9 by congruence. exact Ha.
Qed.

(** X20.  With [Growth = 1] the growth rate of the group in every cell,
    ghost or not, is [tmp1 * (1 - 0.2 * suc_exp) - decay - maintain],
    where [tmp1] is the double Monod term
    [growth * light/(K_light + light) * co2/(K_co2 + co2)] of the
    concentrations in that cell. *)
Theorem update_cells_growth (R : bool) (f : Functor) (g : Grid) (i : Z) :
  0 <= i < ncells g ->
  d_growth (update_cells R true f g) (igroup f) i 0
  = (growth f * (d_conc g (ilight f) i / (light_affinity f + d_conc g (ilight f) i))
     * (d_conc g (ico2 f) i / (co2_affinity f + d_conc g (ico2 f) i))
     * (d1 - Q2Qc (2 # 10) * suc_exp f) - decay f - maintain f)%Qc.
Proof. exact (cells_growth_value R f g i). Qed.

Lemma update_cells_growth_witness :
  0 <= 1 < ncells cyano_grid
  /\ d_growth (update_cells true true cyano_functor cyano_grid)
              (igroup cyano_functor) 1 0 = Q2Qc (7 # 10).
Proof.
  assert (H : 0 <= 1 < ncells cyano_grid)
    by (vm_compute; split; [discriminate | reflexivity]).
  split; [exact H|].
  rewrite (update_cells_growth true cyano_functor cyano_grid 1 H). qc_eq.
Defined.

End Cyano.

Section CyanoReaction.

Import CyanoCells.

(** X21.  With [Reaction = 1], in a cell that is not a ghost cell and for
    species indices that differ from one another, the reaction rates
    change as follows, with [U = (tmp1 + tmp3) / yield * density] and
    [tmp3 = 4 * tmp1 * suc_exp]: light loses [U]; co2 loses [U] and, when
    [gco2_flag = 1], gains [4.4e-6 * (gco2 - co2)]; oxygen gains
    [0.727 * U - 0.1 * maintain * density]; sucrose gains
    [0.65 / yield * tmp3 * density]. *)
Theorem update_cells_reaction (G : bool) (f : Functor) (g : Grid) (i : Z) :
  0 <= i < ncells g ->
  Z.land (d_mask g i) (GHOST_MASK f) = 0 ->
  ilight f <> ico2 f -> ilight f <> io2 f -> ilight f <> isuc f ->
  ico2 f <> io2 f -> ico2 f <> isuc f -> io2 f <> isuc f ->
  let g' := update_cells true G f g in
  let dens := d_dens g (igroup f) i in
  let t1 := tmp1 f g i in
  let t3 := (d_of_Z 4 * t1 * suc_exp f)%Qc in
  let U := ((t1 + t3) / yield f * dens)%Qc in
  d_reac g' (ilight f) i = (d_reac g (ilight f) i - U)%Qc
  /\ d_reac g' (ico2 f) i
     = (d_reac g (ico2 f) i - U
        + (if gco2_flag f =? 1
           then Q2Qc (44 # 10000000)
                * (d_conc g (igco2 f) i - d_conc g (ico2 f) i)
           else d0))%Qc
  /\ d_reac g' (io2 f) i
     = (d_reac g (io2 f) i + Q2Qc (727 # 1000) * U
        - Q2Qc (1 # 10) * maintain f * dens)%Qc
  /\ d_reac g' (isuc f) i
     = (d_reac g (isuc f) i + Q2Qc (65 # 100) / yield f * t3 * dens)%Qc.
Proof.
  intros Hi Hm D1 D2 D3 D4 D5 D6. cbv zeta.
  apply (update_cells_at true G f g i
           (fun a =>
              d_reac a (ilight f) i
              = (d_reac g (ilight f) i
                 - (tmp1 f g i + d_of_Z 4 * tmp1 f g i * suc_exp f) / yield f
                   * d_dens g (igroup f) i)%Qc
              /\ d_reac a (ico2 f) i
                 = (d_reac g (ico2 f) i
                    - (tmp1 f g i + d_of_Z 4 * tmp1 f g i * suc_exp f) / yield f
                      * d_dens g (igroup f) i
                    + (if gco2_flag f =? 1
                       then Q2Qc (44 # 10000000)
                            * (d_conc g (igco2 f) i - d_conc g (ico2 f) i)
                       else d0))%Qc
              /\ d_reac a (io2 f) i
                 = (d_reac g (io2 f) i
                    + Q2Qc (727 # 1000)
                      * ((tmp1 f g i + d_of_Z 4 * tmp1 f g i * suc_exp f)
                         / yield f * d_dens g (igroup f) i)
                    - Q2Qc (1 # 10) * maintain f * d_dens g (igroup f) i)%Qc
              /\ d_reac a (isuc f) i
                 = (d_reac g (isuc f) i
                    + Q2Qc (65 # 100) / yield f
                      * (d_of_Z 4 * tmp1 f g i * suc_exp f)
                      * d_dens g (igroup f) i)%Qc) Hi).
  - intros a Ha Hc Hd Hr.
    assert (Ht : tmp1 f a i = tmp1 f g i) by (unfold tmp1; now rewrite Hc).
    unfold functor. cbv zeta. rewrite Ht, Ha, Hm. cbn [Z.eqb andb].
    destruct (gco2_flag f =? 1), G;
      cbn [d_reac d_dens d_conc set_reac set_growth add_reac sub_reac];
      rewrite ?Hd, ?Hc; unfold upd2, upd; rewrite ?Z.eqb_refl;
        repeat match goal with
               | |- context [?x =? ?y] =>
                 destruct (Z.eqb_spec x y); try congruence
               end;
        rewrite ?Hr; unfold Qcdiv; change d1 with 1%Qc; change d0 with 0%Qc;
          repeat split; ring.
  - intros k a Hk Ha.
    destruct (functor_frame true G f k a) as (_ & _ & _ & _ & _ & _ & _ & F8 & _).
    rewrite !F8 by congruence. exact Ha.
Qed.

Lemma update_cells_reaction_witness :
  let f := cyano_functor in
  let g := cyano_grid in
  0 <= 0 < ncells g /\ Z.land (d_mask g 0) (GHOST_MASK f) = 0
  /\ d_reac (update_cells true true f g) (ilight f) 0 = Q2Qc (-3 # 1).
Proof.
  intros f g.
  assert (H1 : 0 <= 0 < ncells g)
    by (vm_compute; split; [discriminate | reflexivity]).
  assert (H2 : Z.land (d_mask g 0) (GHOST_MASK f) = 0) by reflexivity.
  split; [exact H1 | split; [exact H2|]].
  rewrite (proj1 (update_cells_reaction true f g 0 H1 H2
                    ltac:(discriminate) ltac:(discriminate) ltac:(discriminate)
                    ltac:(discriminate) ltac:(discriminate) ltac:(discriminate))).
  qc_eq.
Defined.

End CyanoReaction.

(** * Further properties of the update of the atoms *)

Section AtomsMore.

Import MonodCyano.

Variable MY_PI : double.
Variable pow : double -> double -> double.
Variable cell : (Z -> double) -> Z.

Lemma update_atom_fields (f : Fix) (j : Z) (a : Atom) :
  let a' := update_atom MY_PI pow cell f j a in
  nlocal a' = nlocal a /\ x a' = x a /\ mask a' = mask a
  /\ (forall i, i <> j ->
                rmass a' i = rmass a i /\ radius a' i = radius a i
                /\ outer_radius a' i = outer_radius a i
                /\ outer_mass a' i = outer_mass a i)
  /\ (Z.land (mask a j) (groupbit f) = 0 -> a' = a)
  /\ (Z.land (mask a j) (groupbit f) <> 0 ->
      rmass a' j
      = (rmass a j * (d1 + growth f (igroup f) (cell (x a j)) 0 * dt f))%Qc
      /\ radius a' j
         = pow (three_quarters_pi MY_PI * (rmass a' j / density MY_PI a j))%Qc
               third
      /\ outer_mass a' j = d0 /\ outer_radius a' j = radius a' j).
Proof.
  cbv zeta. unfold update_atom.
  destruct (Z.land (mask a j) (groupbit f) =? 0) eqn:E; cbn [negb].
  - apply Z.eqb_eq in E. repeat split; try reflexivity; contradiction.
  - apply Z.eqb_neq in E.
    cbn [nlocal x mask rmass radius outer_radius outer_mass].
    repeat split; try reflexivity; try (now rewrite upd_other);
      try contradiction; try (now rewrite !upd_same).
Qed.

Lemma update_atoms_member (f : Fix) (a : Atom) (i : Z) :
  0 <= i < nlocal a ->
  Z.land (mask a i) (groupbit f) <> 0 ->
  let a' := update_atoms MY_PI pow cell f a in
  rmass a' i
  = (rmass a i * (d1 + growth f (igroup f) (cell (x a i)) 0 * dt f))%Qc
  /\ radius a' i
     = pow (three_quarters_pi MY_PI * (rmass a' i / density MY_PI a i))%Qc third
  /\ outer_mass a' i = d0 /\ outer_radius a' i = radius a' i.
Proof.
  intros Hi Hm. cbv zeta. unfold update_atoms.
  apply (for_loop_at
           (fun a0 => x a0 = x a /\ mask a0 = mask a
                      /\ rmass a0 i = rmass a i /\ radius a0 i = radius a i)
           (fun a0 =>
              rmass a0 i
              = (rmass a i * (d1 + growth f (igroup f) (cell (x a i)) 0 * dt f))%Qc
              /\ radius a0 i
                 = pow (three_quarters_pi MY_PI
                        * (rmass a0 i / density MY_PI a i))%Qc third
              /\ outer_mass a0 i = d0 /\ outer_radius a0 i = radius a0 i)
           0 i (nlocal a)); auto.
  - intros j a0 Hj (H1 & H2 & H3 & H4).
    destruct (update_atom_fields f j a0) as (_ & F2 & F3 & F4 & _).
    cbv zeta in F2, F3, F4.
    destruct (F4 i) as (G1 & G2 & _); [lia|].
    repeat split; congruence.
  - intros a0 (H1 & H2 & H3 & H4).
    destruct (update_atom_fields f i a0) as (_ & _ & _ & _ & _ & F6).
    cbv zeta in F6. destruct F6 as (G1 & G2 & G3 & G4); [now rewrite H2|].
    assert (Hd : density MY_PI a0 i = density MY_PI a i)
      by (unfold density; now rewrite H3, H4).
    rewrite G2, Hd, G3, G4, G2, Hd. repeat split; try reflexivity.
    rewrite G1, H3, H1. reflexivity.
  - intros j a0 Hj (H1 & H2 & H3 & H4).
    destruct (update_atom_fields f j a0) as (_ & _ & _ & F4 & _).
    cbv zeta in F4. destruct (F4 i) as (G1 & G2 & G3 & G4); [lia|].
    rewrite G1, G2, G3, G4. auto.
Qed.

End AtomsMore.

(** X22.  [update_atoms] changes nothing but the mass, the radius, the
    outer mass and the outer radius of the local atoms of the group:
    positions, masks and the number of atoms stay, atoms outside the group
    or beyond [nlocal] keep their four values, and an atom of the group
    ends with outer mass 0 and with an outer radius equal to its new
    radius. *)
Theorem update_atoms_frame (MY_PI : double) (pow : double -> double -> double)
    (cell : (Z -> double) -> Z) (f : MonodCyano.Fix) (a : MonodCyano.Atom) :
  let a' := MonodCyano.update_atoms MY_PI pow cell f a in
  (MonodCyano.nlocal a' = MonodCyano.nlocal a
   /\ MonodCyano.x a' = MonodCyano.x a
   /\ MonodCyano.mask a' = MonodCyano.mask a)
  /\ (forall i,
         ~ 0 <= i < MonodCyano.nlocal a
         \/ Z.land (MonodCyano.mask a i) (MonodCyano.groupbit f) = 0 ->
         MonodCyano.rmass a' i = MonodCyano.rmass a i
         /\ MonodCyano.radius a' i = MonodCyano.radius a i
         /\ MonodCyano.outer_radius a' i = MonodCyano.outer_radius a i
         /\ MonodCyano.outer_mass a' i = MonodCyano.outer_mass a i)
  /\ (forall i,
         0 <= i < MonodCyano.nlocal a ->
         Z.land (MonodCyano.mask a i) (MonodCyano.groupbit f) <> 0 ->
         MonodCyano.outer_mass a' i = d0
         /\ MonodCyano.outer_radius a' i = MonodCyano.radius a' i).
Proof.
  cbv zeta. split; [|split].
  - unfold MonodCyano.update_atoms.
    apply (for_loop_ind
             (fun a0 => MonodCyano.nlocal a0 = MonodCyano.nlocal a
                        /\ MonodCyano.x a0 = MonodCyano.x a
                        /\ MonodCyano.mask a0 = MonodCyano.mask a)); auto.
    intros j a0 _ (H1 & H2 & H3).
    destruct (update_atom_fields MY_PI pow cell f j a0) as (F1 & F2 & F3 & _).
    repeat split; congruence.
  - intros i Hi. unfold MonodCyano.update_atoms.
    refine (proj2 (for_loop_ind
             (fun a0 =>
                MonodCyano.mask a0 = MonodCyano.mask a
                /\ MonodCyano.rmass a0 i = MonodCyano.rmass a i
                /\ MonodCyano.radius a0 i = MonodCyano.radius a i
                /\ MonodCyano.outer_radius a0 i = MonodCyano.outer_radius a i
                /\ MonodCyano.outer_mass a0 i = MonodCyano.outer_mass a i)
             0 _ _ a _ _)); [auto|].
    intros j a0 Hj (H0 & H1 & H2 & H3 & H4).
    destruct (update_atom_fields MY_PI pow cell f j a0)
      as (_ & _ & F3 & F4 & F5 & _).
    cbv zeta in F3, F4, F5.
    split; [congruence|].
    destruct (Z.eq_dec i j) as [->|Hne].
    + destruct Hi as [Hi|Hi]; [lia|].
      rewrite F5 by (rewrite H0; exact Hi). auto.
    + destruct (F4 i Hne) as (G1 & G2 & G3 & G4).
      rewrite G1, G2, G3, G4. auto.
  - intros i Hi Hm.
    destruct (update_atoms_member MY_PI pow cell f a i Hi Hm) as (_ & _ & H).
    exact H.
Qed.

Lemma update_atoms_frame_witness :
  let a' := MonodCyano.update_atoms (d_of_Z 3) (fun b _ => b) (fun _ => 0)
                                    growth_fix two_atoms in
  Z.land (MonodCyano.mask two_atoms 1) (MonodCyano.groupbit growth_fix) = 0
  /\ MonodCyano.rmass a' 1 = MonodCyano.rmass two_atoms 1
  /\ 0 <= 0 < MonodCyano.nlocal two_atoms
  /\ Z.land (MonodCyano.mask two_atoms 0) (MonodCyano.groupbit growth_fix) <> 0
  /\ MonodCyano.outer_mass a' 0 = d0.
Proof.
  intro a'.
  assert (H1 : Z.land (MonodCyano.mask two_atoms 1)
                      (MonodCyano.groupbit growth_fix) = 0) by reflexivity.
  assert (H2 : 0 <= 0 < MonodCyano.nlocal two_atoms)
    by (vm_compute; split; [discriminate | reflexivity]).
  assert (H3 : Z.land (MonodCyano.mask two_atoms 0)
                      (MonodCyano.groupbit growth_fix) <> 0) by discriminate.
  destruct (update_atoms_frame (d_of_Z 3) (fun b _ => b) (fun _ => 0)
                               growth_fix two_atoms) as (_ & A & B).
  split; [exact H1|]. split; [apply (A 1); now right|].
  split; [exact H2|]. split; [exact H3|].
  apply (B 0 H2 H3).
Defined.

(** X23.  When [pow] returns a cube root of its argument, an atom of the
    group keeps its density through [update_atoms]: the mass divided by
    the volume of the sphere is the same before and after, provided the
    density and the factor [1 + growthRate * dt] are not zero. *)
Theorem update_atoms_density (MY_PI : double) (pow : double -> double -> double)
    (cell : (Z -> double) -> Z) (f : MonodCyano.Fix) (a : MonodCyano.Atom)
    (i : Z) :
  0 <= i < MonodCyano.nlocal a ->
  Z.land (MonodCyano.mask a i) (MonodCyano.groupbit f) <> 0 ->
  MY_PI <> d0 ->
  MonodCyano.density MY_PI a i <> d0 ->
  (d1 + MonodCyano.growth f (MonodCyano.igroup f) (cell (MonodCyano.x a i)) 0
        * MonodCyano.dt f)%Qc <> d0 ->
  let a' := MonodCyano.update_atoms MY_PI pow cell f a in
  (forall y, y = (MonodCyano.three_quarters_pi MY_PI
                  * (MonodCyano.rmass a' i / MonodCyano.density MY_PI a i))%Qc ->
             (pow y MonodCyano.third * pow y MonodCyano.third
              * pow y MonodCyano.third)%Qc = y) ->
  MonodCyano.density MY_PI a' i = MonodCyano.density MY_PI a i.
Proof.
  intros Hi Hm Hpi Hrho Hg. cbv zeta. intro Hcube.
  destruct (update_atoms_member MY_PI pow cell f a i Hi Hm) as (H1 & H2 & _).
  cbv zeta in H1, H2.
  set (a' := MonodCyano.update_atoms MY_PI pow cell f a) in *.
  set (rho := MonodCyano.density MY_PI a i) in *.
  set (y := (MonodCyano.three_quarters_pi MY_PI
             * (MonodCyano.rmass a' i / rho))%Qc) in *.
  specialize (Hcube y eq_refl).
  assert (Hm0 : MonodCyano.rmass a i <> d0).
  { intro E. apply Hrho. unfold rho, MonodCyano.density. rewrite E.
    unfold Qcdiv. change d0 with 0%Qc. ring. }
  assert (Hm' : MonodCyano.rmass a' i <> d0).
  { rewrite H1. intro E. apply Qcmult_integral in E. tauto. }
  assert (E : MonodCyano.density MY_PI a' i
              = (MonodCyano.rmass a' i / (MonodCyano.four_thirds_pi MY_PI * y))%Qc).
  { unfold MonodCyano.density. rewrite H2. fold y.
    rewrite <- Hcube at 4. f_equal. ring. }
  rewrite E. unfold y, MonodCyano.four_thirds_pi, MonodCyano.three_quarters_pi.
  change d0 with 0%Qc in *.
  field. repeat split; try assumption; discriminate.
Qed.

Lemma update_atoms_density_witness :
  let a' := MonodCyano.update_atoms (d_of_Z 3) root27 (fun _ => 0)
                                    cube_fix two_atoms in
  0 <= 0 < MonodCyano.nlocal two_atoms
  /\ Z.land (MonodCyano.mask two_atoms 0) (MonodCyano.groupbit cube_fix) <> 0
  /\ MonodCyano.density (d_of_Z 3) a' 0
     = MonodCyano.density (d_of_Z 3) two_atoms 0.
Proof.
  intro a'.
  assert (H1 : 0 <= 0 < MonodCyano.nlocal two_atoms)
    by (vm_compute; split; [discriminate | reflexivity]).
  assert (H2 : Z.land (MonodCyano.mask two_atoms 0)
                      (MonodCyano.groupbit cube_fix) <> 0) by discriminate.
  split; [exact H1 | split; [exact H2|]].
  apply (update_atoms_density (d_of_Z 3) root27 (fun _ => 0) cube_fix
                              two_atoms 0 H1 H2).
  - qc_neq.
  - qc_neq.
  - qc_neq.
  - intros y ->. qc_eq.
Defined.

(** * [FixMonodCyanoKokkos::compute] *)

(** X24.  With the growth flag set, one call of [compute] grows an atom of
    the group by the rate that the same call has just computed for its
    cell: the new mass is the old one times
    [1 + (tmp1 * (1 - 0.2 * suc_exp) - decay - maintain) * dt], with [tmp1]
    the double Monod term of the concentrations in the atom's cell; the
    growth rates stored in the grid before the call play no part, whether
    the reactions are computed or not. *)
Theorem cyano_compute_growth (MY_PI : double) (pow : double -> double -> double)
    (cell : (Z -> double) -> Z) (reaction_flag : bool)
    (f : CyanoCells.Functor) (groupbit_ : Z) (dt_ : double)
    (g : CyanoCells.Grid) (a : MonodCyano.Atom) (i : Z) :
  0 <= i < MonodCyano.nlocal a ->
  Z.land (MonodCyano.mask a i) groupbit_ <> 0 ->
  0 <= cell (MonodCyano.x a i) < CyanoCells.ncells g ->
  let c := cell (MonodCyano.x a i) in
  let light := CyanoCells.d_conc g (CyanoCells.ilight f) c in
  let co2 := CyanoCells.d_conc g (CyanoCells.ico2 f) c in
  let tmp1 :=
    (CyanoCells.growth f * (light / (CyanoCells.light_affinity f + light))
     * (co2 / (CyanoCells.co2_affinity f + co2)))%Qc in
  MonodCyano.rmass
    (snd (cyano_compute MY_PI pow cell reaction_flag true f groupbit_ dt_ (g, a)))
    i
  = (MonodCyano.rmass a i
     * (d1 + (tmp1 * (d1 - Q2Qc (2 # 10) * CyanoCells.suc_exp f)
              - CyanoCells.decay f - CyanoCells.maintain f) * dt_))%Qc.
Proof.
  intros Hi Hm Hc. cbv zeta.
  assert (E : snd (cyano_compute MY_PI pow cell reaction_flag true f groupbit_
                                 dt_ (g, a))
              = MonodCyano.update_atoms MY_PI pow cell
                  (atoms_fix groupbit_ (CyanoCells.igroup f) dt_
                     (CyanoCells.update_cells reaction_flag true f g)) a)
    by (unfold cyano_compute; destruct reaction_flag; reflexivity).
  rewrite E.
  destruct (update_atoms_member MY_PI pow cell
              (atoms_fix groupbit_ (CyanoCells.igroup f) dt_
                 (CyanoCells.update_cells reaction_flag true f g)) a i Hi Hm)
    as (H & _).
  cbv zeta in H. rewrite H. cbn [atoms_fix MonodCyano.growth MonodCyano.igroup
                                  MonodCyano.dt].
  rewrite (cells_growth_value reaction_flag f g _ Hc). reflexivity.
Qed.

Lemma cyano_compute_growth_witness :
  0 <= 0 < MonodCyano.nlocal two_atoms
  /\ Z.land (MonodCyano.mask two_atoms 0) 1 <> 0
  /\ 0 <= 1 < CyanoCells.ncells cyano_grid
  /\ MonodCyano.rmass
       (snd (cyano_compute (d_of_Z 3) (fun b _ => b) (fun _ => 1) true true
                           cyano_functor 1 d1 (cyano_grid, two_atoms))) 0
     = Q2Qc (136 # 10).
Proof.
  assert (H1 : 0 <= 0 < MonodCyano.nlocal two_atoms)
    by (vm_compute; split; [discriminate | reflexivity]).
  assert (H2 : Z.land (MonodCyano.mask two_atoms 0) 1 <> 0) by discriminate.
  assert (H3 : 0 <= 1 < CyanoCells.ncells cyano_grid)
    by (vm_compute; split; [discriminate | reflexivity]).
  split; [exact H1 | split; [exact H2 | split; [exact H3|]]].
  rewrite (cyano_compute_growth (d_of_Z 3) (fun b _ => b) (fun _ => 1) true
             cyano_functor 1 d1 cyano_grid two_atoms 0 H1 H2 H3).
  qc_eq.
Defined.

(** * Loops that can be left by an error *)

Lemma fold_err_inl {A : Type} (body : Z -> A -> string + A) (l : list Z)
    (e : string) :
  fold_left
    (fun acc k => match acc with inl err => inl err | inr a => body k a end)
    l (inl e) = inl e.
Proof. induction l as [|k l IH]; [reflexivity | exact IH]. Qed.

Lemma for_loop_err_nil {A : Type} (lo hi : Z) (body : Z -> A -> string + A)
    (s : A) :
  hi <= lo -> for_loop_err lo hi body s = inr s.
Proof. intro H. unfold for_loop_err. now rewrite range_nil. Qed.

Lemma for_loop_err_cons {A : Type} (lo hi : Z) (body : Z -> A -> string + A)
    (s : A) :
  lo < hi ->
  for_loop_err lo hi body s
  = match body lo s with
    | inl e => inl e
    | inr a => for_loop_err (lo + 1) hi body a
    end.
Proof.
  intro H. unfold for_loop_err. rewrite (range_cons lo hi H).
  cbn [fold_left]. destruct (body lo s) as [e|a]; [|reflexivity].
  apply fold_err_inl.
Qed.

(** An invariant indexed by the loop counter: when no pass fails, the loop
    returns a state in which the invariant holds at the upper bound. *)
Lemma for_loop_err_inv {A : Type} (P : Z -> A -> Prop) (lo hi : Z)
    (body : Z -> A -> string + A) (s : A) :
  P lo s ->
  (forall k a, lo <= k < hi -> P k a -> exists a', body k a = inr a' /\ P (k + 1) a') ->
  exists s', for_loop_err lo hi body s = inr s' /\ P (Z.max lo hi) s'.
Proof.
  remember (Z.to_nat (hi - lo)) as n eqn:En.
  revert lo s En. induction n as [|n IH]; intros lo s En Hs Hstep.
  - exists s. rewrite for_loop_err_nil by lia.
    replace (Z.max lo hi) with lo by lia. auto.
  - assert (Hlt : lo < hi) by lia.
    rewrite (for_loop_err_cons lo hi body s Hlt).
    destruct (Hstep lo s) as (a' & E & Ha'); [lia | exact Hs |].
    rewrite E.
    destruct (IH (lo + 1) a') as (s' & E' & Hs'); [lia | exact Ha' | |].
    + intros k a Hk. apply Hstep. lia.
    + exists s'. split; [exact E'|].
      replace (Z.max lo hi) with (Z.max (lo + 1) hi) by lia. exact Hs'.
Qed.

(** Passes that fail with [e] or keep [P]: the loop fails with [e] or
    returns a state of [P]. *)
Lemma for_loop_err_cases {A : Type} (P : A -> Prop) (e : string) (lo hi : Z)
    (body : Z -> A -> string + A) (s : A) :
  P s ->
  (forall k a, lo <= k < hi -> P a ->
               body k a = inl e \/ exists a', body k a = inr a' /\ P a') ->
  for_loop_err lo hi body s = inl e
  \/ exists s', for_loop_err lo hi body s = inr s' /\ P s'.
Proof.
  remember (Z.to_nat (hi - lo)) as n eqn:En.
  revert lo s En. induction n as [|n IH]; intros lo s En Hs Hstep.
  - right. exists s. rewrite for_loop_err_nil by lia. auto.
  - assert (Hlt : lo < hi) by lia.
    rewrite (for_loop_err_cons lo hi body s Hlt).
    destruct (Hstep lo s) as [E | (a' & E & Ha')]; [lia | exact Hs | |];
      rewrite E; [now left|].
    apply IH; [lia | exact Ha' |].
    intros k a Hk. apply Hstep. lia.
Qed.

Lemma for_loop_err_split {A : Type} (lo i hi : Z)
    (body : Z -> A -> string + A) (s : A) :
  lo <= i <= hi ->
  for_loop_err lo hi body s
  = match for_loop_err lo i body s with
    | inl e => inl e
    | inr a => for_loop_err i hi body a
    end.
Proof.
  intro H.
  remember (Z.to_nat (i - lo)) as n eqn:En.
  revert lo s En H. induction n as [|n IH]; intros lo s En H.
  - assert (lo = i) by lia. subst lo.
    now rewrite (for_loop_err_nil i i) by lia.
  - rewrite (for_loop_err_cons lo hi) by lia.
    rewrite (for_loop_err_cons lo i) by lia.
    destruct (body lo s) as [e|a]; [reflexivity|].
    apply IH; lia.
Qed.

(** A pass that fails after passes that fail alike or keep [P]. *)
Lemma for_loop_err_fail {A : Type} (P : A -> Prop) (e : string) (lo i hi : Z)
    (body : Z -> A -> string + A) (s : A) :
  lo <= i < hi ->
  P s ->
  (forall k a, lo <= k < i -> P a ->
               body k a = inl e \/ exists a', body k a = inr a' /\ P a') ->
  (forall a, P a -> body i a = inl e) ->
  for_loop_err lo hi body s = inl e.
Proof.
  intros Hi Hs Hpre Hat.
  rewrite (for_loop_err_split lo i hi) by lia.
  destruct (for_loop_err_cases P e lo i body s Hs Hpre) as [E | (s' & E & Hs')];
    rewrite E; [reflexivity|].
  rewrite (for_loop_err_cons i hi) by lia.
  now rewrite (Hat s' Hs').
Qed.

Lemma upd3_same {A : Type} (a : Z -> Z -> Z -> A) (i j k : Z) (v : A) :
  upd3 a i j k v i j k = v.
Proof. unfold upd3. rewrite Z.eqb_refl. apply upd2_same. Qed.

Lemma upd3_other {A : Type} (a : Z -> Z -> Z -> A) (i j k i' j' k' : Z) (v : A) :
  i' <> i \/ j' <> j \/ k' <> k -> upd3 a i j k v i' j' k' = a i' j' k'.
Proof.
  intro H. unfold upd3. destruct (i' =? i) eqn:E; [|reflexivity].
  apply Z.eqb_eq in E. subst i'. apply upd2_other. tauto.
Qed.

(** * [FixKinetics::init_activity] *)

Section ChemActivity.

Import Chem.

Variable gSh : double.

Lemma same_inputs_refl (c : Fix) : same_inputs c c.
Proof. repeat split. Qed.

Lemma same_inputs_denm (c c0 : Fix) (k : Z) :
  same_inputs c c0 -> denm gSh c k = denm gSh c0 k.
Proof. intros (_ & _ & _ & _ & H & _). unfold denm. now rewrite H. Qed.

Lemma store_activity_spec (k j : Z) (d : double) (c : Fix) :
  let c' := store_activity gSh k j d c in
  same_inputs c' c
  /\ Sh c' = Sh c
  /\ (forall k' f j', k' <> k \/ j' <> j ->
                      activity c' k' f j' = activity c k' f j')
  /\ activity c' k 0 j = (kEq c k 0 * nuS c k j * gSh * gSh * gSh / d)%Qc
  /\ activity c' k 1 j
     = (if String.eqb (nuName c k) "h" then gSh
        else (nuS c k j * gSh * gSh * gSh / d)%Qc)
  /\ activity c' k 2 j = (nuS c k j * gSh * gSh * kEq c k 1 / d)%Qc
  /\ activity c' k 3 j = (nuS c k j * gSh * kEq c k 1 * kEq c k 2 / d)%Qc
  /\ activity c' k 4 j
     = (nuS c k j * kEq c k 1 * kEq c k 2 * kEq c k 3 / d)%Qc.
Proof.
  cbv zeta. unfold store_activity. cbv zeta.
  cbn [nuName set_activity kEq nuS activity].
  destruct (String.eqb (nuName c k) "h");
    cbn [nnus ngrids nuName nuS kEq iph Sh set_activity activity nuGCoeff
         rth temp];
    (split; [repeat split|]); (split; [reflexivity|]);
    (split; [intros k' f j' H; rewrite !upd3_other by tauto; reflexivity|]);
    repeat split;
    repeat first [ rewrite upd3_same | rewrite upd3_other by (right; left; lia) ];
    reflexivity.
Qed.

Lemma activity_cell_ok (k j : Z) (c : Fix) :
  denm gSh c k <> d0 ->
  activity_cell gSh k j c
  = inr (store_activity gSh k j (denm gSh c k) (set_Sh (upd (Sh c) j gSh) c)).
Proof.
  intro H. unfold activity_cell. cbv zeta.
  change (denm gSh (set_Sh (upd (Sh c) j gSh) c) k) with (denm gSh c k).
  destruct (deq (denm gSh c k) d0) eqn:E; [|reflexivity].
  apply deq_true in E. contradiction.
Qed.

Lemma activity_cell_fail (k j : Z) (c : Fix) :
  denm gSh c k = d0 ->
  activity_cell gSh k j c = inl "denm returns a zero value"%string.
Proof.
  intro H. unfold activity_cell. cbv zeta.
  change (denm gSh (set_Sh (upd (Sh c) j gSh) c) k) with (denm gSh c k).
  rewrite H. reflexivity.
Qed.

(** One cell: the inputs stay, the cell gets its values, and the values of
    the other pairs of a species and a cell stay. *)
Lemma activity_cell_step (c0 c : Fix) (k j : Z) :
  same_inputs c c0 ->
  denm gSh c0 k <> d0 ->
  exists c', activity_cell gSh k j c = inr c'
             /\ same_inputs c' c0
             /\ forms gSh c0 c' k j
             /\ (forall k' j', k' <> k \/ j' <> j ->
                               forms gSh c0 c k' j' -> forms gSh c0 c' k' j').
Proof.
  intros Hs Hd.
  assert (Hd' : denm gSh c k <> d0) by now rewrite (same_inputs_denm c c0 k Hs).
  rewrite (activity_cell_ok k j c Hd'). eexists. split; [reflexivity|].
  destruct (store_activity_spec k j (denm gSh c k)
              (set_Sh (upd (Sh c) j gSh) c))
    as (S1 & S2 & S3 & V0 & V1 & V2 & V3 & V4).
  cbv zeta in S1, S2, S3, V0, V1, V2, V3, V4.
  cbn [Sh set_Sh nuName nuS kEq] in S2, V0, V1, V2, V3, V4.
  rewrite (same_inputs_denm c c0 k Hs) in *.
  destruct Hs as (H1 & H2 & H3 & H4 & H5 & H6 & H7 & H8 & H9).
  assert (Hs' : same_inputs
                  (store_activity gSh k j (denm gSh c0 k)
                     (set_Sh (upd (Sh c) j gSh) c)) c0).
  { destruct S1 as (T1 & T2 & T3 & T4 & T5 & T6 & T7 & T8 & T9).
    cbn [nnus ngrids nuName nuS kEq iph set_Sh nuGCoeff rth temp]
      in T1, T2, T3, T4, T5, T6, T7, T8, T9.
    repeat split; congruence. }
  split; [exact Hs'|]. split.
  - unfold forms. rewrite S2, V0, V1, V2, V3, V4, H3, H4, H5.
    rewrite upd_same. repeat split.
  - intros k' j' Hne (F0 & F1 & F2 & F3 & F4 & F5).
    unfold forms. rewrite S2, !S3 by exact Hne.
    cbn [activity set_Sh].
    split; [|tauto].
    destruct (Z.eq_dec j' j) as [->|Hj]; [apply upd_same|].
    now rewrite upd_other.
Qed.

(** The cells of one species. *)
Lemma cells_of_species (c0 c : Fix) (k : Z) (Q : Z -> Z -> Prop) :
  same_inputs c c0 ->
  denm gSh c0 k <> d0 ->
  (forall k' j', Q k' j' -> forms gSh c0 c k' j') ->
  exists c', for_loop_err 0 (ngrids c) (activity_cell gSh k) c = inr c'
             /\ same_inputs c' c0
             /\ (forall k' j', Q k' j' \/ (k' = k /\ 0 <= j' < ngrids c0) ->
                               forms gSh c0 c' k' j').
Proof.
  intros Hs Hd HQ.
  destruct (for_loop_err_inv
              (fun j a => same_inputs a c0
                          /\ forall k' j', Q k' j' \/ (k' = k /\ 0 <= j' < j) ->
                                           forms gSh c0 a k' j')
              0 (ngrids c) (activity_cell gSh k) c) as (c' & E & Hs' & Hf).
  - split; [exact Hs|]. intros k' j' [H|H]; [now apply HQ | lia].
  - intros j a Hj (Ha & Hfa).
    destruct (activity_cell_step c0 a k j Ha Hd) as (a' & E & Ha' & Hkj & Hoth).
    exists a'. split; [exact E|]. split; [exact Ha'|].
    intros k' j' H.
    destruct (Z.eq_dec k' k) as [->|Hk].
    + destruct (Z.eq_dec j' j) as [->|Hjj]; [exact Hkj|].
      apply Hoth; [tauto|]. apply Hfa.
      destruct H as [H|H]; [now left | right; lia].
    + apply Hoth; [tauto|]. apply Hfa.
      destruct H as [H|H]; [now left | lia].
  - exists c'. split; [exact E|]. split; [exact Hs'|].
    intros k' j' H. apply Hf.
    destruct H as [H|H]; [now left|]. right.
    destruct Hs as (_ & H2 & _). lia.
Qed.

End ChemActivity.

Lemma init_activity_forms (pow : double -> double -> double) (c : Chem.Fix) :
  let gSh := pow (d_of_Z 10) (- Chem.iph c)%Qc in
  (forall k, 1 <= k <= Chem.nnus c -> Chem.denm gSh c k <> d0) ->
  exists c', Chem.init_activity pow c = inr c'
             /\ same_inputs c' c
             /\ forall k j, 1 <= k <= Chem.nnus c -> 0 <= j < Chem.ngrids c ->
                            forms gSh c c' k j.
Proof.
  intros gSh Hd. unfold Chem.init_activity. fold gSh.
  destruct (for_loop_err_inv
              (fun k a => same_inputs a c
                          /\ forall k' j',
                               1 <= k' < k /\ 0 <= j' < Chem.ngrids c ->
                               forms gSh c a k' j')
              1 (Chem.nnus c + 1)
              (fun k a => for_loop_err 0 (Chem.ngrids a)
                                       (Chem.activity_cell gSh k) a) c)
    as (c' & E & Hs' & Hf).
  - split; [apply same_inputs_refl|]. intros k' j' H. lia.
  - intros k a Hk (Ha & Hfa).
    destruct (cells_of_species gSh c a k
                (fun k' j' => 1 <= k' < k /\ 0 <= j' < Chem.ngrids c))
      as (a' & E & Ha' & Hfa'); [exact Ha | apply Hd; lia | exact Hfa |].
    exists a'. split; [exact E|]. split; [exact Ha'|].
    intros k' j' H. apply Hfa'.
    destruct (Z.eq_dec k' k) as [->|Hne]; [right; tauto | left; lia].
  - exists c'. split; [exact E|]. split; [exact Hs'|].
    intros k j Hk Hj. apply Hf. lia.
Qed.

(** X25.  When no denominator [denm[k]] is zero, [init_activity] returns
    without error and leaves, for every species [k] in [1 .. nnus] and
    every cell [j] in [0 .. ngrids-1], the hydrogen-ion value [gSh =
    pow(10, -iph)] in [Sh[j]] and the five activities
    [kEq0 * S * gSh^3 / denm], [S * gSh^3 / denm], [S * gSh^2 * kEq1 / denm],
    [S * gSh * kEq1 * kEq2 / denm] and [S * kEq1 * kEq2 * kEq3 / denm] of
    the concentration [S = nuS[k][j]], except that the second activity of
    the species named "h" is [gSh] itself; concentrations and equilibrium
    constants are not written. *)
Theorem init_activity_values (pow : double -> double -> double) (c : Chem.Fix)
    (k j : Z) :
  let gSh := pow (d_of_Z 10) (- Chem.iph c)%Qc in
  let d := Chem.denm gSh c k in
  let S := Chem.nuS c k j in
  (forall k', 1 <= k' <= Chem.nnus c -> Chem.denm gSh c k' <> d0) ->
  1 <= k <= Chem.nnus c ->
  0 <= j < Chem.ngrids c ->
  exists c',
    Chem.init_activity pow c = inr c'
    /\ Chem.nuS c' = Chem.nuS c /\ Chem.kEq c' = Chem.kEq c
    /\ Chem.Sh c' j = gSh
    /\ Chem.activity c' k 0 j = (Chem.kEq c k 0 * S * gSh * gSh * gSh / d)%Qc
    /\ Chem.activity c' k 1 j
       = (if String.eqb (Chem.nuName c k) "h" then gSh
          else (S * gSh * gSh * gSh / d)%Qc)
    /\ Chem.activity c' k 2 j = (S * gSh * gSh * Chem.kEq c k 1 / d)%Qc
    /\ Chem.activity c' k 3 j
       = (S * gSh * Chem.kEq c k 1 * Chem.kEq c k 2 / d)%Qc
    /\ Chem.activity c' k 4 j
       = (S * Chem.kEq c k 1 * Chem.kEq c k 2 * Chem.kEq c k 3 / d)%Qc.
Proof.
  intros gSh d S Hd Hk Hj.
  destruct (init_activity_forms pow c Hd) as (c' & E & Hs & Hf).
  exists c'. split; [exact E|].
  destruct Hs as (_ & _ & _ & H4 & H5 & _).
  split; [exact H4|]. split; [exact H5|].
  exact (Hf k j Hk Hj).
Qed.

Lemma init_activity_values_witness :
  (forall k', 1 <= k' <= Chem.nnus acid ->
              Chem.denm (pow_one (d_of_Z 10) (- Chem.iph acid)%Qc) acid k' <> d0)
  /\ 1 <= 1 <= Chem.nnus acid
  /\ 0 <= 1 < Chem.ngrids acid
  /\ exists c',
       Chem.init_activity pow_one acid = inr c'
       /\ Chem.activity c' 1 3 1 = Q2Qc (4 # 7).
Proof.
  assert (H1 : forall k', 1 <= k' <= Chem.nnus acid ->
                 Chem.denm (pow_one (d_of_Z 10) (- Chem.iph acid)%Qc) acid k'
                 <> d0)
    by (intros k' _; qc_neq).
  assert (H2 : 1 <= 1 <= Chem.nnus acid)
    by (vm_compute; split; discriminate).
  assert (H3 : 0 <= 1 < Chem.ngrids acid)
    by (vm_compute; split; [discriminate | reflexivity]).
  split; [exact H1 | split; [exact H2 | split; [exact H3|]]].
  destruct (init_activity_values pow_one acid 1 1 H1 H2 H3)
    as (c' & E & _ & _ & _ & _ & _ & _ & V3 & _).
  exists c'. split; [exact E|]. rewrite V3. qc_eq.
Defined.

(** X26.  When the grid has a cell and the denominator [denm[k]] of some
    species [k] in [1 .. nnus] is zero, [init_activity] stops with the
    error "denm returns a zero value". *)
Theorem init_activity_error (pow : double -> double -> double) (c : Chem.Fix)
    (k : Z) :
  1 <= k <= Chem.nnus c ->
  0 < Chem.ngrids c ->
  Chem.denm (pow (d_of_Z 10) (- Chem.iph c)%Qc) c k = d0 ->
  Chem.init_activity pow c = inl "denm returns a zero value"%string.
Proof.
  intros Hk Hn Hz. unfold Chem.init_activity.
  set (gSh := pow (d_of_Z 10) (- Chem.iph c)%Qc) in *.
  assert (Hcell : forall k' j a,
             same_inputs a c ->
             Chem.activity_cell gSh k' j a
             = inl "denm returns a zero value"%string
             \/ exists a', Chem.activity_cell gSh k' j a = inr a'
                           /\ same_inputs a' c).
  { intros k' j a Ha.
    destruct (deq (Chem.denm gSh c k') d0) eqn:E.
    - left. apply deq_true in E. apply activity_cell_fail.
      now rewrite (same_inputs_denm gSh a c k' Ha).
    - right.
      assert (Hd : Chem.denm gSh c k' <> d0)
        by (intro Z; apply deq_true in Z; congruence).
      destruct (activity_cell_step gSh c a k' j Ha Hd) as (a' & Ea & Ha' & _).
      exists a'. auto. }
  apply (for_loop_err_fail (fun a => same_inputs a c) _ 1 k (Chem.nnus c + 1));
    [lia | apply same_inputs_refl | |].
  - intros k' a _ Ha.
    apply (for_loop_err_cases (fun a => same_inputs a c)); [exact Ha|].
    intros j a0 _ Ha0. now apply Hcell.
  - intros a Ha.
    assert (Hna : Chem.ngrids a = Chem.ngrids c)
      by (destruct Ha as (_ & H & _); exact H).
    apply (for_loop_err_fail (fun a => same_inputs a c) _ 0 0 (Chem.ngrids a));
      [lia | exact Ha | intros; lia |].
    intros a0 Ha0. apply activity_cell_fail.
    now rewrite (same_inputs_denm gSh a0 c k Ha0).
Qed.

Lemma init_activity_error_witness :
  1 <= 2 <= Chem.nnus acid_zero
  /\ 0 < Chem.ngrids acid_zero
  /\ Chem.denm (pow_one (d_of_Z 10) (- Chem.iph acid_zero)%Qc) acid_zero 2 = d0
  /\ Chem.init_activity pow_one acid_zero
     = inl "denm returns a zero value"%string.
Proof.
  assert (H1 : 1 <= 2 <= Chem.nnus acid_zero)
    by (vm_compute; split; discriminate).
  assert (H2 : 0 < Chem.ngrids acid_zero) by reflexivity.
  assert (H3 : Chem.denm (pow_one (d_of_Z 10) (- Chem.iph acid_zero)%Qc)
                         acid_zero 2 = d0) by qc_eq.
  split; [exact H1 | split; [exact H2 | split; [exact H3|]]].
  exact (init_activity_error pow_one acid_zero 2 H1 H2 H3).
Defined.

(** X27.  For a species not named "h" the five activities that
    [init_activity] stores in a cell add up to the concentration [S] of
    the cell plus [S * kEq2 * gSh * (kEq1 - kEq3) / denm]: the third term of
    the denominator is [kEq2 * kEq3 * gSh] where the fourth activity has
    [gSh * kEq1 * kEq2], so the five forms add up to [S] when
    [kEq1 = kEq3]. *)
Theorem init_activity_sum (pow : double -> double -> double) (c : Chem.Fix)
    (k j : Z) :
  let gSh := pow (d_of_Z 10) (- Chem.iph c)%Qc in
  let S := Chem.nuS c k j in
  (forall k', 1 <= k' <= Chem.nnus c -> Chem.denm gSh c k' <> d0) ->
  1 <= k <= Chem.nnus c ->
  0 <= j < Chem.ngrids c ->
  String.eqb (Chem.nuName c k) "h" = false ->
  exists c',
    Chem.init_activity pow c = inr c'
    /\ (Chem.activity c' k 0 j + Chem.activity c' k 1 j
        + Chem.activity c' k 2 j + Chem.activity c' k 3 j
        + Chem.activity c' k 4 j)%Qc
       = (S + S * Chem.kEq c k 2 * gSh * (Chem.kEq c k 1 - Chem.kEq c k 3)
              / Chem.denm gSh c k)%Qc
    /\ (Chem.kEq c k 1 = Chem.kEq c k 3 ->
        (Chem.activity c' k 0 j + Chem.activity c' k 1 j
         + Chem.activity c' k 2 j + Chem.activity c' k 3 j
         + Chem.activity c' k 4 j)%Qc = S).
Proof.
  intros gSh S Hd Hk Hj Hh.
  destruct (init_activity_forms pow c Hd) as (c' & E & _ & Hf).
  exists c'. split; [exact E|].
  destruct (Hf k j Hk Hj) as (_ & V0 & V1 & V2 & V3 & V4).
  fold gSh in V0, V1, V2, V3, V4. rewrite Hh in V1.
  assert (Hsum :
            (Chem.activity c' k 0 j + Chem.activity c' k 1 j
             + Chem.activity c' k 2 j + Chem.activity c' k 3 j
             + Chem.activity c' k 4 j)%Qc
            = (S + S * Chem.kEq c k 2 * gSh
                   * (Chem.kEq c k 1 - Chem.kEq c k 3)
                   / Chem.denm gSh c k)%Qc).
  { rewrite V0, V1, V2, V3, V4. fold S.
    specialize (Hd k Hk). fold gSh in Hd.
    assert (Hden :
              (Chem.kEq c k 0 * gSh * gSh * gSh + gSh * gSh * gSh
               + gSh * gSh * Chem.kEq c k 1
               + gSh * Chem.kEq c k 1 * Chem.kEq c k 2
               + Chem.kEq c k 1 * Chem.kEq c k 2 * Chem.kEq c k 3)%Qc
              = (Chem.denm gSh c k
                 + Chem.kEq c k 2 * gSh
                   * (Chem.kEq c k 1 - Chem.kEq c k 3))%Qc)
      by (unfold Chem.denm; change d1 with 1%Qc; ring).
    set (d := Chem.denm gSh c k) in *.
    transitivity
      (S * (Chem.kEq c k 0 * gSh * gSh * gSh + gSh * gSh * gSh
            + gSh * gSh * Chem.kEq c k 1
            + gSh * Chem.kEq c k 1 * Chem.kEq c k 2
            + Chem.kEq c k 1 * Chem.kEq c k 2 * Chem.kEq c k 3) / d)%Qc;
      [unfold Qcdiv; ring|].
    rewrite Hden. change d0 with 0%Qc in Hd. field. exact Hd. }
  split; [exact Hsum|].
  intro Heq. rewrite Hsum, Heq. unfold Qcdiv. ring.
Qed.

Lemma init_activity_sum_witness :
  (forall k', 1 <= k' <= Chem.nnus acid ->
              Chem.denm (pow_one (d_of_Z 10) (- Chem.iph acid)%Qc) acid k' <> d0)
  /\ 1 <= 1 <= Chem.nnus acid
  /\ 0 <= 0 < Chem.ngrids acid
  /\ String.eqb (Chem.nuName acid 1) "h" = false
  /\ exists c',
       Chem.init_activity pow_one acid = inr c'
       /\ (Chem.activity c' 1 0 0 + Chem.activity c' 1 1 0
           + Chem.activity c' 1 2 0 + Chem.activity c' 1 3 0
           + Chem.activity c' 1 4 0)%Qc = Q2Qc (16 # 7).
Proof.
  assert (H1 : forall k', 1 <= k' <= Chem.nnus acid ->
                 Chem.denm (pow_one (d_of_Z 10) (- Chem.iph acid)%Qc) acid k'
                 <> d0)
    by (intros k' _; qc_neq).
  assert (H2 : 1 <= 1 <= Chem.nnus acid)
    by (vm_compute; split; discriminate).
  assert (H3 : 0 <= 0 < Chem.ngrids acid)
    by (vm_compute; split; [discriminate | reflexivity]).
  assert (H4 : String.eqb (Chem.nuName acid 1) "h" = false) by reflexivity.
  split; [exact H1 | split; [exact H2 | split; [exact H3 | split; [exact H4|]]]].
  destruct (init_activity_sum pow_one acid 1 0 H1 H2 H3 H4) as (c' & E & V & _).
  exists c'. split; [exact E|]. rewrite V. qc_eq.
Defined.

(** * [FixKinetics::init_keq] *)





Section ChemKeq.

Import Chem.

Variable exp : double -> double.
Hypothesis exp_nonneg : forall x, (0 <= exp x)%Qc.



End ChemKeq.



(** * The flux update of the stepper *)

Lemma compute_flux_static (e : Env) (a s : State) (D : double)
    (c : Z -> double) (rate : double) (grid : Z) :
  ghost a = ghost s -> diffT a = diffT s ->
  compute_flux e a D c rate grid = compute_flux e s D c rate grid.
Proof.
  intros Hg Ht. unfold compute_flux, shear_term. now rewrite Hg, Ht.
Qed.

Lemma compute_flux_ext (e : Env) (s : State) (D : double)
    (c c' : Z -> double) (rate : double) (grid : Z) :
  (forall g, c g = c' g) ->
  compute_flux e s D c rate grid = compute_flux e s D c' rate grid.
Proof.
  intro H. unfold compute_flux, shear_term. now rewrite !H.
Qed.

(** The shear of [compute_flux] when the nearest ghost cell down the flat
    index lies [d] cells below. *)
Lemma shear_term_value (e : Env) (s : State) (c : Z -> double) (grid d : Z) :
  (shearRate e <> d0 ->
   0 <= d <= grid /\ ghost s (grid - d) = true
   /\ forall j, 0 <= j < d -> ghost s (grid - j) = false) ->
  shear_term e s c grid
  = if deq (shearRate e) d0 then d0
    else (shearRate e * (d_of_Z d * stepz e - stepz e / d2)
          * (c (grid + 1)%Z - c (grid - 1)%Z) / (d2 * stepz e))%Qc.
Proof.
  intro H. unfold shear_term.
  destruct (deq (shearRate e) d0) eqn:E; cbn [negb]; [reflexivity|].
  destruct H as (Hd & Hg & Hf).
  { intro Z0. apply deq_true in Z0. congruence. }
  rewrite (shear_walk_run (ghost s) (Z.to_nat d)).
  - replace (0 + Z.of_nat (Z.to_nat d)) with d by lia. reflexivity.
  - lia.
  - replace (Z.of_nat (Z.to_nat d)) with d by lia. exact Hg.
  - intros j Hj. apply Hf. lia.
Qed.

(** The value the loop "solve diffusion and reaction" leaves in a true
    cell whose rate no true cell visited earlier has consumed. *)
Lemma cells_loop_value (e : Env) (i lo hi : Z) (s : State) (m : double)
    (grid : Z) :
  lo <= grid < hi ->
  ghost s grid = false ->
  (forall grid', lo <= grid' < grid -> ghost s grid' = false ->
                 rate_index e grid' <> rate_index e grid) ->
  let c :=
    compute_flux e s (diffD e i) (nuPrev s i) (nuR s i (rate_index e grid))
                 grid in
  nuGrid (fst (for_loop lo hi (cell_update e i) (s, m))) grid i
  = if dgt c d0 then c else d1e_20.
Proof.
  intros Hg Hgh Hinj. cbv zeta.
  apply (for_loop_at
           (fun a => static_eq s (fst a) /\ nuPrev (fst a) = nuPrev s
                     /\ nuR (fst a) i (rate_index e grid)
                        = nuR s i (rate_index e grid))
           (fun a =>
              nuGrid (fst a) grid i
              = let c :=
                  compute_flux e s (diffD e i) (nuPrev s i)
                               (nuR s i (rate_index e grid)) grid in
                if dgt c d0 then c else d1e_20)
           lo grid hi (cell_update e i) (s, m) Hg).
  - split; [apply static_eq_refl | split; reflexivity].
  - intros k [a ma] Hk (Hs & Hp & Hr). cbn [fst] in *.
    destruct (cell_update_static e i k a ma) as [S1 S2].
    split; [eapply static_eq_trans; [exact Hs | exact S1]|].
    split; [now rewrite S2|].
    destruct (cell_update_rates e i k a ma) as [G1 _]. cbv zeta in G1.
    rewrite G1. destruct (ghost a k) eqn:Hgk; [exact Hr|].
    rewrite upd2_other; [exact Hr|].
    right. intro E. apply (Hinj k); [lia | | now symmetry].
    destruct Hs as (_ & _ & Hx & _). now rewrite Hx.
  - intros [a ma] (Hs & Hp & Hr). cbn [fst] in *.
    destruct Hs as (_ & _ & Hx & Ht & _).
    assert (Hga : ghost a grid = false) by now rewrite <- Hx.
    pose proof (cell_update_true e i grid a ma Hga) as Hv. cbv zeta in Hv.
    fold (rate_index e grid) in Hv. rewrite Hv.
    rewrite Hp, Hr.
    now rewrite (compute_flux_static e a s) by (symmetry; assumption).
  - intros k [a ma] Hk Ha. cbn [fst] in *.
    rewrite cell_update_other by (left; lia). exact Ha.
Qed.

Lemma prepared_diffT (e : Env) (recvbuff : Z -> double) (iter : Z)
    (diffT_ : double) (s : State) :
  diffT (prepared e recvbuff iter diffT_ s) = diffT_.
Proof.
  unfold prepared.
  apply (for_loop_ind (fun a => diffT a = diffT_)).
  - unfold unpack_cells.
    apply (for_loop_ind (fun a => diffT a = diffT_)).
    + unfold pack_cells.
      apply (for_loop_ind (fun a => diffT a = diffT_)); [reflexivity|].
      intros c a _ Ha.
      apply (for_loop_ind (fun a => diffT a = diffT_)); auto.
    + intros c a _ Ha.
      apply (for_loop_ind (fun a => diffT a = diffT_)); auto.
  - intros k a _ Ha. unfold set_boundary, compute_bulk.
    destruct (unit_flag e =? 0);
      match goal with
      | |- context [if ?b then _ else _] => destruct b
      end; cbn; exact Ha.
Qed.

Section DiffusionValue.

Variable e : Env.
Variable recvbuff : Z -> double.
Variable nuConv : Z -> bool.
Variable iter : Z.
Variable diffT_ : double.
Variable s : State.

(** The concentration of a true cell of a processed species after the
    call, in terms of the snapshot the call leaves in [nuPrev]. *)
Lemma diffusion_value_at (i grid : Z) :
  let s4 := prepared e recvbuff iter diffT_ s in
  let s' := fst (diffusion e recvbuff nuConv iter diffT_ s) in
  1 <= i <= nnus e ->
  processed e nuConv i = true ->
  0 <= grid < nXYZ s4 ->
  ghost s4 grid = false ->
  (forall grid', 0 <= grid' < grid -> ghost s4 grid' = false ->
                 rate_index e grid' <> rate_index e grid) ->
  let c :=
    compute_flux e s4 (diffD e i) (nuPrev s' i) (nuR s i (rate_index e grid))
                 grid in
  nuGrid s' grid i = if dgt c d0 then c else d1e_20.
Proof.
  intros s4 s' Hi Hp Hg Hgh Hinj. cbv zeta. unfold s'.
  rewrite diffusion_unfold. fold s4.
  set (conv0 := for_loop 0 (nnus e + 1) (fun i c => upd c i true)
                         (fun _ : Z => false)).
  destruct (prepared_arrays e recvbuff iter diffT_ s) as (HR & _).
  fold s4 in HR.
  apply (for_loop_at
           (fun a => static_eq s4 (fst a)
                     /\ forall x, nuR (fst a) i x = nuR s i x)
           (fun a =>
              nuGrid (fst a) grid i
              = let c :=
                  compute_flux e s4 (diffD e i) (nuPrev (fst a) i)
                               (nuR s i (rate_index e grid)) grid in
                if dgt c d0 then c else d1e_20)
           1 i (nnus e + 1)); try lia.
  - split; [apply static_eq_refl|]. intro x. cbn [fst]. now rewrite HR.
  - intros k a Hk [Ha1 Ha2]. split.
    + eapply static_eq_trans; [exact Ha1 | apply species_step_static].
    + intro x.
      destruct (species_step_rates_other e nuConv k i a x) as [G _]; [lia|].
      rewrite G. apply Ha2.
  - intros [a c] [Hs Hr]. cbn [fst] in *.
    rewrite species_step_run by exact Hp. cbn [fst].
    destruct (snapshot_frame i a) as (Sf & _).
    destruct (snapshot_arrays i a) as (SR & _).
    destruct (cells_frame e i (snapshot i a)) as (_ & Cp & _).
    pose proof (static_eq_trans _ _ _ Hs Sf) as Hs2.
    destruct Hs2 as (Hn & _ & Hx & Ht & _).
    unfold cells. cbv zeta.
    rewrite (cells_loop_value e i 0 (nXYZ (snapshot i a)) (snapshot i a) d0 grid).
    + cbv zeta. unfold cells in Cp. cbv zeta in Cp. rewrite Cp.
      rewrite SR, Hr.
      now rewrite (compute_flux_static e (snapshot i a) s4)
        by (symmetry; assumption).
    + rewrite <- Hn. exact Hg.
    + rewrite <- Hx. exact Hgh.
    + intros grid' H1 H2. apply Hinj; [exact H1 | now rewrite Hx].
  - intros k a Hk Ha. cbv zeta in *.
    destruct (species_step_other e nuConv k i a) as (G1 & G2 & _); [lia|].
    rewrite G1, Ha.
    now rewrite (compute_flux_ext e s4 (diffD e i)
                   (nuPrev (fst (species_step e nuConv k a)) i)
                   (nuPrev (fst a) i)) by (intro g; apply G2).
Qed.

End DiffusionValue.

(** C1.  For a liquid species whose flag is false, a call of [diffusion]
    leaves in every true cell the value
    [c_prev + dt_diff * (flux_x + flux_y + flux_z + reaction - shear)],
    when it is positive, and [1e-20] otherwise.  Each flux is the
    difference quotient [(D*(c[+1]-c[0])/h - D*(c[0]-c[-1])/h)/h] of the
    snapshot [c] the call takes of the species before it updates any cell
    (for a cell the halo exchange does not write, the concentration the
    call began with); [reaction] is the rate of the cell in [nuR], no true
    cell visited earlier having the same index into [nuR]; [shear] is 0
    for a zero shear rate and else
    [shearRate * (d*h - h/2) * (c[+1] - c[-1]) / (2*h)], the nearest ghost
    cell down the flat index lying [d] cells below.  With a zero diffusion
    coefficient and a zero shear rate the change is [reaction * dt_diff]. *)
Theorem diffusion_flux_update (e : Env) (recvbuff : Z -> double)
    (nuConv : Z -> bool) (iter : Z) (diffT_ : double) (s : State)
    (i grid d : Z) :
  1 <= i <= nnus e ->
  nuType e i = 0 ->
  nuConv i = false ->
  let s' := fst (diffusion e recvbuff nuConv iter diffT_ s) in
  0 <= grid < nXYZ s' ->
  ghost s' grid = false ->
  (forall grid', 0 <= grid' < grid -> ghost s' grid' = false ->
                 rate_index e grid' <> rate_index e grid) ->
  (shearRate e <> d0 ->
   0 <= d <= grid /\ ghost s' (grid - d) = true
   /\ forall j, 0 <= j < d -> ghost s' (grid - j) = false) ->
  let c := nuPrev s' i in
  let D := diffD e i in
  let flux_x :=
    ((D * (c (grid + 1)%Z - c grid) / stepx e
      - D * (c grid - c (grid - 1)%Z) / stepx e) / stepx e)%Qc in
  let flux_y :=
    ((D * (c (grid + nX e)%Z - c grid) / stepy e
      - D * (c grid - c (grid - nX e)%Z) / stepy e) / stepy e)%Qc in
  let flux_z :=
    ((D * (c (grid + nX e * nY e)%Z - c grid) / stepz e
      - D * (c grid - c (grid - nX e * nY e)%Z) / stepz e) / stepz e)%Qc in
  let reaction := nuR s i (rate_index e grid) in
  let shear :=
    if deq (shearRate e) d0 then d0
    else (shearRate e * (d_of_Z d * stepz e - stepz e / d2)
          * (c (grid + 1)%Z - c (grid - 1)%Z) / (d2 * stepz e))%Qc in
  let c_new :=
    (c grid + diffT_ * (flux_x + flux_y + flux_z + reaction - shear))%Qc in
  (forall g, 0 <= g < nXYZ s' -> not_received e g -> c g = nuGrid s g i)
  /\ nuGrid s' grid i = (if dgt c_new d0 then c_new else d1e_20)
  /\ (D = d0 -> shearRate e = d0 ->
      (c_new - c grid)%Qc = (reaction * diffT_)%Qc
      /\ ((d0 < c_new)%Qc ->
          (nuGrid s' grid i - c grid)%Qc = (reaction * diffT_)%Qc)).
Proof.
  intros Hi Ht Hc s' Hg Hgh Hinj Hsh c D flux_x flux_y flux_z reaction shear
         c_new.
  assert (Hp : processed e nuConv i = true)
    by (unfold processed; rewrite Ht, Hc; reflexivity).
  destruct (diffusion_grids e recvbuff nuConv iter diffT_ s)
    as (_ & _ & Gn & Gg).
  fold s' in Gn, Gg.
  set (s4 := prepared e recvbuff iter diffT_ s) in *.
  assert (Hv : compute_flux e s4 D c reaction grid = c_new).
  { unfold compute_flux. cbv zeta.
    rewrite (shear_term_value e s4 c grid d) by (rewrite <- Gg; exact Hsh).
    fold shear. unfold s4. rewrite prepared_diffT.
    unfold c_new, flux_x, flux_y, flux_z, Qcdiv. ring. }
  assert (Hstore : nuGrid s' grid i = (if dgt c_new d0 then c_new else d1e_20)).
  { rewrite <- Hv. unfold s', c, D, reaction.
    apply (diffusion_value_at e recvbuff nuConv iter diffT_ s i grid Hi Hp).
    - fold s4. rewrite <- Gn. exact Hg.
    - fold s4. rewrite <- Gg. exact Hgh.
    - fold s4. rewrite <- Gg. exact Hinj. }
  split; [|split; [exact Hstore|]].
  - intros g Hg0 Hr. unfold c, s'.
    rewrite (diffusion_snapshot_at e recvbuff nuConv iter diffT_ s i g Hi Hp)
      by (fold s4; rewrite <- Gn; exact Hg0).
    destruct (prepared_frame e recvbuff iter diffT_ s) as (_ & _ & Pv).
    apply Pv. exact Hr.
  - intros HD Hs0.
    assert (E : (c_new - c grid)%Qc = (reaction * diffT_)%Qc).
    { unfold c_new, flux_x, flux_y, flux_z, shear. rewrite HD, Hs0.
      replace (deq d0 d0) with true by reflexivity.
      unfold Qcdiv. change d0 with 0%Qc. ring. }
    split; [exact E|].
    intro Hpos. rewrite Hstore.
    replace (dgt c_new d0) with true; [exact E|].
    symmetry. unfold dgt. now apply dlt_true.
Qed.

(** The true cell of [rich_state] holds 1 among ghost cells that hold
    1000; with [D = 1/1000] and [dt_diff = 1/10] it goes to
    [1 + (1/10) * 6 * (999/1000) = 7997/5000]. *)
Lemma diffusion_flux_update_witness :
  let e := rich_env in
  let s := rich_state in
  let s' := fst (diffusion e (fun _ => d0) (fun _ => false) 1 (Q2Qc (1 # 10)) s) in
  1 <= 1 <= nnus e /\ nuType e 1 = 0
  /\ 0 <= 13 < nXYZ s' /\ ghost s' 13 = false
  /\ (forall grid', 0 <= grid' < 13 -> ghost s' grid' = false ->
                    rate_index e grid' <> rate_index e 13)
  /\ (shearRate e <> d0 ->
      0 <= 0 <= 13 /\ ghost s' (13 - 0) = true
      /\ forall j, 0 <= j < 0 -> ghost s' (13 - j) = false)
  /\ nuPrev s' 1 13 = nuGrid s 13 1
  /\ nuGrid s' 13 1 = Q2Qc (7997 # 5000).
Proof.
  intros e s s'.
  assert (H1 : 1 <= 1 <= nnus e) by (vm_compute; split; discriminate).
  assert (H2 : nuType e 1 = 0) by reflexivity.
  assert (H3 : 0 <= 13 < nXYZ s')
    by (vm_compute; split; [discriminate | reflexivity]).
  assert (H4 : ghost s' 13 = false) by (vm_compute; reflexivity).
  assert (H5 : forall grid', 0 <= grid' < 13 -> ghost s' grid' = false ->
                             rate_index e grid' <> rate_index e 13).
  { intros g Hg Hgh. exfalso.
    destruct (diffusion_grids e (fun _ => d0) (fun _ => false) 1
                              (Q2Qc (1 # 10)) s) as (_ & Hx & _).
    fold s' in Hx. rewrite Hx in Hgh.
    change (negb (g =? 13) = false) in Hgh.
    apply negb_false_iff, Z.eqb_eq in Hgh. lia. }
  assert (H6 : shearRate e <> d0 ->
               0 <= 0 <= 13 /\ ghost s' (13 - 0) = true
               /\ forall j, 0 <= j < 0 -> ghost s' (13 - j) = false)
    by (intro H; exfalso; apply H; reflexivity).
  repeat match goal with |- _ /\ _ => split; [assumption|] end.
  destruct (diffusion_flux_update e (fun _ => d0) (fun _ => false) 1
              (Q2Qc (1 # 10)) s 1 13 0 H1 H2 eq_refl H3 H4 H5 H6)
    as (A & B & _).
  split.
  - apply A; [exact H3|]. intros c Hc. exfalso.
    change (0 <= c < 0) in Hc. lia.
  - fold s' in B. rewrite B. qc_eq.
Defined.
